(** * Unsteady MHD nanofluid Couette flow: solver, mixture calculator, optimizer

    A shallow embedding of the numerical core of the application
    (the functions [solveUnsteadyMHDCouette], [computeNanofluidProperties]
    and the class [TransientOptimizer]) together with the properties of the
    design document that are checked against it, followed by the rest of
    the pure code around it ([validateParameters], the response metrics and
    the entropy generation of the solver, [solveQuick], the class
    [TransientNeuralNetwork], the optimizer as [runOptimizer] builds it) and
    the properties that this code shows.

    Numbers.  A JavaScript number is modelled by a canonical rational [Qc].
    Unless said otherwise the four operations are exact: there is neither
    rounding nor overflow, and no NaN (but among the response metrics, where
    a division by a final value of zero is modelled by [JSNumber]).  A
    statement about the solver is therefore a statement about the numerical
    scheme in exact arithmetic, and an equality of computed values is meant
    up to rounding.  [Qc] totalises division by zero to [0]; a statement
    whose truth depends on the values computed carries the hypotheses (valid
    parameters, [0 < dtau]) under which every denominator of the source is
    positive ([denominators_positive]).

    Where rounding decides a bound or a count, the operations are those of
    binary64: the exact result rounded to nearest, ties to even ([binary64],
    written [⊕], [⊖], [⊗], [⊘]).  This is so for the genes that the operators
    of the optimizer compute, for the entropy generation with the Bejan
    number, and for the number of time steps as the source counts them
    ([Nt_binary64]).  There is no overflow there either: a result beyond the
    binary64 range is rounded as if the exponent were unbounded.

    Arrays are lists updated in place with [<[i:=x]>]; a [for] loop is a fold
    over the range of its index. *)

From Stdlib Require Import QArith Qcanon Qcabs Qround Qpower Lia Lra Psatz Sorted Permutation.
From stdpp Require Import base list strings gmap numbers.

Open Scope Qc_scope.
Set Default Proof Using "Type".

(** ** JavaScript numbers and [Math] *)

Module JS.

(** A decimal literal of the source. *)
Definition lit (q : Q) : Qc := Q2Qc q.

(** An array index or a loop counter used as a number. *)
Definition of_nat (n : nat) : Qc := Q2Qc (inject_Z (Z.of_nat n)).

Definition Math_abs (x : Qc) : Qc := Qcabs x.

Definition Math_max (x y : Qc) : Qc := if bool_decide (x < y) then y else x.

Definition Math_min (x y : Qc) : Qc := if bool_decide (y < x) then y else x.

(** [Math.floor] of a number that is then used as a count or an index. *)
Definition Math_floor (x : Qc) : Z := Qfloor x.

(** [x ** 2]. *)
Definition sq (x : Qc) : Qc := x * x.

(** [a[i]] for an index inside the array; every read of the solver is
    inside its array as soon as [1 <= N]. *)
Definition get (a : list Qc) (i : nat) : Qc := nth i a 0.

(** [for (let i = lo; i < hi; i++) body] on a loop state [s]. *)
Definition for_range {S : Type} (lo hi : nat) (body : nat → S → S) (s : S) : S :=
  fold_left (fun s i => body i s) (seq lo (hi - lo)) s.

End JS.
Import JS.

Notation "a .[ i ]" := (get a i) (at level 1, left associativity, format "a .[ i ]").

(** ** Rounding to binary64 *)

Module Binary64.

(** The integer nearest to [x]; a tie goes to the even one. *)
Definition round_half_even (x : Q) : Z :=
  let f := Qfloor x in
  match Qcompare (x - inject_Z f) (1 # 2) with
  | Lt => f
  | Gt => (f + 1)%Z
  | Eq => if Z.even f then f else (f + 1)%Z
  end.

(** The exponent [e] of a positive number: [2^e <= x < 2^(e+1)]. *)
Definition exponent (x : Q) : Z :=
  let k := (Z.log2 (Qnum x) - Z.log2 (Zpos (Qden x)))%Z in
  if Qle_bool (2 ^ k) x then k else (k - 1)%Z.

(** The distance between the binary64 numbers around a positive [x]: 52
    binary places below the leading one, and [2^-1074] below the normal
    range. *)
Definition spacing (x : Q) : Q := (2 ^ (Z.max (exponent x) (-1022) - 52))%Q.

(** The multiple of [u] nearest to [x]. *)
Definition on_grid (u x : Q) : Q := (inject_Z (round_half_even (x / u)) * u)%Q.

Definition nearest (x : Q) : Q := on_grid (spacing x) x.

(** Round to nearest, ties to even. *)
Definition round (x : Q) : Q :=
  match Qcompare x 0 with
  | Eq => 0%Q
  | Gt => nearest x
  | Lt => (- nearest (- x))%Q
  end.

End Binary64.

(** The binary64 number nearest to [x]: what a decimal literal denotes, and
    what an operation returns for the exact result [x]. *)
Definition binary64 (x : Qc) : Qc := Q2Qc (Binary64.round x).

(** The four operations on binary64 numbers. *)
Definition add64 (x y : Qc) : Qc := binary64 (x + y).
Definition sub64 (x y : Qc) : Qc := binary64 (x - y).
Definition mul64 (x y : Qc) : Qc := binary64 (x * y).
Definition div64 (x y : Qc) : Qc := binary64 (x / y).

Notation "x ⊕ y" := (add64 x y) (at level 50, left associativity).
Notation "x ⊖ y" := (sub64 x y) (at level 50, left associativity).
Notation "x ⊗ y" := (mul64 x y) (at level 40, left associativity).
Notation "x ⊘ y" := (div64 x y) (at level 40, left associativity).

(** ** The parameter record *)

Record Params : Type := mkParams {
  A1 : Qc; A2 : Qc; A3 : Qc; A4 : Qc; A5 : Qc;
  Re : Qc; Ha : Qc; Pr : Qc; Ec : Qc; Bi : Qc;
  lambda : Qc; G : Qc;
  N_given : option nat
}.

(** [const { ..., N = 50 } = params]: a record without [N] gets 50 intervals. *)
Definition N (p : Params) : nat := default 50%nat (N_given p).

(** A valid parameter set, as the data model of the design document bounds
    it: the five ratios and [Pr] are positive, the other numbers are not
    negative, and the grid has at least one interval.  (The table
    [PARAMETER_VALIDITY] of the source bounds seven of the numbers more
    tightly and is advisory only: the solver runs on whatever it is given.) *)
Definition valid_params (p : Params) : Prop :=
  0 < A1 p ∧ 0 < A2 p ∧ 0 < A3 p ∧ 0 < A4 p ∧ 0 < A5 p ∧
  0 <= Ha p ∧ 0 <= Re p ∧ 0 < Pr p ∧ 0 <= Ec p ∧ 0 <= Bi p ∧
  0 <= lambda p ∧ 0 <= G p ∧ (1 <= N p)%nat.

(** ** The solver [solveUnsteadyMHDCouette] *)

Section Solver.

Variable p : Params.
Variables tauFinal dtau : Qc.
Variable saveFreq : nat.

(** [const h = 1.0 / N] *)
Definition h : Qc := 1 / of_nat (N p).

(** [const eta = Array.from({ length: N + 1 }, (_, i) => i * h)] *)
Definition eta : list Qc := map (fun i => of_nat i * h) (seq 0 (N p + 1)).

(** The initial profiles: arrays filled with 0 and 1, then overwritten node
    by node. *)
Definition W_init : list Qc :=
  for_range 0 (N p + 1)
    (fun i W => <[i := eta.[i] * Re p / (1 + lambda p)]> W)
    (replicate (N p + 1) 0).

Definition Theta_init : list Qc :=
  for_range 0 (N p + 1)
    (fun i Theta => <[i := 1 - (Bi p / (1 + Bi p)) * eta.[i]]> Theta)
    (replicate (N p + 1) 1).

(** The derivative of a profile [F], written into the array [Fp]: central
    differences inside, one-sided differences at the two ends. *)
Definition deriv (F Fp : list Qc) : list Qc :=
  let Fp := for_range 1 (N p)
              (fun i Fp => <[i := (F.[i + 1] - F.[i - 1]) / (2 * h)]> Fp) Fp in
  let Fp := <[0%nat := (F.[1] - F.[0]) / h]> Fp in
  <[N p := (F.[N p] - F.[N p - 1]) / h]> Fp.

(** The arrays a time step works on. *)
Record Fields : Type := mkFields {
  W : list Qc;
  Theta : list Qc;
  Wp : list Qc
}.

(** The largest change of either field over all nodes. *)
Definition max_change (W W_prev Theta Theta_prev : list Qc) : Qc :=
  for_range 0 (N p + 1)
    (fun i maxDiff =>
       Math_max (Math_max maxDiff (Math_abs (W.[i] - W_prev.[i])))
                (Math_abs (Theta.[i] - Theta_prev.[i])))
    0.

(** The body of the Picard loop: one sweep over both fields, and the
    largest change it made. *)
Definition picard_sweep (W_old Theta_old : list Qc) (s : Fields) : Fields * Qc :=
  let W_prev := W s in
  let Theta_prev := Theta s in
  let Wp1 := deriv (W s) (Wp s) in
  let W1 :=
    for_range 1 (N p)
      (fun i W =>
         let coeff := A1 p / (h * h) in
         let diag := 2 * A1 p / (h * h) + A2 p * Ha p * Ha p + A4 p / dtau in
         <[i := (coeff * (W_prev.[i - 1] + W_prev.[i + 1]) + G p
                 + (A4 p / dtau) * W_old.[i]) / diag]> W)
      (W s) in
  let W2 := <[0%nat := 0]> W1 in
  let W3 := <[N p := (Re p + lambda p * W2.[N p - 1] / h) / (1 + lambda p / h)]> W2 in
  let Wp2 := deriv W3 Wp1 in
  let Theta1 :=
    for_range 1 (N p)
      (fun i Theta =>
         let source := A1 p * Pr p * Ec p * Wp2.[i] * Wp2.[i]
                       + A2 p * Pr p * Ec p * Ha p * Ha p * W3.[i] * W3.[i] in
         let coeff := A3 p / (h * h) in
         let diag := 2 * A3 p / (h * h) + A5 p * Pr p / dtau in
         <[i := (coeff * (Theta_prev.[i - 1] + Theta_prev.[i + 1]) + source
                 + (A5 p * Pr p / dtau) * Theta_old.[i]) / diag]> Theta)
      (Theta s) in
  let Theta2 := <[0%nat := 1]> Theta1 in
  let Theta3 := <[N p := Theta2.[N p - 1] / (1 + h * Bi p)]> Theta2 in
  (mkFields W3 Theta3 Wp2, max_change W3 W_prev Theta3 Theta_prev).

(** The convergence test of the loop. *)
Definition tolerance : Qc := lit 1e-10.

Definition converged (maxDiff : Qc) : bool := bool_decide (maxDiff < tolerance).

(** [for (let iter = 0; iter < 15; iter++) { ...; if (maxDiff < 1e-10) break; }]
    with [budget] iterations left; the result is the last iterate and the
    number of sweeps that ran. *)
Fixpoint picard_loop (budget : nat) (W_old Theta_old : list Qc)
    (s : Fields) (iter : nat) : Fields * nat :=
  match budget with
  | O => (s, iter)
  | S budget' =>
      let '(s', maxDiff) := picard_sweep W_old Theta_old s in
      if converged maxDiff then (s', S iter)
      else picard_loop budget' W_old Theta_old s' (S iter)
  end.

Definition picard_budget : nat := 15.

(** One time step: the fields at the old time level are kept, and the
    Picard loop runs on the current arrays. *)
Definition time_step (s : Fields) : Fields * nat :=
  picard_loop picard_budget (W s) (Theta s) s 0.

(** The fields after [j] sweeps of the loop, had it not stopped before, and
    the largest change made by sweep number [j] (counted from 0). *)
Fixpoint picard_iterate (j : nat) (W_old Theta_old : list Qc) (s : Fields) : Fields :=
  match j with
  | O => s
  | S j' => fst (picard_sweep W_old Theta_old (picard_iterate j' W_old Theta_old s))
  end.

Definition sweep_change (j : nat) (W_old Theta_old : list Qc) (s : Fields) : Qc :=
  snd (picard_sweep W_old Theta_old (picard_iterate j W_old Theta_old s)).

(** The three arrays have one entry per node. *)
Definition well_sized (s : Fields) : Prop :=
  length (W s) = (N p + 1)%nat ∧ length (Theta s) = (N p + 1)%nat
  ∧ length (Wp s) = (N p + 1)%nat.

(** Sweep number [j] changed neither field by as much as the tolerance at
    any node. *)
Definition small_change (j : nat) (W_old Theta_old : list Qc) (s : Fields) : Prop :=
  ∀ i, (i <= N p)%nat →
    Math_abs ((W (picard_iterate (S j) W_old Theta_old s)).[i]
              - (W (picard_iterate j W_old Theta_old s)).[i]) < tolerance
    ∧ Math_abs ((Theta (picard_iterate (S j) W_old Theta_old s)).[i]
                - (Theta (picard_iterate j W_old Theta_old s)).[i]) < tolerance.

(** A history of times that never goes back. *)
Definition nondecreasing (l : list Qc) : Prop :=
  ∀ i j, (i <= j)%nat → (j < length l)%nat → l.[i] <= l.[j].

(** The recorded trajectory. *)
Record History : Type := mkHistory {
  tauHistory : list Qc;
  WHistory : list (list Qc);
  ThetaHistory : list (list Qc);
  CfLowerHistory : list Qc;
  CfUpperHistory : list Qc
}.

(** [const Nt = Math.floor(tauFinal / dtau)]; a negative count runs no step.
    The quotient floored here is the exact one. *)
Definition Nt : nat := Z.to_nat (Math_floor (tauFinal / dtau)).

(** The same count as the source computes it: the two arguments are binary64
    numbers (a decimal is read as the nearest one) and it is their rounded
    quotient that is floored.  The two counts can differ by one: [2.3 / 0.02]
    is 115, and 114 in the source.  When [dtau] is zero and [tauFinal] is
    positive, or when the quotient overflows, the count is [Infinity] and the
    time loop never ends: [None].  When both are zero, or [tauFinal] is
    negative, the count is [NaN] or [-Infinity] and no step is run. *)
Definition Nt_binary64 : option nat :=
  let quotient := binary64 tauFinal ⊘ binary64 dtau in
  if bool_decide (binary64 dtau = 0) then
    if bool_decide (0 < binary64 tauFinal) then None else Some 0%nat
  else if bool_decide (Q2Qc (2 ^ 1024) <= quotient) then None
  else Some (Z.to_nat (Math_floor quotient)).

(** The state before the time loop: the initial profiles, their derivative
    and the first sample. *)
Definition fields0 : Fields :=
  mkFields W_init Theta_init (deriv W_init (replicate (N p + 1) 0)).

Definition history0 : History :=
  mkHistory [0] [W_init] [Theta_init]
            [A1 p * (Wp fields0).[0]] [A1 p * (Wp fields0).[N p]].

(** The body of the time loop for step [n]. *)
Definition time_loop_body (n : nat) (st : Fields * History) : Fields * History :=
  let '(s, hist) := st in
  let s1 := fst (time_step s) in
  if ((n mod saveFreq =? 0)%nat || (n =? Nt)%nat)%bool then
    let Wp' := deriv (W s1) (Wp s1) in
    (mkFields (W s1) (Theta s1) Wp',
     mkHistory (tauHistory hist ++ [of_nat n * dtau])
               (WHistory hist ++ [W s1])
               (ThetaHistory hist ++ [Theta s1])
               (CfLowerHistory hist ++ [A1 p * Wp'.[0]])
               (CfUpperHistory hist ++ [A1 p * Wp'.[N p]]))
  else (s1, hist).

(** The state after the first [n] time steps. *)
Definition after_steps (n : nat) : Fields * History :=
  for_range 1 (n + 1) time_loop_body (fields0, history0).

(** What holds of the fields and of the trajectory after [n] time steps. *)
Definition loop_invariant (n : nat) (st : Fields * History) : Prop :=
  let s := fst st in
  let hist := snd st in
  well_sized s
  ∧ ((1 <= n)%nat → (W s).[0] = 0 ∧ (Theta s).[0] = 1)
  ∧ Forall (fun Wt => Wt.[0] = 0) (WHistory hist)
  ∧ Forall (fun Thetat => Thetat.[0] = 1) (ThetaHistory hist)
  ∧ length (WHistory hist) = length (tauHistory hist)
  ∧ length (ThetaHistory hist) = length (tauHistory hist)
  ∧ length (CfLowerHistory hist) = length (tauHistory hist)
  ∧ (1 <= length (tauHistory hist))%nat
  ∧ (0 <= dtau →
     nondecreasing (tauHistory hist)
     ∧ ∀ i, (i < length (tauHistory hist))%nat →
            (tauHistory hist).[i] <= of_nat n * dtau).

(** *** Diagnostics of a trajectory *)

(** The rise-time search over the lower skin-friction history: both times
    start at [tauFinal]; the loop stops at the first sample that reaches
    95% of the final value. *)
Fixpoint rise_loop (tauHist CfHist : list Qc) (CfFinal : Qc)
    (indices : list nat) (tau63 tau95 : Qc) : Qc * Qc :=
  match indices with
  | [] => (tau63, tau95)
  | i :: rest =>
      let tau63' :=
        if (bool_decide (lit 0.63 * Math_abs CfFinal <= Math_abs CfHist.[i])
            && bool_decide (tau63 = tauFinal))%bool
        then tauHist.[i] else tau63 in
      if bool_decide (lit 0.95 * Math_abs CfFinal <= Math_abs CfHist.[i])
      then (tau63', tauHist.[i])
      else rise_loop tauHist CfHist CfFinal rest tau63' tau95
  end.

Definition rise_times (tauHist CfHist : list Qc) : Qc * Qc :=
  let CfFinal := CfHist.[length CfHist - 1] in
  rise_loop tauHist CfHist CfFinal (seq 0 (length CfHist)) tauFinal tauFinal.

(** The four accumulators of the energy loop. *)
Record Energies : Type := mkEnergies { KE : Qc; TE : Qc; VD : Qc; JH : Qc }.

(** The inner loop over the intervals of the grid, for one sample. *)
Definition energy_sample (Wt Thetat : list Qc) : Energies :=
  for_range 0 (N p)
    (fun i e =>
       let wp_i := (Wt.[i + 1] - Wt.[i]) / h in
       mkEnergies
         (KE e + lit 0.5 * (sq Wt.[i] + sq Wt.[i + 1]) * h)
         (TE e + lit 0.5 * (Thetat.[i] + Thetat.[i + 1]) * h)
         (VD e + A1 p * Pr p * Ec p * sq wp_i * h)
         (JH e + A2 p * Pr p * Ec p * Ha p * Ha p * sq Wt.[i] * h))
    (mkEnergies 0 0 0 0).

(** The outer loop over the samples. *)
Definition energy_histories (WHist ThetaHist : list (list Qc)) : list Energies :=
  for_range 0 (length WHist)
    (fun t acc => acc ++ [energy_sample (nth t WHist []) (nth t ThetaHist [])])
    [].

(** What a solve returns (the part of it the properties below speak of). *)
Record Solution : Type := mkSolution {
  sol_eta : list Qc;
  sol_history : History;
  kineticEnergy : list Qc;
  thermalEnergy : list Qc;
  viscousDissipation : list Qc;
  jouleHeating : list Qc;
  CfFinal : Qc;
  tau63 : Qc;
  tau95 : Qc
}.

Definition solveUnsteadyMHDCouette : Solution :=
  let hist := snd (after_steps Nt) in
  let en := energy_histories (WHistory hist) (ThetaHistory hist) in
  let rt := rise_times (tauHistory hist) (CfLowerHistory hist) in
  mkSolution eta hist (map KE en) (map TE en) (map VD en) (map JH en)
             (CfLowerHistory hist).[length (CfLowerHistory hist) - 1]
             (fst rt) (snd rt).

End Solver.

(** *** The trapezoidal rule, as the design document words it *)

(** [f 0 + ... + f (n - 1)] *)
Fixpoint sum_n (f : nat → Qc) (n : nat) : Qc :=
  match n with
  | O => 0
  | S n' => sum_n f n' + f n'
  end.

(** The trapezoidal rule for the integral over [n] intervals of width [hh]
    of a function sampled at the nodes. *)
Definition trapezoid (hh : Qc) (f : nat → Qc) (n : nat) : Qc :=
  sum_n (fun i => (f i + f (i + 1)%nat) / 2 * hh) n.

(** The kinetic energy of a sample as the design document states it: the
    trapezoidal rule applied to the integrand [(1/2) W^2]. *)
Definition kinetic_energy_of_half_W_squared (p : Params) (Wt : list Qc) : Qc :=
  trapezoid (h p) (fun i => 1 / 2 * sq Wt.[i]) (N p).

(** *** Inputs on which the solver is run below *)

(** Parameters used to run the definitions on concrete inputs: the baseline
    preset on a grid of [n] intervals, and a one-interval case without slip. *)
Definition baseline (n : nat) : Params :=
  mkParams (lit 1.2) (lit 1.5) (lit 1.3) (lit 1.1) (lit 1.15)
           1 2 (lit 6.2) (lit 0.1) (lit 0.5) (lit 0.1) (lit 0.5) (Some n).

Definition no_slip (n : nat) : Params :=
  mkParams (lit 1.2) (lit 1.5) (lit 1.3) (lit 1.1) (lit 1.15)
           1 2 (lit 6.2) (lit 0.1) (lit 0.5) 0 (lit 0.5) (Some n).

(** A run driven by a strong pressure gradient, whose skin friction rises
    from 0.1 to about 5 over four steps. *)
Definition driven : Params :=
  mkParams 1 1 1 1 1 (lit 0.1) 0 1 (lit 0.1) (lit 0.5) 0 (lit 20) (Some 2%nat).

(** A one-interval run without slip, on which the numbers are easy to follow:
    the velocity profile is [0, 1] at every sample. *)
Definition one_interval : Solution :=
  solveUnsteadyMHDCouette (no_slip 1) 2 1 1.

(** ** The mixture calculator [computeNanofluidProperties] *)

(** The physical constants of a particle (the fields [name], [icon] and
    [desc] of the table play no part in the computation). *)
Record Particle : Type := mkParticle {
  rho : Qc; k : Qc; Cp : Qc; sigma : Qc
}.

(** The own properties of the object literal [NANOPARTICLES], in source order. *)
Definition NANOPARTICLES : list (string * Particle) :=
  [ ("Cu",    mkParticle (lit 8933)  (lit 401)  (lit 385) (lit 5.96e7));
    ("Al2O3", mkParticle (lit 3970)  (lit 40)   (lit 765) (lit 1e-10));
    ("TiO2",  mkParticle (lit 4250)  (lit 8.95) (lit 686) (lit 1e-12));
    ("Ag",    mkParticle (lit 10500) (lit 429)  (lit 235) (lit 6.3e7));
    ("Fe3O4", mkParticle (lit 5180)  (lit 9.7)  (lit 670) (lit 2.5e4));
    ("SiO2",  mkParticle (lit 2200)  (lit 1.4)  (lit 745) (lit 1e-14));
    ("CuO",   mkParticle (lit 6320)  (lit 76.5) (lit 532) (lit 1e-10));
    ("ZnO",   mkParticle (lit 5606)  (lit 29)   (lit 523) (lit 1e-8)) ]%string.

(** [NANOPARTICLES] is a plain object, so a property that is not its own is
    looked up on [Object.prototype]; these are the names found there. *)
Definition Object_prototype_names : list string :=
  [ "constructor"; "hasOwnProperty"; "isPrototypeOf"; "propertyIsEnumerable";
    "toLocaleString"; "toString"; "valueOf"; "__proto__";
    "__defineGetter__"; "__defineSetter__"; "__lookupGetter__";
    "__lookupSetter__" ]%string.

(** What [NANOPARTICLES[type]] evaluates to: a particle of the table, a member
    inherited from [Object.prototype] (a function or an object, hence truthy,
    with none of the four constants), or [undefined]. *)
Inductive Property : Type :=
  | Own (particle : Particle)
  | Inherited
  | Undefined.

Fixpoint own_property (table : list (string * Particle)) (type : string) : option Particle :=
  match table with
  | [] => None
  | (name, particle) :: rest =>
      if bool_decide (name = type) then Some particle else own_property rest type
  end.

Definition NANOPARTICLES_get (type : string) : Property :=
  match own_property NANOPARTICLES type with
  | Some particle => Own particle
  | None =>
      if bool_decide (type ∈ Object_prototype_names) then Inherited else Undefined
  end.

(** A ratio of the result: a number, or NaN where the source computes with an
    [undefined] constant. *)
Inductive Ratio : Type :=
  | Num (q : Qc)
  | NaN.

Record Ratios : Type := mkRatios {
  rA1 : Ratio; rA2 : Ratio; rA3 : Ratio; rA4 : Ratio; rA5 : Ratio
}.

Definition default_ratios : Ratios :=
  mkRatios (Num (lit 1.2)) (Num (lit 1.5)) (Num (lit 1.3)) (Num (lit 1.1)) (Num (lit 1.15)).

Section Nanofluid.

(** [Math.pow], which the language leaves to the implementation to
    approximate; the Brinkman ratio is the only place that calls it. *)
Variable Math_pow : Qc → Qc → Qc.

Definition computeNanofluidProperties (type : string) (phi : Qc) : Ratios :=
  let rho_f := lit 997 in
  let k_f := lit 0.613 in
  let Cp_f := lit 4179 in
  let sigma_f := lit 0.05 in
  match NANOPARTICLES_get type with
  | Undefined => default_ratios
  | Own p =>
      let A4 := ((1 - phi) * rho_f + phi * rho p) / rho_f in
      let A1 := 1 / Math_pow (1 - phi) (lit 2.5) in
      let A3 := (k p + 2 * k_f + 2 * phi * (k p - k_f))
                / (k p + 2 * k_f - phi * (k p - k_f)) in
      let A5 := ((1 - phi) * rho_f * Cp_f + phi * rho p * Cp p) / (rho_f * Cp_f) in
      let sr := sigma p / sigma_f in
      let A2 := 1 + lit 3 * phi * (sr - 1) / (sr + 2 - phi * (sr - 1)) in
      mkRatios (Num A1) (Num A2) (Num A3) (Num A4) (Num A5)
  | Inherited =>
      (* [p.rho], [p.k], [p.Cp] and [p.sigma] are [undefined]: every ratio
         that reads one of them is NaN; [A1] reads none. *)
      mkRatios (Num (1 / Math_pow (1 - phi) (lit 2.5))) NaN NaN NaN NaN
  end.

End Nanofluid.

(** A rational stand-in for [Math.pow] at the exponent 2.5, by three Newton
    steps for the square root: [x^2.5 = x * x * sqrt x]. *)
Definition newton_sqrt (x : Qc) : Qc :=
  let step y := (y + x / y) / 2 in step (step (step 1)).

Definition pow_newton (x y : Qc) : Qc := x * x * newton_sqrt x.

(** ** The genetic optimizer [TransientOptimizer] *)

(** An individual is an object with one property per search dimension. *)
Abbreviation Individual := (gmap string Qc).

(** [bounds] is an object of pairs [[min, max]]; [Object.entries] lists them
    in the order they were written. *)
Abbreviation Bounds := (list (string * (Qc * Qc))).

(** The optimizer as the data model of the design document has it: the
    population size and the number of generations are counts. *)
Record TransientOptimizer : Type := mkOptimizer {
  fn : Individual → Qc;
  bounds : Bounds;
  popSize : nat;
  gens : nat;
  mutRate : Qc
}.

(** The options of the constructor: each is a number, or absent ([None]). *)
Record Options : Type := mkOptions {
  populationSize : option Qc;
  generations : option Qc;
  mutationRate : option Qc
}.

(** [x || d] on a number: an absent or zero [x] gives [d]. *)
Definition or_num (x : option Qc) (d : Qc) : Qc :=
  match x with
  | Some q => if bool_decide (q = 0) then d else q
  | None => d
  end.

(** The object the constructor builds: the three fields hold the numbers
    that [||] leaves, whatever they are. *)
Record Constructed : Type := mkConstructed {
  this_fn : Individual → Qc;
  this_bounds : Bounds;
  this_popSize : Qc;
  this_gens : Qc;
  this_mutRate : Qc
}.

Definition new_TransientOptimizer (fn : Individual → Qc) (bounds : Bounds)
    (opts : Options) : Constructed :=
  mkConstructed fn bounds
    (or_num (populationSize opts) (lit 20))
    (or_num (generations opts) (lit 30))
    (or_num (mutationRate opts) (binary64 (lit 0.15))).

(** A number that is a count. *)
Definition as_count (x : Qc) : option nat :=
  let n := Z.to_nat (Math_floor x) in
  if bool_decide (x = of_nat n) then Some n else None.

(** The constructed object in the data model.  [Array(this.popSize)] takes
    a count below [2^32] and throws a [RangeError] on any other number.  The
    loop [for (let g = 0; g < this.gens; g++)] runs [gens] times when
    [gens] is a count, and not once when it is negative: the field is then
    never reported, and the object runs as one of zero generations.  Any
    other object is outside the data model: [None]. *)
Definition as_optimizer (c : Constructed) : option TransientOptimizer :=
  match as_count (this_popSize c) with
  | Some n =>
      if bool_decide (this_popSize c < lit 4294967296) then
        if bool_decide (this_gens c < 0) then
          Some (mkOptimizer (this_fn c) (this_bounds c) n 0 (this_mutRate c))
        else
          match as_count (this_gens c) with
          | Some g => Some (mkOptimizer (this_fn c) (this_bounds c) n g (this_mutRate c))
          | None => None
          end
      else None
  | None => None
  end.

(** [best] and [bestFit] start at [null] and [-Infinity]. *)
Inductive Fitness : Type :=
  | NegInfinity
  | Fit (q : Qc).

(** [x > bestFit] *)
Definition exceeds (x : Qc) (bestFit : Fitness) : bool :=
  match bestFit with
  | NegInfinity => true
  | Fit b => bool_decide (b < x)
  end.

(** The order of fitness values, [-Infinity] below every number. *)
Definition Fitness_le (a b : Fitness) : Prop :=
  match a, b with
  | NegInfinity, _ => True
  | Fit _, NegInfinity => False
  | Fit x, Fit y => x <= y
  end.

(** An evaluated individual [{ ind, fit }]. *)
Record Evaluated : Type := mkEvaluated { ind : Individual; fit : Qc }.

(** The argument of [onProgress]. *)
Record Progress : Type := mkProgress {
  generation : nat;
  totalGenerations : nat;
  bestFitness : Fitness;
  bestIndividual : option Individual
}.

(** The state of [optimize] between two generations, with the calls of
    [onProgress] made so far. *)
Record OptState : Type := mkOptState {
  pop : list Individual;
  best : option Individual;
  bestFit : Fitness;
  reported : list Progress
}.

(** Where a run stands: still going, with the position in the stream of
    random numbers, or stopped by a [TypeError]. *)
Inductive Run : Type :=
  | Running (st : OptState) (cursor : nat)
  | Thrown (st : OptState).

(** What [optimize] resolves to. *)
Inductive Outcome : Type :=
  | Returned (bestIndividual : option Individual) (bestFitness : Fitness)
  | TypeError.

(** Every dimension is declared once, with [min <= max]. *)
Definition well_formed_bounds (b : Bounds) : Prop :=
  NoDup (map fst b) ∧ ∀ k min max, (k, (min, max)) ∈ b → min <= max.

(** The individual has a value for every search dimension, inside the
    bounds declared for it. *)
Definition within_bounds (b : Bounds) (i : Individual) : Prop :=
  ∀ k min max, (k, (min, max)) ∈ b → ∃ v, i !! k = Some v ∧ min <= v ∧ v <= max.

(** The fitness [optimize] returns, if it returns. *)
Definition final_fitness (o : Outcome) : list Fitness :=
  match o with
  | Returned _ f => [f]
  | TypeError => []
  end.

Section Optimizer.

(** The successive results of [Math.random()]. *)
Variable random : nat → Qc.

(** [Math.random()] returns a number of the interval [0, 1). *)
Definition unit_interval : Prop := ∀ n, 0 <= random n ∧ random n < 1.

(** A computation that draws random numbers and may throw: from the
    position in the stream to a result and the next position, or to
    [None] when a [TypeError] is thrown. *)
Definition Rand (A : Type) : Type := nat → option (A * nat).

Definition ret {A : Type} (a : A) : Rand A := fun c => Some (a, c).

Definition bind {A B : Type} (m : Rand A) (f : A → Rand B) : Rand B :=
  fun c => match m c with
           | Some (a, c') => f a c'
           | None => None
           end.

Definition throw {A : Type} : Rand A := fun _ => None.

Definition Math_random : Rand Qc := fun c => Some (random c, S c).

Notation "'do' x <- m ; f" := (bind m (fun x => f))
  (at level 10, x name, m at level 100, f at level 200).

(** [for (const e of l) body] on a loop state. *)
Fixpoint for_of {A S : Type} (l : list A) (body : A → S → Rand S) (s : S) : Rand S :=
  match l with
  | [] => ret s
  | e :: rest => do s' <- body e s ; for_of rest body s'
  end.

(** [o[k]] on an individual; every individual of a population has all the
    search dimensions, so the default is never read. *)
Definition prop (o : Individual) (k : string) : Qc := default 0 (o !! k).

Variable this_ : TransientOptimizer.

(** The three operators on individuals; the genes are computed in
    binary64. *)
Definition createInd : Rand Individual :=
  for_of (bounds this_)
    (fun '(k, (min, max)) ind =>
       do r <- Math_random ;
       ret (<[k := min ⊕ r ⊗ (max ⊖ min)]> ind))
    ∅.

Definition crossover (p1 p2 : Individual) : Rand Individual :=
  for_of (map fst (bounds this_))
    (fun k child =>
       do a <- Math_random ;
       ret (<[k := a ⊗ prop p1 k ⊕ (1 ⊖ a) ⊗ prop p2 k]> child))
    ∅.

Definition mutate (ind : Individual) : Rand Individual :=
  for_of (bounds this_)
    (fun '(k, (min, max)) m =>
       do r <- Math_random ;
       if bool_decide (r < mutRate this_) then
         do r' <- Math_random ;
         ret (<[k := Math_max min
                       (Math_min max
                          (prop m k
                           ⊕ (r' ⊖ lit 0.5) ⊗ (max ⊖ min) ⊗ binary64 (lit 0.4)))]> m)
       else ret m)
    ind.

(** [ev[Math.floor(Math.random() * ev.length)]] *)
Definition draw (ev : list Evaluated) : Rand Evaluated :=
  do r <- Math_random ;
  match ev !! Z.to_nat (Math_floor (r * of_nat (length ev))) with
  | Some c => ret c
  | None => throw
  end.

(** The selection [sel]: a first candidate, then two challengers, each of
    which replaces the holder when strictly fitter. *)
Definition sel (ev : list Evaluated) : Rand Individual :=
  do b <- draw ev ;
  do b <- for_of (seq 0 2)
            (fun _ b => do c <- draw ev ;
                        ret (if bool_decide (fit b < fit c) then c else b))
            b ;
  ret (ind b).

(** The candidate met at position [c] of the stream of random numbers. *)
Definition drawn (ev : list Evaluated) (c : nat) : option Evaluated :=
  ev !! Z.to_nat (Math_floor (random c * of_nat (length ev))).


(** [sort((a, b) => b.fit - a.fit)]: the sort of the language is stable, and
    with this comparator it orders by decreasing fitness. *)
Definition compareFn (a b : Evaluated) : Qc := fit b - fit a.

Fixpoint sort_insert (a : Evaluated) (sorted : list Evaluated) : list Evaluated :=
  match sorted with
  | [] => [a]
  | b :: rest =>
      if bool_decide (0 < compareFn a b) then b :: sort_insert a rest
      else a :: b :: rest
  end.

Definition sort (l : list Evaluated) : list Evaluated := foldr sort_insert [] l.

Definition evaluate (pop : list Individual) : list Evaluated :=
  sort (map (fun i => mkEvaluated i (fn this_ i)) pop).

(** [while (newPop.length < this.popSize) newPop.push(...)], with the
    number of iterations it still has to make. *)
Fixpoint fill (todo : nat) (ev : list Evaluated) (newPop : list Individual)
    : Rand (list Individual) :=
  match todo with
  | O => ret newPop
  | S todo' =>
      do p1 <- sel ev ;
      do p2 <- sel ev ;
      do child <- crossover p1 p2 ;
      do m <- mutate child ;
      fill todo' ev (newPop ++ [m])
  end.

(** [Array(this.popSize).fill(null).map(() => this.createInd())] *)
Fixpoint initial_population (n : nat) : Rand (list Individual) :=
  match n with
  | O => ret []
  | S n' => do i <- createInd ; do rest <- initial_population n' ; ret (i :: rest)
  end.

(** The body of the loop over the generations, for generation [g]: evaluate
    and sort, update the best, report it (the call of [onProgress] is
    recorded whether or not a callback was given), seed the next population
    with the two fittest and fill it.  A read of [ev[0]] or [ev[1]] past the
    end of the array throws.  The pause that ends the body has no effect on
    the values. *)
Definition generation_body (g : nat) (st : OptState) (cursor : nat) : Run :=
  let ev := evaluate (pop st) in
  match ev !! 0%nat with
  | None => Thrown st
  | Some ev0 =>
      let '(bestFit', best') :=
        if exceeds (fit ev0) (bestFit st) then (Fit (fit ev0), Some (ind ev0))
        else (bestFit st, best st) in
      let reported' :=
        reported st ++ [mkProgress g (gens this_) bestFit' best'] in
      match ev !! 1%nat with
      | None => Thrown (mkOptState (pop st) best' bestFit' reported')
      | Some ev1 =>
          match fill (popSize this_ - 2) ev [ind ev0; ind ev1] cursor with
          | None => Thrown (mkOptState (pop st) best' bestFit' reported')
          | Some (newPop, cursor') =>
              Running (mkOptState newPop best' bestFit' reported') cursor'
          end
      end
  end.

(** The run after the first [g] generations, from position [cursor] of the
    stream of random numbers. *)
Fixpoint after_generations (g : nat) (cursor : nat) : Run :=
  match g with
  | O =>
      match initial_population (popSize this_) cursor with
      | Some (pop0, cursor') =>
          Running (mkOptState pop0 None NegInfinity []) cursor'
      | None => Thrown (mkOptState [] None NegInfinity [])
      end
  | S g' =>
      match after_generations g' cursor with
      | Running st cursor' => generation_body g' st cursor'
      | Thrown st => Thrown st
      end
  end.

Definition run_state (r : Run) : OptState :=
  match r with
  | Running st _ => st
  | Thrown st => st
  end.

(** [optimize]: what it resolves to, and the calls of [onProgress] it made. *)
Definition optimize (cursor : nat) : Outcome * list Progress :=
  match after_generations (gens this_) cursor with
  | Running st _ => (Returned (best st) (bestFit st), reported st)
  | Thrown st => (TypeError, reported st)
  end.

End Optimizer.

(** The values reported so far never decrease, and none exceeds the best
    fitness kept in the state. *)
Definition reports_ordered (st : OptState) : Prop :=
  StronglySorted Fitness_le (map bestFitness (reported st))
  ∧ Forall (fun f => Fitness_le f (bestFit st)) (map bestFitness (reported st)).

(** *** Inputs on which the optimizer is run below *)



(** A run on which the definitions are evaluated: two search dimensions, a
    population of four, three generations. *)
Definition two_dimensions : Bounds :=
  [("Ha", (0, lit 8)); ("Re", (lit 0.5, lit 4))]%string.

Definition small_run : TransientOptimizer :=
  mkOptimizer (fun i => prop i "Ha" - prop i "Re") two_dimensions 4 3
    (binary64 (lit 0.15)).

(** Random numbers 0.3, 0, 0.7, 0.4, 0.1, ... *)
Definition cycle_of_ten (n : nat) : Qc := of_nat ((n * 7 + 3) mod 10) ⊘ lit 10.

(** A run in which a child leaves the search space: one dimension between
    0.9 and 5, a population of three, one generation.  The first three
    random numbers are 0, so that the three individuals created sit on the
    lower bound; every later one is 0.4375. *)
Definition escaping_run : TransientOptimizer :=
  mkOptimizer (fun i => prop i "Bi") [("Bi"%string, (binary64 (lit 0.9), lit 5))]%list 3 1
    (binary64 (lit 0.15)).

Definition zeros_then_0_4375 (n : nat) : Qc :=
  if (n <? 3)%nat then 0 else lit 0.4375.


(** ** The rest of [solveUnsteadyMHDCouette]: heat flux, entropy, response metrics *)

(** A number that a division by zero or a call without argument can make
    infinite or undefined. *)
Inductive JSNumber : Type :=
  | Finite (q : Qc)
  | PlusInfinity
  | MinusInfinity
  | NotANumber.

(** [x / y] for two finite numbers, [y] being [+0] when it is zero. *)
Definition js_div (x y : Qc) : JSNumber :=
  if bool_decide (y = 0) then
    if bool_decide (0 < x) then PlusInfinity
    else if bool_decide (x < 0) then MinusInfinity
    else NotANumber
  else Finite (x / y).

(** [x * c] for a positive constant [c]. *)
Definition js_scale (x : JSNumber) (c : Qc) : JSNumber :=
  match x with
  | Finite q => Finite (q * c)
  | other => other
  end.

(** [Math.max(0, x)] *)
Definition js_max0 (x : JSNumber) : JSNumber :=
  match x with
  | Finite q => Finite (Math_max 0 q)
  | PlusInfinity => PlusInfinity
  | MinusInfinity => Finite 0
  | NotANumber => NotANumber
  end.

(** [x > c] *)
Definition js_gt (x : JSNumber) (c : Qc) : bool :=
  match x with
  | Finite q => bool_decide (c < q)
  | PlusInfinity => true
  | MinusInfinity | NotANumber => false
  end.

(** [Math.max(...l)] and [Math.min(...l)] *)
Definition Math_max_spread (l : list Qc) : JSNumber :=
  match l with
  | [] => MinusInfinity
  | x :: rest => Finite (fold_left Math_max rest x)
  end.

Definition Math_min_spread (l : list Qc) : JSNumber :=
  match l with
  | [] => PlusInfinity
  | x :: rest => Finite (fold_left Math_min rest x)
  end.

(** [x || d] on a finite number. *)
Definition or_else (x d : Qc) : Qc := if bool_decide (x = 0) then d else x.

Inductive Damping : Type :=
  | Overdamped
  | Underdamped
  | CriticallyDamped.

Section Diagnostics.

Variable p : Params.
Variables tauFinal dtau : Qc.
Variable saveFreq : nat.

(** The temperature derivative and the two Nusselt histories, which the
    time loop keeps beside the fields and histories above. *)
Record Fluxes : Type := mkFluxes {
  Thetap : list Qc;
  NuLowerHistory : list Qc;
  NuUpperHistory : list Qc
}.

Definition fluxes0 : Fluxes :=
  let Thetap0 := deriv p (Theta_init p) (replicate (N p + 1) 0) in
  mkFluxes Thetap0 [- A3 p * Thetap0.[0]] [- A3 p * Thetap0.[N p]].

(** [n % saveFreq === 0 || n === Nt] *)
Definition saved (n : nat) : bool :=
  ((n mod saveFreq =? 0)%nat || (n =? Nt tauFinal dtau)%nat)%bool.

(** The body of the time loop with the heat flux: on a saved step the
    temperature derivative is recomputed from the new temperature and the two
    Nusselt numbers are pushed. *)
Definition time_loop_body_full (n : nat) (st : (Fields * History) * Fluxes)
    : (Fields * History) * Fluxes :=
  let '(core, fl) := st in
  let core' := time_loop_body p tauFinal dtau saveFreq n core in
  if saved n then
    let Thetap' := deriv p (Theta (fst core')) (Thetap fl) in
    (core', mkFluxes Thetap'
              (NuLowerHistory fl ++ [- A3 p * Thetap'.[0]])
              (NuUpperHistory fl ++ [- A3 p * Thetap'.[N p]]))
  else (core', fl).

Definition after_steps_full (n : nat) : (Fields * History) * Fluxes :=
  for_range 1 (n + 1) time_loop_body_full ((fields0 p, history0 p), fluxes0).

(** The entropy generation of the last sample, node by node. *)
Record Entropy : Type := mkEntropy {
  Ns : list Qc;
  Be : list Qc;
  Ns_heat : list Qc;
  Ns_fluid : list Qc;
  Ns_magnetic : list Qc
}.

(** The entropy loop works in binary64.  The derivative at node [i] as it
    takes it, [h] being the rounded quotient [1.0 / N]: *)
Definition node_derivative (F : list Qc) (i : nat) : Qc :=
  let h64 := binary64 (h p) in
  if (i =? 0)%nat then (F.[1] ⊖ F.[0]) ⊘ h64
  else if (i =? N p)%nat then (F.[N p] ⊖ F.[N p - 1]) ⊘ h64
  else (F.[i + 1] ⊖ F.[i - 1]) ⊘ (2 ⊗ h64).

Definition entropy_profile (W_final Theta_final : list Qc) : Entropy :=
  for_range 0 (N p + 1)
    (fun i e =>
       let wp := node_derivative W_final i in
       let tp := node_derivative Theta_final i in
       let theta_safe := Math_max Theta_final.[i] (binary64 (lit 0.01)) in
       let ns_h := A3 p ⊗ (tp ⊗ tp) ⊘ (theta_safe ⊗ theta_safe) in
       let ns_f := A1 p ⊗ Ec p ⊗ Pr p ⊗ (wp ⊗ wp) ⊘ theta_safe in
       let ns_m := A2 p ⊗ Ec p ⊗ Pr p ⊗ Ha p ⊗ Ha p ⊗ (W_final.[i] ⊗ W_final.[i])
                   ⊘ theta_safe in
       mkEntropy (Ns e ++ [ns_h ⊕ ns_f ⊕ ns_m])
                 (Be e ++ [ns_h ⊘ (ns_h ⊕ ns_f ⊕ ns_m ⊕ binary64 (lit 1e-12))])
                 (Ns_heat e ++ [ns_h])
                 (Ns_fluid e ++ [ns_f])
                 (Ns_magnetic e ++ [ns_m]))
    (mkEntropy [] [] [] [] []).

(** [l.reduce((a, b) => a + b, 0) / l.length] *)
Definition average (l : list Qc) : Qc :=
  fold_left Qcplus l 0 / of_nat (length l).

(** The overshoot in percent of the largest magnitude over the final one. *)
Definition overshoot_of (CfHist : list Qc) : JSNumber :=
  match Math_max_spread (map Math_abs CfHist) with
  | Finite CfMax =>
      let absFinal := Math_abs CfHist.[length CfHist - 1] in
      js_max0 (js_scale (js_div (CfMax - absFinal) absFinal) (lit 100))
  | _ => NotANumber
  end.

(** [forEach((cf, i) => { if (Math.abs(cf) === CfMax) peakTime = tauHistory[i]; })] *)
Definition peakTime_of (tauHist CfHist : list Qc) : Qc :=
  match Math_max_spread (map Math_abs CfHist) with
  | Finite CfMax =>
      for_range 0 (length CfHist)
        (fun i peakTime =>
           if bool_decide (Math_abs CfHist.[i] = CfMax) then tauHist.[i] else peakTime)
        0
  | _ => 0
  end.

(** [Math.abs(c - CfFinal) / Math.abs(CfFinal) > 0.02] *)
Definition out_of_band (c CfFinal : Qc) : bool :=
  js_gt (js_div (Math_abs (c - CfFinal)) (Math_abs CfFinal)) (lit 0.02).

(** The backward search for the last sample outside the 2% band. *)
Fixpoint settling_loop (tauHist CfHist : list Qc) (CfFinal : Qc)
    (indices : list nat) (settlingTime : Qc) : Qc :=
  match indices with
  | [] => settlingTime
  | i :: rest =>
      if out_of_band CfHist.[i] CfFinal
      then tauHist.[Nat.min (i + 1) (length CfHist - 1)]
      else settling_loop tauHist CfHist CfFinal rest settlingTime
  end.

Definition settlingTime_of (tauHist CfHist : list Qc) : Qc :=
  settling_loop tauHist CfHist CfHist.[length CfHist - 1]
    (rev (seq 0 (length CfHist))) tauFinal.

Definition dampingType_of (overshoot : JSNumber) : Damping :=
  if js_gt overshoot (lit 5) then Underdamped
  else if js_gt overshoot (lit 0.5) then CriticallyDamped
  else Overdamped.

(** The record [metrics] of the solution. *)
Record Metrics : Type := mkMetrics {
  m_CfFinal : Qc;
  m_NuFinal : Qc;
  m_tau95 : Qc;
  m_tau63 : Qc;
  m_overshoot : JSNumber;
  m_settlingTime : Qc;
  m_peakTime : Qc;
  m_maxW : JSNumber;
  m_maxTheta : JSNumber;
  m_minTheta : JSNumber;
  m_dampingType : Damping;
  m_avgNs : Qc;
  m_avgBe : Qc
}.

Definition solution_metrics : Metrics :=
  let full := after_steps_full (Nt tauFinal dtau) in
  let hist := snd (fst full) in
  let fl := snd full in
  let W_final := nth (length (WHistory hist) - 1) (WHistory hist) [] in
  let Theta_final := nth (length (ThetaHistory hist) - 1) (ThetaHistory hist) [] in
  let en := entropy_profile W_final Theta_final in
  let rt := rise_times tauFinal (tauHistory hist) (CfLowerHistory hist) in
  let overshoot := overshoot_of (CfLowerHistory hist) in
  mkMetrics
    (CfLowerHistory hist).[length (CfLowerHistory hist) - 1]
    (NuLowerHistory fl).[length (NuLowerHistory fl) - 1]
    (snd rt) (fst rt)
    overshoot
    (settlingTime_of (tauHistory hist) (CfLowerHistory hist))
    (peakTime_of (tauHistory hist) (CfLowerHistory hist))
    (Math_max_spread W_final)
    (Math_max_spread Theta_final)
    (Math_min_spread Theta_final)
    (dampingType_of overshoot)
    (average (Ns en)) (average (Be en)).

End Diagnostics.

(** [solveQuick]: the metrics of a solve to [tauFinal = 2.0] with
    [dtau = 0.04], saved every 10 steps. *)
Definition solveQuick (params : Params) : Metrics :=
  solution_metrics params 2 (lit 0.04) 10.

(** ** The surrogate [TransientNeuralNetwork] *)

Record Prediction : Type := mkPrediction {
  pr_tau95 : Qc;
  pr_overshoot : Qc;
  pr_Cf_final : Qc;
  pr_Nu_final : Qc;
  pr_settlingTime : Qc;
  pr_dampingType : Damping;
  pr_confidence : Qc
}.

(** [predict(inputs)], with the number [r] that [Math.random()] returns. *)
Definition predict (inputs : Params) (r : Qc) : Prediction :=
  let md := 1 / (1 + lit 0.3 * Ha inputs * Ha inputs) in
  let tau95 := lit 0.5 * A4 inputs / A1 inputs * md * (1 + lit 0.1 * lambda inputs) in
  let overshoot := Math_max 0 (lit 15 * md - Ha inputs * 2) in
  let Cf := A1 inputs * Re inputs / (1 + lambda inputs) * md in
  let Nu := A3 inputs * Bi inputs / (1 + Bi inputs)
            * (1 + lit 0.1 * Pr inputs * Ec inputs) in
  let dt := if bool_decide (Ha inputs < 1) then Underdamped
            else if bool_decide (Ha inputs < lit 3) then CriticallyDamped
            else Overdamped in
  mkPrediction tau95 overshoot Cf Nu (tau95 * lit 1.5) dt (lit 0.78 + r * lit 0.15).

(** The six parameters that [sensitivity] perturbs. *)
Inductive ParamName : Type :=
  | name_Ha | name_Re | name_Pr | name_Ec | name_Bi | name_lambda.

Definition get_param (params : Params) (name : ParamName) : Qc :=
  match name with
  | name_Ha => Ha params
  | name_Re => Re params
  | name_Pr => Pr params
  | name_Ec => Ec params
  | name_Bi => Bi params
  | name_lambda => lambda params
  end.

(** [{ ...params, [name]: v }] *)
Definition set_param (params : Params) (name : ParamName) (v : Qc) : Params :=
  let '(mkParams a1 a2 a3 a4 a5 re ha pr ec bi la g n) := params in
  match name with
  | name_Ha => mkParams a1 a2 a3 a4 a5 re v pr ec bi la g n
  | name_Re => mkParams a1 a2 a3 a4 a5 v ha pr ec bi la g n
  | name_Pr => mkParams a1 a2 a3 a4 a5 re ha v ec bi la g n
  | name_Ec => mkParams a1 a2 a3 a4 a5 re ha pr v bi la g n
  | name_Bi => mkParams a1 a2 a3 a4 a5 re ha pr ec v la g n
  | name_lambda => mkParams a1 a2 a3 a4 a5 re ha pr ec bi v g n
  end.

Record Sensitivity : Type := mkSensitivity {
  s_tau95 : Qc;
  s_Cf : Qc;
  s_Nu : Qc
}.

(** [sensitivity(baseParams)]: one quick solve for the base, one for each
    parameter raised by 10%. *)
Definition sensitivity (baseParams : Params) : list (ParamName * Sensitivity) :=
  let perturbation := lit 0.1 in
  let baseMetrics := solveQuick baseParams in
  map (fun param =>
         let testParams :=
           set_param baseParams param
             (get_param baseParams param * (1 + perturbation)) in
         let testMetrics := solveQuick testParams in
         (param,
          mkSensitivity
            ((m_tau95 testMetrics - m_tau95 baseMetrics)
             / or_else (m_tau95 baseMetrics) (lit 0.001) / perturbation)
            ((m_CfFinal testMetrics - m_CfFinal baseMetrics)
             / or_else (m_CfFinal baseMetrics) (lit 0.001) / perturbation)
            ((m_NuFinal testMetrics - m_NuFinal baseMetrics)
             / or_else (m_NuFinal baseMetrics) (lit 0.001) / perturbation)))
      [name_Ha; name_Re; name_Pr; name_Ec; name_Bi; name_lambda].

(** ** The validator [validateParameters] *)

Record Warning : Type := mkWarning {
  condition : Qc → bool;
  message : string
}.

(** An entry of [PARAMETER_VALIDITY]: the fields the validator reads. *)
Record Validity : Type := mkValidity {
  v_name : string;
  v_min : Qc;
  v_max : Qc;
  v_warnings : list Warning
}.

Definition PARAMETER_VALIDITY : list (string * Validity) :=
  [ ("Ha", mkValidity "Hartmann Number" 0 (lit 10)
       [ mkWarning (fun val => bool_decide (val < lit 0.5))
           "Very low magnetic field - flow may oscillate";
         mkWarning (fun val => bool_decide (lit 8 < val))
           "Very high magnetic damping - flow may be suppressed" ]);
    ("Re", mkValidity "Reynolds Number" (lit 0.1) (lit 5)
       [ mkWarning (fun val => bool_decide (val < lit 0.2))
           "Very low velocity - flow development may be slow";
         mkWarning (fun val => bool_decide (lit 4 < val))
           "High inertia - ensure numerical stability" ]);
    ("Pr", mkValidity "Prandtl Number" (lit 0.7) (lit 20)
       [ mkWarning (fun val => bool_decide (val < 1))
           "Low Pr - thermal boundary layer thicker than momentum layer";
         mkWarning (fun val => bool_decide (lit 15 < val))
           "High Pr - very thin thermal boundary layer" ]);
    ("Ec", mkValidity "Eckert Number" 0 1
       [ mkWarning (fun val => bool_decide (lit 0.5 < val))
           "High viscous dissipation - temperature may exceed bounds" ]);
    ("Bi", mkValidity "Biot Number" (lit 0.1) (lit 10)
       [ mkWarning (fun val => bool_decide (val < lit 0.2))
           "Weak cooling - temperature may rise significantly";
         mkWarning (fun val => bool_decide (lit 8 < val))
           "Very strong cooling - approaches isothermal condition" ]);
    ("lambda", mkValidity "Slip Parameter" 0 1
       [ mkWarning (fun val => bool_decide (lit 0.5 < val))
           "High slip - may affect stability" ]);
    ("G", mkValidity "Pressure Gradient" 0 (lit 2)
       [ mkWarning (fun val => bool_decide (lit 1.5 < val))
           "Strong pressure gradient - may dominate flow" ]) ]%string.

(** What [PARAMETER_VALIDITY[key]] evaluates to: an entry of the table, a
    member inherited from [Object.prototype] (truthy, without [min], [max]
    or [warnings]), or [undefined]. *)
Inductive ValidityProperty : Type :=
  | OwnValidity (spec : Validity)
  | InheritedMember
  | NoValidity.

Fixpoint own_validity (table : list (string * Validity)) (key : string) : option Validity :=
  match table with
  | [] => None
  | (name, spec) :: rest =>
      if bool_decide (name = key) then Some spec else own_validity rest key
  end.

Definition PARAMETER_VALIDITY_get (key : string) : ValidityProperty :=
  match own_validity PARAMETER_VALIDITY key with
  | Some spec => OwnValidity spec
  | None =>
      if bool_decide (key ∈ Object_prototype_names) then InheritedMember else NoValidity
  end.

(** An error message, by its template and the values it interpolates. *)
Inductive Problem : Type :=
  | BelowMinimum (name key : string) (value min : Qc)
  | AboveMaximum (name key : string) (value max : Qc).

Record Validation : Type := mkValidation {
  warnings : list string;
  errors : list Problem;
  isValid : bool
}.

(** The body of the loop over [Object.entries(params)]; [None] is the
    [TypeError] of [spec.warnings.forEach] on an inherited member. *)
Definition check_entry (entry : string * Qc) (acc : list string * list Problem)
    : option (list string * list Problem) :=
  let '(key, value) := entry in
  let '(warnings, errors) := acc in
  match PARAMETER_VALIDITY_get key with
  | NoValidity => Some (warnings, errors)
  | InheritedMember => None
  | OwnValidity spec =>
      let errors :=
        if bool_decide (value < v_min spec)
        then errors ++ [BelowMinimum (v_name spec) key value (v_min spec)]
        else errors in
      let errors :=
        if bool_decide (v_max spec < value)
        then errors ++ [AboveMaximum (v_name spec) key value (v_max spec)]
        else errors in
      let warnings :=
        fold_left
          (fun warnings w =>
             if condition w value
             then warnings ++ [(v_name spec +:+ ": " +:+ message w)%string]
             else warnings)
          (v_warnings spec) warnings in
      Some (warnings, errors)
  end.

(** [params.key] on the entries of the record. *)
Fixpoint field (params : list (string * Qc)) (key : string) : option Qc :=
  match params with
  | [] => None
  | (name, value) :: rest =>
      if bool_decide (name = key) then Some value else field rest key
  end.

(** [params.key > c] and [params.key < c]; false on [undefined]. *)
Definition field_gt (params : list (string * Qc)) (key : string) (c : Qc) : bool :=
  match field params key with
  | Some value => bool_decide (c < value)
  | None => false
  end.

Definition field_lt (params : list (string * Qc)) (key : string) (c : Qc) : bool :=
  match field params key with
  | Some value => bool_decide (value < c)
  | None => false
  end.

(** One step of the loop over the entries, on the result so far: once the
    body has thrown, nothing more is done. *)
Definition check_step (acc : option (list string * list Problem)) (entry : string * Qc)
    : option (list string * list Problem) :=
  match acc with
  | Some acc => check_entry entry acc
  | None => None
  end.

Definition check_entries (params : list (string * Qc))
    : option (list string * list Problem) :=
  fold_left check_step params (Some ([], [])).

Definition validateParameters (params : list (string * Qc)) : option Validation :=
  match check_entries params with
  | None => None
  | Some (warnings, errors) =>
      let warnings :=
        if (field_gt params "Ec"%string (lit 0.3) && field_lt params "Bi"%string (lit 0.5))%bool
        then warnings ++ ["High Eckert number (Ec) with low Biot number (Bi) may cause excessive heating"%string]
        else warnings in
      let warnings :=
        if (field_lt params "Ha"%string 1 && field_gt params "Re"%string (lit 3))%bool
        then warnings ++ ["Low magnetic damping (Ha) with high Reynolds number (Re) may cause oscillations"%string]
        else warnings in
      let warnings :=
        if (field_gt params "lambda"%string (lit 0.3) && field_gt params "Ha"%string (lit 5))%bool
        then warnings ++ ["High slip with strong magnetic field may lead to unexpected flow patterns"%string]
        else warnings in
      Some (mkValidation warnings errors (length errors =? 0)%nat)
  end.

(** The entries of a parameter record as the presets write it. *)
Definition entries_of (p : Params) : list (string * Qc) :=
  [ ("A1", A1 p); ("A2", A2 p); ("A3", A3 p); ("A4", A4 p); ("A5", A5 p);
    ("Re", Re p); ("Ha", Ha p); ("Pr", Pr p); ("Ec", Ec p); ("Bi", Bi p);
    ("lambda", lambda p); ("G", G p) ]%string.

(** ** Invariants and inputs of the further properties *)

(** The sizes of the fields and of the trajectory after [n] steps. *)
Definition sizes_invariant (p : Params) (st : Fields * History) : Prop :=
  well_sized p (fst st)
  ∧ Forall (fun Wt => length Wt = (N p + 1)%nat) (WHistory (snd st))
  ∧ Forall (fun Thetat => length Thetat = (N p + 1)%nat) (ThetaHistory (snd st))
  ∧ length (WHistory (snd st)) = length (tauHistory (snd st))
  ∧ length (ThetaHistory (snd st)) = length (tauHistory (snd st))
  ∧ length (CfLowerHistory (snd st)) = length (tauHistory (snd st))
  ∧ length (CfUpperHistory (snd st)) = length (tauHistory (snd st)).

(** What the loop keeps true of the recorded wall fluxes. *)
Definition flux_invariant (p : Params) (st : (Fields * History) * Fluxes) : Prop :=
  let hist := snd (fst st) in
  let fl := snd st in
  length (Thetap fl) = (N p + 1)%nat
  ∧ Forall2 (fun Wt cf => cf = A1 p * ((Wt.[1] - Wt.[0]) / h p))
      (WHistory hist) (CfLowerHistory hist)
  ∧ Forall2 (fun Wt cf => cf = A1 p * ((Wt.[N p] - Wt.[N p - 1]) / h p))
      (WHistory hist) (CfUpperHistory hist)
  ∧ Forall2 (fun Thetat nu => nu = - A3 p * ((Thetat.[1] - Thetat.[0]) / h p))
      (ThetaHistory hist) (NuLowerHistory fl)
  ∧ Forall2 (fun Thetat nu => nu = - A3 p * ((Thetat.[N p] - Thetat.[N p - 1]) / h p))
      (ThetaHistory hist) (NuUpperHistory fl).

Definition at_rest (n : nat) : Params :=
  mkParams (lit 1.2) (lit 1.5) (lit 1.3) (lit 1.1) (lit 1.15)
           0 2 (lit 6.2) (lit 0.1) (lit 0.5) (lit 0.1) 0 (Some n).

(** What the entropy loop has pushed for node [i]: three contributions
    that are not negative, the first a binary64 number, their sum and the
    share of the first in the sum increased by [1e-12]. *)
Definition entropy_node (e : Entropy) (i : nat) : Prop :=
  0 <= (Ns_heat e).[i] ∧ 0 <= (Ns_fluid e).[i] ∧ 0 <= (Ns_magnetic e).[i]
  ∧ binary64 (Ns_heat e).[i] = (Ns_heat e).[i]
  ∧ (Ns e).[i] = (Ns_heat e).[i] ⊕ (Ns_fluid e).[i] ⊕ (Ns_magnetic e).[i]
  ∧ (Be e).[i] = (Ns_heat e).[i] ⊘ ((Ns e).[i] ⊕ binary64 (lit 1e-12)).

Definition entropy_sized (e : Entropy) (n : nat) : Prop :=
  length (Ns e) = n ∧ length (Be e) = n ∧ length (Ns_heat e) = n
  ∧ length (Ns_fluid e) = n ∧ length (Ns_magnetic e) = n.

(** The value of an entry lies between the bounds of the table, when the
    table has an entry for its key. *)
Definition within_validity (entry : string * Qc) : Prop :=
  ∀ spec, own_validity PARAMETER_VALIDITY (fst entry) = Some spec →
          v_min spec <= snd entry ∧ snd entry <= v_max spec.

(** An order of evaluated individuals by decreasing fitness. *)
Definition fitter_first (a b : Evaluated) : Prop := fit b <= fit a.


(** What holds of a run on a population of at least two after [g]
    generations. *)
Definition run_invariant (o : TransientOptimizer) (g : nat) (st : OptState) : Prop :=
  length (pop st) = popSize o
  ∧ map generation (reported st) = seq 0 g
  ∧ Forall (fun report => totalGenerations report = gens o) (reported st)
  ∧ (g = 0%nat → best st = None ∧ bestFit st = NegInfinity)
  ∧ ((1 <= g)%nat →
     ∃ b, best st = Some b ∧ bestFit st = Fit (fn o b)
          ∧ list.last (reported st) = Some (mkProgress (g - 1) (gens o) (bestFit st) (best st))).

(** The search space and the options of [runOptimizer]; the fitness
    function depends on the goal chosen. *)
Definition runOptimizer_bounds : Bounds :=
  [ ("Ha", (0, lit 8)); ("Re", (lit 0.5, lit 4));
    ("Bi", (lit 0.1, lit 5)); ("lambda", (0, lit 0.5)) ]%string.

(** [new TransientOptimizer(fn, bounds, { populationSize: 20, generations: 30 })] *)
Definition runOptimizer_constructed (fn : Individual → Qc) : Constructed :=
  new_TransientOptimizer fn runOptimizer_bounds
    (mkOptions (Some (lit 20)) (Some (lit 30)) None).

(** The same object in the data model. *)
Definition runOptimizer (fn : Individual → Qc) : TransientOptimizer :=
  mkOptimizer fn runOptimizer_bounds 20 30 (binary64 (lit 0.15)).

(** The individual has a value for each search dimension, and for nothing
    else. *)
Definition has_dimensions (b : Bounds) (i : Individual) : Prop :=
  ∀ k, is_Some (i !! k) ↔ k ∈ map fst b.


(** * Properties *)

(** ** Rounding to binary64 *)

Section Rounding.

Import Binary64.
Local Open Scope Q_scope.

Lemma round_half_even_Z (n : Z) : round_half_even (inject_Z n) = n.
Proof.
  unfold round_half_even. rewrite Qfloor_Z.
  destruct (Qcompare_spec (inject_Z n - inject_Z n) (1 # 2)) as [H|H|H]; [lra|reflexivity|lra].
Qed.

Lemma round_half_even_floor (x : Q) :
  (Qfloor x <= round_half_even x <= Qfloor x + 1)%Z.
Proof.
  unfold round_half_even.
  destruct (Qcompare (x - inject_Z (Qfloor x)) (1 # 2)); [destruct (Z.even (Qfloor x))|..]; lia.
Qed.

Lemma round_half_even_le (x y : Q) :
  x <= y -> (round_half_even x <= round_half_even y)%Z.
Proof.
  intros Hle. pose proof (Qfloor_resp_le x y Hle) as Hf.
  destruct (Z.eq_dec (Qfloor x) (Qfloor y)) as [Heq|Hne].
  - unfold round_half_even. rewrite <- Heq.
    destruct (Qcompare_spec (x - inject_Z (Qfloor x)) (1 # 2)) as [Hx|Hx|Hx];
      destruct (Qcompare_spec (y - inject_Z (Qfloor x)) (1 # 2)) as [Hy|Hy|Hy];
      try destruct (Z.even (Qfloor x)); try lia; lra.
  - pose proof (round_half_even_floor x). pose proof (round_half_even_floor y). lia.
Qed.

(** *** Powers of two *)

Lemma pow2_pos (e : Z) : 0 < 2 ^ e.
Proof. apply Qpower_0_lt. reflexivity. Qed.

Lemma pow2_succ (e : Z) : 2 ^ (e + 1) == 2 * 2 ^ e.
Proof. rewrite Qpower_plus by discriminate. rewrite Qpower_1_r. ring. Qed.

Lemma pow2_le (a b : Z) : (a <= b)%Z -> 2 ^ a <= 2 ^ b.
Proof. intros H. apply Qpower_le_compat_l; [exact H|discriminate]. Qed.

Lemma pow2_lt_inv (a b : Z) : 2 ^ a < 2 ^ b -> (a < b)%Z.
Proof. intros H. apply (Qpower_lt_compat_l_inv 2); [exact H|reflexivity]. Qed.

Lemma pow2_Z (a : Z) : (0 <= a)%Z -> inject_Z (2 ^ a) == 2 ^ a.
Proof. intros H. apply (Zpower_Qpower 2 a H). Qed.

(** [2^a] is [2^(a-b)] steps of [2^b]. *)
Lemma pow2_steps (a b : Z) : (b <= a)%Z -> 2 ^ a == inject_Z (2 ^ (a - b)) * 2 ^ b.
Proof.
  intros H. rewrite pow2_Z by lia. rewrite <- Qpower_plus by discriminate.
  replace (a - b + b)%Z with a by lia. reflexivity.
Qed.

Lemma div_le (p q r s : Q) : 0 < q -> 0 < s -> p * s <= r * q -> p / q <= r / s.
Proof.
  intros Hq Hs H. apply Qle_shift_div_r; [exact Hq|].
  setoid_replace (r / s * q) with (r * q / s) using relation Qeq by (field; lra).
  apply Qle_shift_div_l; assumption.
Qed.

Lemma div_lt (p q r s : Q) : 0 < q -> 0 < s -> p * s < r * q -> p / q < r / s.
Proof.
  intros Hq Hs H. apply Qlt_shift_div_r; [exact Hq|].
  setoid_replace (r / s * q) with (r * q / s) using relation Qeq by (field; lra).
  apply Qlt_shift_div_l; assumption.
Qed.

(** *** The exponent *)

Lemma exponent_spec (x : Q) :
  0 < x -> 2 ^ exponent x <= x /\ x < 2 ^ (exponent x + 1).
Proof.
  intros Hx. destruct x as [n d]. unfold exponent. cbn [Qnum Qden].
  assert (Hn : (0 < n)%Z).
  { unfold Qlt in Hx. cbn in Hx. lia. }
  set (a := Z.log2 n). set (b := Z.log2 (Z.pos d)).
  pose proof (Z.log2_spec n Hn) as [Ha1 Ha2]. fold a in Ha1, Ha2.
  pose proof (Z.log2_spec (Z.pos d) eq_refl) as [Hb1 Hb2]. fold b in Hb1, Hb2.
  pose proof (Z.log2_nonneg n) as Ha0. fold a in Ha0.
  pose proof (Z.log2_nonneg (Z.pos d)) as Hb0. fold b in Hb0.
  assert (Hnd : n # d == inject_Z n / inject_Z (Z.pos d)) by apply Qmake_Qdiv.
  assert (Hd : 0 < inject_Z (Z.pos d)) by reflexivity.
  assert (Hlow : 2 ^ (a - b - 1) <= n # d).
  { rewrite Hnd. replace (a - b - 1)%Z with (a - (b + 1))%Z by lia.
    rewrite Qpower_minus by discriminate. rewrite <- !pow2_Z by lia.
    apply div_le; [rewrite pow2_Z by lia; apply pow2_pos|exact Hd|].
    rewrite <- !inject_Z_mult, <- Zle_Qle. nia. }
  assert (Hhigh : n # d < 2 ^ (a - b + 1)).
  { rewrite Hnd. replace (a - b + 1)%Z with (a + 1 - b)%Z by lia.
    rewrite Qpower_minus by discriminate. rewrite <- !pow2_Z by lia.
    apply div_lt; [exact Hd|rewrite pow2_Z by lia; apply pow2_pos|].
    rewrite <- !inject_Z_mult, <- Zlt_Qlt. nia. }
  destruct (Qle_bool (2 ^ (a - b)) (n # d)) eqn:Hb.
  - apply Qle_bool_iff in Hb. split; assumption.
  - assert (Hlt : n # d < 2 ^ (a - b)).
    { apply Qnot_le_lt. intros H. apply Qle_bool_iff in H. congruence. }
    split; [exact Hlow|]. replace (a - b - 1 + 1)%Z with (a - b)%Z by lia. exact Hlt.
Qed.

Lemma exponent_unique (x : Q) (e : Z) :
  2 ^ e <= x -> x < 2 ^ (e + 1) -> exponent x = e.
Proof.
  intros H1 H2.
  assert (Hx : 0 < x) by (apply Qlt_le_trans with (2 ^ e); [apply pow2_pos|exact H1]).
  destruct (exponent_spec x Hx) as [H3 H4].
  assert (e < exponent x + 1)%Z by (apply pow2_lt_inv; lra).
  assert (exponent x < e + 1)%Z by (apply pow2_lt_inv; lra).
  lia.
Qed.

Lemma exponent_le (x y : Q) : 0 < x -> x <= y -> (exponent x <= exponent y)%Z.
Proof.
  intros Hx Hxy. assert (Hy : 0 < y) by lra.
  destruct (exponent_spec x Hx) as [H1 _]. destruct (exponent_spec y Hy) as [_ H2].
  assert (exponent x < exponent y + 1)%Z by (apply pow2_lt_inv; lra). lia.
Qed.


(** *** Rounding on a grid *)

Lemma on_grid_le (u x y : Q) : 0 < u -> x <= y -> on_grid u x <= on_grid u y.
Proof.
  intros Hu Hxy. unfold on_grid. apply Qmult_le_compat_r; [|lra].
  rewrite <- Zle_Qle. apply round_half_even_le.
  apply Qle_shift_div_l; [exact Hu|].
  setoid_replace (x / u * u) with x using relation Qeq by (field; lra). exact Hxy.
Qed.

Lemma on_grid_fixed (u : Q) (m : Z) : 0 < u -> on_grid u (inject_Z m * u) == inject_Z m * u.
Proof.
  intros Hu. unfold on_grid.
  assert (Hq : inject_Z m * u / u == inject_Z m) by (field; lra).
  assert (Hr : round_half_even (inject_Z m * u / u) = m).
  { apply Z.le_antisymm.
    - rewrite <- (round_half_even_Z m) at 2. apply round_half_even_le. lra.
    - rewrite <- (round_half_even_Z m) at 1. apply round_half_even_le. lra. }
  rewrite Hr. reflexivity.
Qed.

Lemma on_grid_between (u : Q) (a b : Z) (x : Q) :
  0 < u -> inject_Z a * u <= x -> x <= inject_Z b * u ->
  inject_Z a * u <= on_grid u x /\ on_grid u x <= inject_Z b * u.
Proof.
  intros Hu Ha Hb. split.
  - rewrite <- (on_grid_fixed u a Hu). apply on_grid_le; assumption.
  - rewrite <- (on_grid_fixed u b Hu). apply on_grid_le; assumption.
Qed.

Lemma spacing_pos (x : Q) : 0 < spacing x.
Proof. apply pow2_pos. Qed.

(** *** The nearest binary64 number to a positive number *)

(** It stays in the closed binade of [x]. *)
Lemma nearest_normal (x : Q) :
  0 < x -> (-1022 <= exponent x)%Z ->
  2 ^ exponent x <= nearest x /\ nearest x <= 2 ^ (exponent x + 1).
Proof.
  intros Hx He. destruct (exponent_spec x Hx) as [H1 H2].
  unfold nearest, spacing. rewrite Z.max_l by lia.
  set (e := exponent x) in *.
  assert (Hlo : 2 ^ e == inject_Z (2 ^ (e - (e - 52))) * 2 ^ (e - 52))
    by (apply pow2_steps; lia).
  assert (Hhi : 2 ^ (e + 1) == inject_Z (2 ^ (e + 1 - (e - 52))) * 2 ^ (e - 52))
    by (apply pow2_steps; lia).
  destruct (on_grid_between (2 ^ (e - 52)) (2 ^ (e - (e - 52))) (2 ^ (e + 1 - (e - 52))) x)
    as [A B]; [apply pow2_pos|lra|lra|].
  split; lra.
Qed.

Lemma nearest_subnormal (x : Q) :
  0 < x -> (exponent x < -1022)%Z ->
  0 <= nearest x /\ nearest x <= 2 ^ (-1022).
Proof.
  intros Hx He. destruct (exponent_spec x Hx) as [H1 H2].
  unfold nearest, spacing. rewrite Z.max_r by lia.
  assert (Hle : x <= 2 ^ (-1022)).
  { apply Qle_trans with (2 ^ (exponent x + 1)); [exact (Qlt_le_weak _ _ H2)|].
    apply pow2_le. lia. }
  assert (Hhi : 2 ^ (-1022) == inject_Z (2 ^ (-1022 - (-1022 - 52))) * 2 ^ (-1022 - 52))
    by (apply pow2_steps; lia).
  pose proof (pow2_pos (-1022 - 52)) as Hu.
  revert Hle Hhi Hu. generalize (2 ^ (-1022)) (2 ^ (-1022 - 52)). intros top u Hle Hhi Hu.
  destruct (on_grid_between u 0 (2 ^ (-1022 - (-1022 - 52))) x) as [A B]; [exact Hu|..].
  - change (inject_Z 0) with 0. lra.
  - lra.
  - change (inject_Z 0) with 0 in A. split; lra.
Qed.

Lemma nearest_nonneg (x : Q) : 0 < x -> 0 <= nearest x.
Proof.
  intros Hx. destruct (Z.leb_spec (-1022) (exponent x)) as [He|He].
  - destruct (nearest_normal x Hx He) as [H _].
    pose proof (pow2_pos (exponent x)). lra.
  - apply nearest_subnormal; [exact Hx|lia].
Qed.

Lemma nearest_le (x y : Q) : 0 < x -> x <= y -> nearest x <= nearest y.
Proof.
  intros Hx Hxy. assert (Hy : 0 < y) by lra.
  pose proof (exponent_le x y Hx Hxy) as He.
  destruct (Z.eq_dec (Z.max (exponent x) (-1022)) (Z.max (exponent y) (-1022)))
    as [Heq|Hne].
  - unfold nearest, spacing. rewrite Heq. apply on_grid_le; [apply pow2_pos|exact Hxy].
  - assert (Hny : (-1022 <= exponent y)%Z) by lia.
    destruct (nearest_normal y Hy Hny) as [Hlow _].
    apply Qle_trans with (2 ^ exponent y); [|exact Hlow].
    destruct (Z.leb_spec (-1022) (exponent x)) as [Hnx|Hsx].
    + destruct (nearest_normal x Hx Hnx) as [_ Hhigh].
      apply Qle_trans with (2 ^ (exponent x + 1)); [exact Hhigh|]. apply pow2_le. lia.
    + destruct (nearest_subnormal x Hx) as [_ Hhigh]; [lia|].
      apply Qle_trans with (2 ^ (-1022)); [exact Hhigh|]. apply pow2_le. lia.
Qed.

Lemma nearest_comp (x y : Q) : 0 < x -> x == y -> nearest x == nearest y.
Proof.
  intros Hx Hxy. apply Qle_antisym; apply nearest_le; lra.
Qed.

(** A binary64 number is its own nearest. *)
Lemma nearest_fixed (x : Q) : 0 < x -> 0 < nearest x -> nearest (nearest x) == nearest x.
Proof.
  intros Hx Hy. set (y := nearest x) in *.
  assert (Hgrid : forall m u, 0 < u -> y == inject_Z m * u -> spacing y = u -> nearest y == y).
  { intros m u Hu Hm Hs. unfold nearest at 1.
    transitivity (on_grid u y).
    - unfold on_grid. rewrite Hs. reflexivity.
    - transitivity (on_grid u (inject_Z m * u)).
      + apply Qle_antisym; apply on_grid_le; lra.
      + rewrite on_grid_fixed by exact Hu. symmetry. exact Hm. }
  destruct (Z.leb_spec (-1022) (exponent x)) as [He|He].
  - destruct (nearest_normal x Hx He) as [Hlow Hhigh]. fold y in Hlow, Hhigh.
    set (e := exponent x) in *.
    destruct (Qlt_le_dec y (2 ^ (e + 1))) as [Hlt|Hge].
    + apply (Hgrid (round_half_even (x / spacing x)) (spacing x)).
      * apply spacing_pos.
      * reflexivity.
      * unfold spacing. rewrite (exponent_unique y e Hlow Hlt). reflexivity.
    + assert (Hy2 : y == 2 ^ (e + 1)) by lra.
      assert (Hey : exponent y = (e + 1)%Z).
      { apply exponent_unique; [lra|]. rewrite Hy2.
        apply Qpower_lt_compat_l; [lia|reflexivity]. }
      apply (Hgrid (2 ^ 52)%Z (2 ^ (e + 1 - 52))).
      * apply pow2_pos.
      * rewrite Hy2. rewrite (pow2_steps (e + 1) (e + 1 - 52)) at 1 by lia.
        replace (e + 1 - (e + 1 - 52))%Z with 52%Z by lia. reflexivity.
      * unfold spacing. rewrite Hey. rewrite Z.max_l by lia. reflexivity.
  - destruct (nearest_subnormal x Hx) as [Hlow Hhigh]; [lia|]. fold y in Hlow, Hhigh.
    destruct (exponent_spec y Hy) as [H1 _].
    assert (Hey : (exponent y <= -1022)%Z).
    { apply (Qpower_le_compat_l_inv 2); [lra|reflexivity]. }
    apply (Hgrid (round_half_even (x / spacing x)) (spacing x)).
    + apply spacing_pos.
    + reflexivity.
    + unfold spacing. rewrite !Z.max_r by lia. reflexivity.
Qed.

(** *** Rounding *)

Lemma round_nonneg (x : Q) : 0 <= x -> 0 <= round x.
Proof.
  intros Hx. unfold round. destruct (Qcompare_spec x 0) as [H|H|H]; [lra|lra|].
  by apply nearest_nonneg.
Qed.

Lemma round_opp (x : Q) : round (- x) == - round x.
Proof.
  unfold round.
  destruct (Qcompare_spec x 0) as [H|H|H]; destruct (Qcompare_spec (- x) 0) as [H'|H'|H'];
    try lra.
  assert (nearest (- - x) == nearest x) by (apply nearest_comp; lra). lra.
Qed.

Lemma round_le (x y : Q) : x <= y -> round x <= round y.
Proof.
  intros Hxy. unfold round.
  destruct (Qcompare_spec x 0) as [Hx|Hx|Hx]; destruct (Qcompare_spec y 0) as [Hy|Hy|Hy];
    try lra.
  - by apply nearest_nonneg.
  - assert (0 <= nearest (- x)) by (apply nearest_nonneg; lra). lra.
  - assert (nearest (- y) <= nearest (- x)) by (apply nearest_le; lra). lra.
  - assert (0 <= nearest (- x)) by (apply nearest_nonneg; lra).
    assert (0 <= nearest y) by (by apply nearest_nonneg). lra.
  - by apply nearest_le.
Qed.

Lemma round_comp (x y : Q) : x == y -> round x == round y.
Proof. intros H. apply Qle_antisym; apply round_le; lra. Qed.

Lemma round_fixed (x : Q) : round (round x) == round x.
Proof.
  assert (Hpos : forall z, 0 < z -> round (round z) == round z).
  { intros z Hz. assert (Hr : round z = nearest z).
    { unfold round. destruct (Qcompare_spec z 0); [lra|lra|reflexivity]. }
    rewrite Hr. pose proof (nearest_nonneg z Hz) as H0.
    unfold round. destruct (Qcompare_spec (nearest z) 0) as [H|H|H]; [lra|lra|].
    by apply nearest_fixed. }
  destruct (Qcompare_spec x 0) as [H|H|H].
  - transitivity (round 0); [|apply round_comp; lra].
    transitivity (round (round 0)); [apply round_comp, round_comp; exact H|].
    reflexivity.
  - assert (Hx : 0 < - x) by lra.
    pose proof (Hpos (- x) Hx) as Hfix.
    rewrite (round_comp (round (- x)) (- round x)) in Hfix by apply round_opp.
    rewrite !round_opp in Hfix. lra.
  - by apply Hpos.
Qed.

End Rounding.

(** Rounding keeps the order and the sign, and leaves a binary64 number as
    it is. *)
Lemma binary64_le (x y : Qc) : x <= y → binary64 x <= binary64 y.
Proof.
  intros H. unfold binary64, Qcle. cbn [this Q2Qc]. rewrite !Qred_correct.
  by apply round_le.
Qed.

Lemma binary64_nonneg (x : Qc) : 0 <= x → 0 <= binary64 x.
Proof.
  intros H. unfold binary64, Qcle. cbn [this Q2Qc]. rewrite !Qred_correct.
  by apply round_nonneg.
Qed.

Lemma binary64_fixed (x : Qc) : binary64 (binary64 x) = binary64 x.
Proof.
  unfold binary64. apply Qc_is_canon. cbn [this Q2Qc].
  rewrite (Qred_correct (Binary64.round (Qred (Binary64.round x)))).
  rewrite (Qred_correct (Binary64.round x)) at 2.
  transitivity (Binary64.round (Binary64.round x)).
  - apply round_comp, Qred_correct.
  - apply round_fixed.
Qed.

(** Some values: the literal 0.1; the sum 0.1 + 0.2, which is
    0.30000000000000004; two ties, to the even neighbour below and above;
    and two numbers under the smallest binary64 number. *)
Example binary64_values :
  binary64 (lit 0.1) = Q2Qc (3602879701896397 # 36028797018963968)
  ∧ binary64 (lit 0.1) ⊕ binary64 (lit 0.2) = Q2Qc (1351079888211149 # 4503599627370496)
  ∧ binary64 (1 + Q2Qc (1 # 9007199254740992)) = 1
  ∧ binary64 (1 + Q2Qc (3 # 9007199254740992)) = 1 + Q2Qc (1 # 2251799813685248)
  ∧ binary64 (Q2Qc (2 ^ (-1075))) = 0
  ∧ binary64 (Q2Qc (3 * 2 ^ (-1075))) = Q2Qc (2 ^ (-1073)).
Proof. repeat split; apply Qc_is_canon; by vm_compute. Qed.

(** ** Loops and arrays *)

Section Loops.

Context {St : Type}.
Implicit Types (body : nat → St → St) (s : St).

Lemma for_range_empty lo hi body s :
  (hi <= lo)%nat → for_range lo hi body s = s.
Proof.
  intros Hle. unfold for_range.
  by replace (hi - lo)%nat with 0%nat by lia.
Qed.

Lemma for_range_snoc lo hi body s :
  (lo <= hi)%nat →
  for_range lo (S hi) body s = body hi (for_range lo hi body s).
Proof.
  intros Hle. unfold for_range.
  replace (S hi - lo)%nat with (S (hi - lo)) by lia.
  rewrite seq_S, fold_left_app. simpl.
  by replace (lo + (hi - lo))%nat with hi by lia.
Qed.

(** The loop invariant rule. *)
Lemma for_range_invariant (P : nat → St → Prop) lo hi body s :
  (lo <= hi)%nat →
  P lo s →
  (∀ i s', (lo <= i < hi)%nat → P i s' → P (S i) (body i s')) →
  P hi (for_range lo hi body s).
Proof.
  intros Hle H0 Hstep. induction hi as [|hi IH].
  - replace lo with 0%nat in * by lia. by rewrite for_range_empty.
  - destruct (decide (lo = S hi)) as [->|Hne].
    + by rewrite for_range_empty.
    + rewrite for_range_snoc by lia. apply Hstep; [lia|].
      apply IH; [lia|]. intros i s' Hi. apply Hstep. lia.
Qed.

End Loops.

Lemma get_insert (a : list Qc) (i j : nat) (x : Qc) :
  (<[i:=x]> a).[j] = if decide (i = j ∧ (i < length a)%nat) then x else a.[j].
Proof.
  unfold get. rewrite !nth_lookup.
  destruct (decide (i = j ∧ (i < length a)%nat)) as [[-> Hlt]|Hno].
  - by rewrite list_lookup_insert_eq.
  - destruct (decide (i = j)) as [->|Hne].
    + rewrite list_insert_ge; [done|]. lia.
    + by rewrite list_lookup_insert_ne.
Qed.

Lemma get_insert_eq (a : list Qc) (i : nat) (x : Qc) :
  (i < length a)%nat → (<[i:=x]> a).[i] = x.
Proof. intros Hlt. rewrite get_insert. by rewrite decide_True. Qed.

Lemma get_insert_ne (a : list Qc) (i j : nat) (x : Qc) :
  i ≠ j → (<[i:=x]> a).[j] = a.[j].
Proof. intros Hne. rewrite get_insert. rewrite decide_False; [done|]. tauto. Qed.

(** A loop that writes [f i] at every index of its range leaves the length
    alone, and changes exactly the entries of its range. *)
Lemma for_insert_length (f : nat → Qc) lo hi (a : list Qc) :
  length (for_range lo hi (fun i a => <[i := f i]> a) a) = length a.
Proof.
  destruct (decide (lo <= hi)%nat) as [Hle|Hgt].
  - apply (for_range_invariant (fun _ a' => length a' = length a)); [done..|].
    intros i a' _ Hlen. by rewrite length_insert.
  - rewrite for_range_empty; [done|lia].
Qed.

Lemma for_insert_get (f : nat → Qc) lo hi (a : list Qc) (j : nat) :
  (for_range lo hi (fun i a => <[i := f i]> a) a).[j]
  = if decide ((lo <= j < hi)%nat ∧ (j < length a)%nat) then f j else a.[j].
Proof.
  destruct (decide (lo <= hi)%nat) as [Hle|Hgt].
  - pose (P := fun (n : nat) (a' : list Qc) =>
        length a' = length a ∧
        a'.[j] = if decide ((lo <= j < n)%nat ∧ (j < length a)%nat)
                 then f j else a.[j]).
    cut (P hi (for_range lo hi (fun i a => <[i := f i]> a) a)).
    { by intros [_ ?]. }
    apply for_range_invariant; [done| |].
    + split; [done|]. rewrite decide_False; [done|lia].
    + intros i a' Hi [Hlen Hget]. split; [by rewrite length_insert|].
      rewrite get_insert, Hlen, Hget.
      repeat case_decide; try done; try lia.
      match goal with Heq : i = j ∧ _ |- _ => by destruct Heq as [-> _] end.
  - rewrite for_range_empty by lia. rewrite decide_False; [done|lia].
Qed.

(** ** The solver: sizes and boundary nodes *)

Section SolverFacts.

Variable p : Params.
Variables tauFinal dtau : Qc.
Variable saveFreq : nat.

Lemma W_init_length : length (W_init p) = (N p + 1)%nat.
Proof. unfold W_init. by rewrite for_insert_length, length_replicate. Qed.

Lemma Theta_init_length : length (Theta_init p) = (N p + 1)%nat.
Proof. unfold Theta_init. by rewrite for_insert_length, length_replicate. Qed.

Lemma deriv_length (F Fp : list Qc) : length (deriv p F Fp) = length Fp.
Proof. unfold deriv. by rewrite !length_insert, for_insert_length. Qed.

Lemma deriv_get_0 (F Fp : list Qc) :
  (1 <= N p)%nat → length Fp = (N p + 1)%nat →
  (deriv p F Fp).[0] = (F.[1] - F.[0]) / h p.
Proof.
  intros HN Hlen. unfold deriv.
  rewrite get_insert_ne by lia.
  rewrite get_insert_eq; [done|]. rewrite for_insert_length. lia.
Qed.

Lemma fields0_well_sized : well_sized p (fields0 p).
Proof.
  unfold well_sized, fields0. simpl.
  by rewrite W_init_length, Theta_init_length, deriv_length, length_replicate.
Qed.

(** What one sweep leaves at the two boundary nodes. *)
Lemma picard_sweep_boundary (W_old Theta_old : list Qc) (s : Fields) :
  (1 <= N p)%nat → well_sized p s →
  let s' := fst (picard_sweep p dtau W_old Theta_old s) in
  well_sized p s'
  ∧ (W s').[0] = 0
  ∧ (Theta s').[0] = 1
  ∧ (W s').[N p] = (Re p + lambda p * (W s').[N p - 1] / h p) / (1 + lambda p / h p)
  ∧ (Theta s').[N p] = (Theta s').[N p - 1] / (1 + h p * Bi p).
Proof.
  intros HN (HW & HT & HWp). unfold picard_sweep, well_sized. cbv zeta.
  cbn [fst W Theta Wp]. repeat split.
  - by rewrite !length_insert, for_insert_length.
  - by rewrite !length_insert, for_insert_length.
  - by rewrite !deriv_length.
  - rewrite get_insert_ne by lia. rewrite get_insert_eq; [done|].
    rewrite for_insert_length. lia.
  - rewrite get_insert_ne by lia. rewrite get_insert_eq; [done|].
    rewrite for_insert_length. lia.
  - rewrite get_insert_eq by (rewrite length_insert, for_insert_length; lia).
    by rewrite (get_insert_ne _ (N p) (N p - 1)) by lia.
  - rewrite get_insert_eq by (rewrite length_insert, for_insert_length; lia).
    by rewrite (get_insert_ne _ (N p) (N p - 1)) by lia.
Qed.

Lemma picard_iterate_shift (j : nat) (W_old Theta_old : list Qc) (s : Fields) :
  picard_iterate p dtau (S j) W_old Theta_old s
  = picard_iterate p dtau j W_old Theta_old (fst (picard_sweep p dtau W_old Theta_old s)).
Proof.
  induction j as [|j IH]; [done|].
  cbn [picard_iterate] in *. by rewrite IH.
Qed.

Lemma picard_iterate_well_sized (j : nat) (W_old Theta_old : list Qc) (s : Fields) :
  (1 <= N p)%nat → well_sized p s →
  well_sized p (picard_iterate p dtau j W_old Theta_old s).
Proof.
  intros HN Hs. induction j as [|j IH]; [done|]. cbn [picard_iterate].
  by apply picard_sweep_boundary.
Qed.

(** *** The convergence test *)

Lemma Math_max_lt (x y c : Qc) : Math_max x y < c ↔ x < c ∧ y < c.
Proof.
  unfold Math_max. case_bool_decide as Hxy.
  - split; [|tauto]. intros Hy. split; [|done]. by apply Qclt_trans with y.
  - apply Qcnot_lt_le in Hxy. split; [|tauto]. intros Hx. split; [done|].
    by apply Qcle_lt_trans with x.
Qed.

(** The largest change is below a bound exactly when the change of either
    field is below it at every node (and the bound is positive, the
    accumulator starting at 0). *)
Lemma max_change_lt (Wn W_prev Tn Theta_prev : list Qc) (c : Qc) :
  max_change p Wn W_prev Tn Theta_prev < c
  ↔ 0 < c ∧ ∀ i, (i <= N p)%nat →
              Math_abs (Wn.[i] - W_prev.[i]) < c
              ∧ Math_abs (Tn.[i] - Theta_prev.[i]) < c.
Proof.
  clear tauFinal dtau saveFreq. unfold max_change.
  pose (P := fun (n : nat) (m : Qc) =>
    m < c ↔ 0 < c ∧ ∀ i, (i < n)%nat →
                    Math_abs (Wn.[i] - W_prev.[i]) < c
                    ∧ Math_abs (Tn.[i] - Theta_prev.[i]) < c).
  cut (P (N p + 1)%nat
         (for_range 0 (N p + 1)
            (fun i maxDiff =>
               Math_max (Math_max maxDiff (Math_abs (Wn.[i] - W_prev.[i])))
                        (Math_abs (Tn.[i] - Theta_prev.[i]))) 0)).
  { unfold P. intros ->. split; intros [H0 H]; (split; [done|]);
      intros i Hi; apply H; lia. }
  apply for_range_invariant; [lia| |].
  - unfold P. split; [|tauto]. intros H0. split; [done|]. intros i Hi. lia.
  - unfold P. intros n m Hn IH. rewrite !Math_max_lt, IH. split.
    + intros [[[H0 H] Hw] Ht]. split; [done|]. intros i Hi.
      destruct (decide (i = n)) as [->|Hne]; [done|].
      exact (H i ltac:(lia)).
    + intros [H0 H]. destruct (H n ltac:(lia)) as [Hw Ht].
      split; [split; [split; [done|]|done]|done].
      intros i Hi. exact (H i ltac:(lia)).
Qed.

(** *** The Picard loop *)

(** The loop runs the sweeps one after the other and stops after the first
    one whose largest change passes the test, or when the budget is spent. *)
Lemma picard_loop_spec (budget : nat) (W_old Theta_old : list Qc) (s : Fields) (iter : nat) :
  ∃ k : nat,
    picard_loop p dtau budget W_old Theta_old s iter
    = (picard_iterate p dtau k W_old Theta_old s, (iter + k)%nat)
    ∧ (k <= budget)%nat
    ∧ ((1 <= budget)%nat → (1 <= k)%nat)
    ∧ (∀ j, (S j < k)%nat → converged (sweep_change p dtau j W_old Theta_old s) = false)
    ∧ ((k < budget)%nat →
       converged (sweep_change p dtau (k - 1) W_old Theta_old s) = true).
Proof.
  revert s iter. induction budget as [|budget IH]; intros s iter.
  - exists 0%nat. cbn [picard_loop picard_iterate].
    rewrite Nat.add_0_r. repeat split; try done; lia.
  - cbn [picard_loop].
    destruct (picard_sweep p dtau W_old Theta_old s) as [s' maxDiff] eqn:Hsweep.
    assert (Hs' : s' = fst (picard_sweep p dtau W_old Theta_old s)) by by rewrite Hsweep.
    assert (Hd : maxDiff = sweep_change p dtau 0 W_old Theta_old s).
    { unfold sweep_change. cbn [picard_iterate]. by rewrite Hsweep. }
    destruct (converged maxDiff) eqn:Hconv.
    + exists 1%nat. cbn [picard_iterate]. rewrite <- Hs'.
      replace (iter + 1)%nat with (S iter) by lia.
      repeat split; try done; try lia.
      intros _. cbn [Nat.sub]. by rewrite <- Hd.
    + destruct (IH s' (S iter)) as (k & Heq & Hle & Hpos & Hbefore & Hlast).
      assert (Hchange : ∀ j, sweep_change p dtau (S j) W_old Theta_old s
                             = sweep_change p dtau j W_old Theta_old s').
      { intros j. unfold sweep_change. by rewrite picard_iterate_shift, <- Hs'. }
      exists (S k). rewrite picard_iterate_shift, <- Hs', Heq.
      replace (iter + S k)%nat with (S iter + k)%nat by lia.
      repeat split; try done; try lia.
      * intros [|j] Hj; [by rewrite <- Hd|].
        rewrite Hchange. apply Hbefore. lia.
      * intros Hk. assert (1 <= k)%nat as Hk1 by (apply Hpos; lia).
        replace (S k - 1)%nat with (S (k - 1)) by lia.
        rewrite Hchange. apply Hlast. lia.
Qed.

Lemma time_step_boundary (s : Fields) :
  (1 <= N p)%nat → well_sized p s →
  let s' := fst (time_step p dtau s) in
  well_sized p s'
  ∧ (W s').[0] = 0
  ∧ (Theta s').[0] = 1
  ∧ (W s').[N p] = (Re p + lambda p * (W s').[N p - 1] / h p) / (1 + lambda p / h p)
  ∧ (Theta s').[N p] = (Theta s').[N p - 1] / (1 + h p * Bi p).
Proof.
  intros HN Hs. unfold time_step.
  destruct (picard_loop_spec picard_budget (W s) (Theta s) s 0)
    as (k & -> & _ & Hpos & _).
  destruct k as [|k]; [unfold picard_budget in Hpos; lia|].
  cbn [fst picard_iterate]. apply picard_sweep_boundary; [done|].
  by apply picard_iterate_well_sized.
Qed.

(** *** The initial profiles *)

Lemma eta_get (i : nat) : (i <= N p)%nat → (eta p).[i] = of_nat i * h p.
Proof.
  intros Hi. unfold eta, get.
  rewrite (nth_indep _ 0 ((fun i => of_nat i * h p) 0%nat))
    by (rewrite length_map, length_seq; lia).
  rewrite (map_nth (fun i => of_nat i * h p)), seq_nth by lia. done.
Qed.

Lemma W_init_get (i : nat) :
  (i <= N p)%nat → (W_init p).[i] = of_nat i * h p * Re p / (1 + lambda p).
Proof.
  intros Hi. unfold W_init. rewrite for_insert_get, length_replicate.
  rewrite decide_True by lia. by rewrite eta_get.
Qed.

Lemma Theta_init_get (i : nat) :
  (i <= N p)%nat → (Theta_init p).[i] = 1 - (Bi p / (1 + Bi p)) * (of_nat i * h p).
Proof.
  intros Hi. unfold Theta_init. rewrite for_insert_get, length_replicate.
  rewrite decide_True by lia. by rewrite eta_get.
Qed.

Lemma W_init_0 : (W_init p).[0] = 0.
Proof.
  rewrite W_init_get by lia. change (of_nat 0) with 0.
  unfold Qcdiv. ring.
Qed.

Lemma Theta_init_0 : (Theta_init p).[0] = 1.
Proof.
  rewrite Theta_init_get by lia. change (of_nat 0) with 0. ring.
Qed.

(** *** The time loop *)

Lemma after_steps_0 : after_steps p tauFinal dtau saveFreq 0 = (fields0 p, history0 p).
Proof. done. Qed.

Lemma after_steps_S (n : nat) :
  after_steps p tauFinal dtau saveFreq (S n)
  = time_loop_body p tauFinal dtau saveFreq (S n) (after_steps p tauFinal dtau saveFreq n).
Proof.
  unfold after_steps. replace (S n + 1)%nat with (S (n + 1)) by lia.
  rewrite for_range_snoc by lia. by replace (n + 1)%nat with (S n) by lia.
Qed.

Lemma of_nat_le (n m : nat) : (n <= m)%nat → of_nat n <= of_nat m.
Proof.
  intros Hle. unfold of_nat, Qcle. cbn [this Q2Qc]. rewrite !Qred_correct.
  rewrite <- Zle_Qle. lia.
Qed.

Lemma get_snoc_l (l : list Qc) (x : Qc) (i : nat) :
  (i < length l)%nat → (l ++ [x]).[i] = l.[i].
Proof. intros Hi. unfold get. by rewrite app_nth1. Qed.

Lemma get_snoc_r (l : list Qc) (x : Qc) : (l ++ [x]).[length l] = x.
Proof. unfold get. rewrite app_nth2 by lia. by rewrite Nat.sub_diag. Qed.

Lemma nondecreasing_snoc (l : list Qc) (x : Qc) :
  nondecreasing l → (∀ i, (i < length l)%nat → l.[i] <= x) →
  nondecreasing (l ++ [x]).
Proof.
  intros Hl Hx i j Hij Hj. rewrite length_app in Hj. cbn [length] in Hj.
  destruct (decide (j = length l)) as [->|Hne].
  - rewrite get_snoc_r. destruct (decide (i = length l)) as [->|Hi].
    + rewrite get_snoc_r. apply Qcle_refl.
    + rewrite get_snoc_l by lia. apply Hx. lia.
  - rewrite !get_snoc_l by lia. apply Hl; lia.
Qed.

Lemma after_steps_invariant (n : nat) :
  (1 <= N p)%nat →
  loop_invariant p dtau n (after_steps p tauFinal dtau saveFreq n).
Proof.
  intros HN. induction n as [|n IH].
  - rewrite after_steps_0. unfold loop_invariant. cbn [fst snd history0
      tauHistory WHistory ThetaHistory CfLowerHistory length].
    split; [apply fields0_well_sized|]. split; [lia|].
    split; [repeat constructor; apply W_init_0|].
    split; [repeat constructor; apply Theta_init_0|].
    do 4 (split; [done|]). intros Hdtau. split.
    + intros i j Hij Hj. cbn [length] in Hj.
      replace j with 0%nat by lia. replace i with 0%nat by lia.
      apply Qcle_refl.
    + intros i Hi. replace i with 0%nat by lia. change (of_nat 0) with 0.
      rewrite Qcmult_0_l. apply Qcle_refl.
  - rewrite after_steps_S.
    destruct (after_steps p tauFinal dtau saveFreq n) as [s hist].
    destruct IH as (Hs & _ & HW & HT & HlW & HlT & HlC & Hlen & Htau).
    cbn [fst snd] in *.
    destruct (time_step_boundary s HN Hs) as (Hs' & HW0 & HT0 & _).
    assert (Hnext : 0 <= dtau → of_nat n * dtau <= of_nat (S n) * dtau).
    { intros Hdtau. apply Qcmult_le_compat_r; [|done]. apply of_nat_le. lia. }
    unfold time_loop_body.
    destruct ((S n mod saveFreq =? 0)%nat || (S n =? Nt tauFinal dtau)%nat)%bool.
    + unfold loop_invariant. cbn [fst snd W Theta Wp
        tauHistory WHistory ThetaHistory CfLowerHistory].
      split.
      { destruct Hs' as (? & ? & ?). unfold well_sized. cbn [W Theta Wp].
        by rewrite deriv_length. }
      split; [done|].
      split; [apply Forall_app; split; [done|by repeat constructor]|].
      split; [apply Forall_app; split; [done|by repeat constructor]|].
      rewrite !length_app. cbn [length].
      do 3 (split; [lia|]). split; [lia|].
      intros Hdtau. destruct (Htau Hdtau) as [Hmono Hbound]. split.
      * apply nondecreasing_snoc; [done|]. intros i Hi.
        eapply Qcle_trans; [by apply Hbound|by apply Hnext].
      * intros i Hi. destruct (decide (i = length (tauHistory hist))) as [->|Hne].
        -- rewrite get_snoc_r. apply Qcle_refl.
        -- rewrite get_snoc_l by lia.
           eapply Qcle_trans; [apply Hbound; lia|by apply Hnext].
    + unfold loop_invariant. cbn [fst snd].
      split; [done|]. split; [done|].
      do 6 (split; [done|]).
      intros Hdtau. destruct (Htau Hdtau) as [Hmono Hbound]. split; [done|].
      intros i Hi. eapply Qcle_trans; [by apply Hbound|by apply Hnext].
Qed.

End SolverFacts.

(** ** The solver: no division by zero on valid input *)

Lemma Qcdiv_pos (a b : Qc) : 0 < a → 0 < b → 0 < a / b.
Proof.
  unfold Qclt, Qcdiv. cbn [this Qcmult Qcinv Q2Qc]. rewrite !Qred_correct.
  intros Ha Hb. apply Qmult_lt_0_compat; [done|]. by apply Qinv_lt_0_compat.
Qed.

Lemma Qcdiv_nonneg (a b : Qc) : 0 <= a → 0 < b → 0 <= a / b.
Proof.
  unfold Qclt, Qcle, Qcdiv. cbn [this Qcmult Qcinv Q2Qc]. rewrite !Qred_correct.
  intros Ha Hb. apply Qmult_le_0_compat; [done|].
  apply Qlt_le_weak. by apply Qinv_lt_0_compat.
Qed.

Lemma of_nat_pos (n : nat) : (1 <= n)%nat → 0 < of_nat n.
Proof.
  intros Hn. unfold of_nat, Qclt. cbn [this Q2Qc]. rewrite !Qred_correct.
  change 0%Q with (inject_Z 0). rewrite <- Zlt_Qlt. lia.
Qed.

(** Sums and products of numbers that are positive or not negative. *)
Ltac qc_positive :=
  unfold Qclt, Qcle in *; cbn [this Qcplus Qcmult Q2Qc] in *;
  rewrite ?Qred_correct in *; nra.

(** With valid parameters and a positive time step, every denominator of the
    solver is positive. *)
Lemma denominators_positive (p : Params) (dtau : Qc) :
  valid_params p → 0 < dtau →
  0 < h p ∧ 0 < 2 * h p ∧ 0 < h p * h p
  ∧ 0 < 1 + lambda p ∧ 0 < 1 + Bi p
  ∧ 0 < 2 * A1 p / (h p * h p) + A2 p * Ha p * Ha p + A4 p / dtau
  ∧ 0 < 1 + lambda p / h p
  ∧ 0 < 2 * A3 p / (h p * h p) + A5 p * Pr p / dtau
  ∧ 0 < 1 + h p * Bi p.
Proof.
  intros (HA1 & HA2 & HA3 & HA4 & HA5 & HHa & HRe & HPr & HEc & HBi & Hl & HG & HN) Hdtau.
  assert (Hh : 0 < h p).
  { unfold h. apply Qcdiv_pos; [by vm_compute|by apply of_nat_pos]. }
  assert (Hhh : 0 < h p * h p).
  { generalize dependent (h p). intros x Hx. qc_positive. }
  assert (Hd1 : 0 < 2 * A1 p / (h p * h p)).
  { apply Qcdiv_pos; [|done]. generalize dependent (A1 p). intros x Hx. qc_positive. }
  assert (Hd2 : 0 < A4 p / dtau) by by apply Qcdiv_pos.
  assert (Hd3 : 0 <= lambda p / h p) by by apply Qcdiv_nonneg.
  assert (Hd4 : 0 < 2 * A3 p / (h p * h p)).
  { apply Qcdiv_pos; [|done]. generalize dependent (A3 p). intros x Hx. qc_positive. }
  assert (Hd5 : 0 < A5 p * Pr p / dtau).
  { apply Qcdiv_pos; [|done].
    generalize dependent (A5 p). generalize dependent (Pr p). intros. qc_positive. }
  generalize dependent (2 * A1 p / (h p * h p)).
  generalize dependent (2 * A3 p / (h p * h p)).
  generalize dependent (A4 p / dtau). generalize dependent (A5 p * Pr p / dtau).
  generalize dependent (lambda p / h p).
  generalize dependent (h p * h p). generalize dependent (h p).
  generalize dependent (A2 p). generalize dependent (Ha p).
  generalize dependent (lambda p). generalize dependent (Bi p).
  intros. repeat split; qc_positive.
Qed.

(** ** The solver: properties of the design document *)

Lemma baseline_valid (n : nat) : (1 <= n)%nat → valid_params (baseline n).
Proof. intros Hn. unfold valid_params. cbn. repeat split; done. Qed.

Lemma no_slip_valid (n : nat) : (1 <= n)%nat → valid_params (no_slip n).
Proof. intros Hn. unfold valid_params. cbn. repeat split; done. Qed.

(** C2. For valid parameters, after every completed time step the lower
    boundary values are [W[0] = 0] and [Theta[0] = 1], and so they are in
    every sample of the recorded trajectory (the initial one included). *)
Theorem lower_boundary_after_every_step
    (p : Params) (tauFinal dtau : Qc) (saveFreq : nat) :
  valid_params p →
  (∀ n, (1 <= n)%nat →
        (W (fst (after_steps p tauFinal dtau saveFreq n))).[0] = 0
        ∧ (Theta (fst (after_steps p tauFinal dtau saveFreq n))).[0] = 1)
  ∧ Forall (fun Wt => Wt.[0] = 0)
      (WHistory (sol_history (solveUnsteadyMHDCouette p tauFinal dtau saveFreq)))
  ∧ Forall (fun Thetat => Thetat.[0] = 1)
      (ThetaHistory (sol_history (solveUnsteadyMHDCouette p tauFinal dtau saveFreq))).
Proof.
  intros Hvalid.
  assert (HN : (1 <= N p)%nat) by (unfold valid_params in Hvalid; tauto).
  split.
  - intros n Hn.
    destruct (after_steps_invariant p tauFinal dtau saveFreq n HN) as (_ & H & _).
    by apply H.
  - unfold solveUnsteadyMHDCouette. cbn [sol_history].
    destruct (after_steps_invariant p tauFinal dtau saveFreq (Nt tauFinal dtau) HN)
      as (_ & _ & HW & HT & _).
    by split.
Qed.

Lemma lower_boundary_after_every_step_witness :
  valid_params (baseline 2)
  ∧ ((∀ n, (1 <= n)%nat →
        (W (fst (after_steps (baseline 2) (lit 0.08) (lit 0.04) 1 n))).[0] = 0
        ∧ (Theta (fst (after_steps (baseline 2) (lit 0.08) (lit 0.04) 1 n))).[0] = 1)
     ∧ Forall (fun Wt => Wt.[0] = 0)
         (WHistory (sol_history
            (solveUnsteadyMHDCouette (baseline 2) (lit 0.08) (lit 0.04) 1)))
     ∧ Forall (fun Thetat => Thetat.[0] = 1)
         (ThetaHistory (sol_history
            (solveUnsteadyMHDCouette (baseline 2) (lit 0.08) (lit 0.04) 1)))).
Proof.
  split.
  - apply baseline_valid. lia.
  - apply (lower_boundary_after_every_step (baseline 2) (lit 0.08) (lit 0.04) 1).
    apply baseline_valid. lia.
Defined.

Lemma tolerance_pos : 0 < tolerance.
Proof. by vm_compute. Qed.

Lemma converged_small_change (p : Params) (dtau : Qc) (j : nat)
    (W_old Theta_old : list Qc) (s : Fields) :
  converged (sweep_change p dtau j W_old Theta_old s) = true
  ↔ small_change p dtau j W_old Theta_old s.
Proof.
  unfold converged. rewrite bool_decide_eq_true.
  unfold sweep_change, small_change. cbn [picard_iterate].
  set (sj := picard_iterate p dtau j W_old Theta_old s).
  change (snd (picard_sweep p dtau W_old Theta_old sj))
    with (max_change p (W (fst (picard_sweep p dtau W_old Theta_old sj))) (W sj)
            (Theta (fst (picard_sweep p dtau W_old Theta_old sj))) (Theta sj)).
  rewrite max_change_lt. split; [tauto|]. intros H. split; [apply tolerance_pos|exact H].
Qed.

(** C5. In every time step the Picard loop makes at least one and at most 15
    sweeps.  It stops after sweep [k] as soon as that sweep changed neither
    the velocity nor the temperature by 1e-10 or more at any node, no earlier
    sweep having done so; and when none of the 15 sweeps meets the tolerance
    the step still returns, with the fifteenth iterate. *)
Theorem picard_loop_budget_and_exit (p : Params) (dtau : Qc) (s : Fields) :
  (∃ k : nat,
     time_step p dtau s = (picard_iterate p dtau k (W s) (Theta s) s, k)
     ∧ (1 <= k <= 15)%nat
     ∧ (∀ j, (S j < k)%nat → ¬ small_change p dtau j (W s) (Theta s) s)
     ∧ ((k < 15)%nat → small_change p dtau (k - 1) (W s) (Theta s) s))
  ∧ ((∀ j, (j < 15)%nat → ¬ small_change p dtau j (W s) (Theta s) s) →
     time_step p dtau s = (picard_iterate p dtau 15 (W s) (Theta s) s, 15%nat)).
Proof.
  unfold time_step.
  destruct (picard_loop_spec p dtau picard_budget (W s) (Theta s) s 0)
    as (k & Heq & Hle & Hpos & Hbefore & Hlast).
  unfold picard_budget in *. cbn [Nat.add] in Heq.
  assert (Hres : (1 <= k <= 15)%nat) by (split; [apply Hpos|]; lia).
  assert (Hb : ∀ j, (S j < k)%nat → ¬ small_change p dtau j (W s) (Theta s) s).
  { intros j Hj Hsmall. apply converged_small_change in Hsmall.
    rewrite Hbefore in Hsmall by done. discriminate. }
  assert (Hl : (k < 15)%nat → small_change p dtau (k - 1) (W s) (Theta s) s).
  { intros Hk. apply converged_small_change. by apply Hlast. }
  split.
  - exists k. by rewrite Heq.
  - intros Hnone. destruct (decide (k = 15%nat)) as [->|Hne]; [done|].
    exfalso. apply (Hnone (k - 1)%nat); [lia|]. apply Hl. lia.
Qed.

(** Both ways out of the loop occur: on a grid of two intervals the first
    step of the baseline stops after 7 sweeps; on four intervals it spends
    the 15 sweeps without meeting the tolerance, and goes on. *)
Example baseline_stops_early :
  snd (time_step (baseline 2) (lit 0.04) (fields0 (baseline 2))) = 7%nat.
Proof. by vm_compute. Qed.

Example baseline_spends_the_budget :
  snd (time_step (baseline 4) (lit 0.02) (fields0 (baseline 4))) = 15%nat
  ∧ converged (sweep_change (baseline 4) (lit 0.02) 14
                 (W (fields0 (baseline 4))) (Theta (fields0 (baseline 4)))
                 (fields0 (baseline 4))) = false.
Proof. split; by vm_compute. Qed.

Lemma slip_formula_without_slip (re x hh : Qc) :
  (re + 0 * x / hh) / (1 + 0 / hh) = re.
Proof.
  unfold Qcdiv. rewrite !Qcmult_0_l, !Qcplus_0_r.
  change (/ 1) with 1. apply Qcmult_1_r.
Qed.

(** C7. With valid parameters, a positive time step and no slip
    ([lambda = 0]), every Picard sweep of every time step leaves
    [W[N] = Re] at the upper plate. *)
Theorem upper_boundary_without_slip
    (p : Params) (tauFinal dtau : Qc) (saveFreq : nat) :
  valid_params p → 0 < dtau → lambda p = 0 →
  ∀ n j : nat,
    (W (picard_iterate p dtau (S j)
          (W (fst (after_steps p tauFinal dtau saveFreq n)))
          (Theta (fst (after_steps p tauFinal dtau saveFreq n)))
          (fst (after_steps p tauFinal dtau saveFreq n)))).[N p] = Re p.
Proof.
  intros Hvalid _ Hlambda n j.
  assert (HN : (1 <= N p)%nat) by (unfold valid_params in Hvalid; tauto).
  destruct (after_steps_invariant p tauFinal dtau saveFreq n HN) as (Hs & _).
  set (s := fst (after_steps p tauFinal dtau saveFreq n)) in *.
  cbn [picard_iterate].
  pose proof (picard_iterate_well_sized p dtau j (W s) (Theta s) s HN Hs) as Hj.
  destruct (picard_sweep_boundary p dtau (W s) (Theta s) _ HN Hj)
    as (_ & _ & _ & Hslip & _).
  rewrite Hslip, Hlambda. apply slip_formula_without_slip.
Qed.

Lemma upper_boundary_without_slip_witness :
  valid_params (no_slip 2) ∧ 0 < lit 0.04 ∧ lambda (no_slip 2) = 0
  ∧ ∀ n j : nat,
      (W (picard_iterate (no_slip 2) (lit 0.04) (S j)
            (W (fst (after_steps (no_slip 2) (lit 0.08) (lit 0.04) 1 n)))
            (Theta (fst (after_steps (no_slip 2) (lit 0.08) (lit 0.04) 1 n)))
            (fst (after_steps (no_slip 2) (lit 0.08) (lit 0.04) 1 n)))).[2]
      = 1.
Proof.
  split; [apply no_slip_valid; lia|].
  split; [by vm_compute|].
  split; [reflexivity|].
  apply (upper_boundary_without_slip (no_slip 2) (lit 0.08) (lit 0.04) 1).
  - apply no_slip_valid. lia.
  - by vm_compute.
  - reflexivity.
Defined.

(** *** Rise times *)

Lemma rise_threshold_le (a : Qc) : lit 0.63 * Math_abs a <= lit 0.95 * Math_abs a.
Proof.
  apply Qcmult_le_compat_r; [by vm_compute|]. apply Qcabs_nonneg.
Qed.

Lemma final_reaches_95 (a : Qc) : lit 0.95 * Math_abs a <= Math_abs a.
Proof.
  rewrite <- (Qcmult_1_l (Math_abs a)) at 2.
  apply Qcmult_le_compat_r; [by vm_compute|]. apply Qcabs_nonneg.
Qed.

(** From any point of the search on, if the 95% level is still to be reached
    at some sample and the times never go back, the 63% time found is not
    later than the 95% time. *)
Lemma rise_loop_ordered (tauFinal : Qc) (tauHist CfHist : list Qc) (CfFinal : Qc) :
  nondecreasing tauHist → length CfHist = length tauHist →
  ∀ (d lo : nat) (tau63 tau95 : Qc),
    (lo + d)%nat = length CfHist →
    (tau63 = tauFinal ∨ ∃ j, (j < lo)%nat ∧ tau63 = tauHist.[j]) →
    (∃ i, (lo <= i < lo + d)%nat ∧ lit 0.95 * Math_abs CfFinal <= Math_abs CfHist.[i]) →
    fst (rise_loop tauFinal tauHist CfHist CfFinal (seq lo d) tau63 tau95)
    <= snd (rise_loop tauFinal tauHist CfHist CfFinal (seq lo d) tau63 tau95).
Proof.
  intros Hmono Hlen d. induction d as [|d IH]; intros lo tau63 tau95 Hd H63 H95.
  - destruct H95 as (i & Hi & _). lia.
  - cbn [seq rise_loop].
    case_bool_decide as Hc95.
    + (* the search stops here *)
      cbn [fst snd].
      assert (Hc63 : lit 0.63 * Math_abs CfFinal <= Math_abs CfHist.[lo]).
      { eapply Qcle_trans; [apply rise_threshold_le|done]. }
      rewrite (bool_decide_eq_true_2 _ Hc63). cbn [andb].
      case_bool_decide as Hfirst; [apply Qcle_refl|].
      destruct H63 as [->|(j & Hj & ->)]; [done|].
      apply Hmono; lia.
    + apply IH; [lia| |].
      * destruct (bool_decide (lit 0.63 * Math_abs CfFinal <= Math_abs CfHist.[lo])
                  && bool_decide (tau63 = tauFinal))%bool.
        -- right. exists lo. split; [lia|done].
        -- destruct H63 as [->|(j & Hj & ->)]; [by left|].
           right. exists j. split; [lia|done].
      * destruct H95 as (i & Hi & Hreach).
        destruct (decide (i = lo)) as [->|Hne]; [done|].
        exists i. split; [lia|done].
Qed.

(** C8. With valid parameters and a positive time step, the reported rise
    times satisfy [tau63 <= tau95]. *)
Theorem rise_times_ordered (p : Params) (tauFinal dtau : Qc) (saveFreq : nat) :
  valid_params p → 0 < dtau →
  tau63 (solveUnsteadyMHDCouette p tauFinal dtau saveFreq)
  <= tau95 (solveUnsteadyMHDCouette p tauFinal dtau saveFreq).
Proof.
  intros Hvalid Hdtau.
  assert (HN : (1 <= N p)%nat) by (unfold valid_params in Hvalid; tauto).
  unfold solveUnsteadyMHDCouette. cbn [tau63 tau95].
  destruct (after_steps_invariant p tauFinal dtau saveFreq (Nt tauFinal dtau) HN)
    as (_ & _ & _ & _ & _ & _ & HlC & Hlen & Htau).
  destruct (Htau (Qclt_le_weak _ _ Hdtau)) as [Hmono _].
  set (hist := snd (after_steps p tauFinal dtau saveFreq (Nt tauFinal dtau))) in *.
  unfold rise_times.
  apply rise_loop_ordered; [done|done|lia|by left|].
  exists (length (CfLowerHistory hist) - 1)%nat. split; [lia|].
  apply final_reaches_95.
Qed.

Lemma driven_valid : valid_params driven.
Proof. unfold valid_params. cbn. repeat split; try done. lia. Qed.

Example driven_rise_times :
  tauHistory (sol_history (solveUnsteadyMHDCouette driven 1 (lit 0.25) 1))
  = [0; lit 0.25; lit 0.5; lit 0.75; 1]
  ∧ tau63 (solveUnsteadyMHDCouette driven 1 (lit 0.25) 1) = lit 0.25
  ∧ tau95 (solveUnsteadyMHDCouette driven 1 (lit 0.25) 1) = lit 0.75.
Proof.
  split; [apply (bool_decide_unpack _); by vm_compute|].
  split; apply Qc_is_canon; by vm_compute.
Qed.

Lemma rise_times_ordered_witness :
  valid_params driven ∧ 0 < lit 0.25
  ∧ tau63 (solveUnsteadyMHDCouette driven 1 (lit 0.25) 1)
    <= tau95 (solveUnsteadyMHDCouette driven 1 (lit 0.25) 1).
Proof.
  split; [exact driven_valid|].
  split; [by vm_compute|].
  apply (rise_times_ordered driven 1 (lit 0.25) 1).
  - exact driven_valid.
  - by vm_compute.
Defined.

(** *** Energy integrals *)

Lemma push_loop_map {A : Type} (f : nat → A) (n : nat) :
  for_range 0 n (fun t acc => acc ++ [f t]) [] = map f (seq 0 n).
Proof.
  induction n as [|n IH]; [done|].
  rewrite for_range_snoc by lia. by rewrite IH, seq_S, map_app.
Qed.

Lemma map_nth_seq {A B : Type} (g : A → B) (l : list A) (d : A) :
  map (fun t => g (nth t l d)) (seq 0 (length l)) = map g l.
Proof.
  induction l as [|a l IH]; [done|].
  cbn [length seq map nth]. f_equal.
  by rewrite <- seq_shift, map_map.
Qed.

Lemma half_times (x : Qc) : lit 0.5 * x = x / 2.
Proof.
  unfold Qcdiv. replace (lit 0.5) with (/ 2) by by apply Qc_is_canon.
  apply Qcmult_comm.
Qed.

(** The kinetic-energy accumulator of the inner loop is the trapezoidal sum
    of the squared velocity. *)
Lemma energy_sample_KE (p : Params) (Wt Thetat : list Qc) :
  KE (energy_sample p Wt Thetat) = trapezoid (h p) (fun i => sq Wt.[i]) (N p).
Proof.
  unfold energy_sample, trapezoid.
  apply (for_range_invariant
           (fun n e => KE e = sum_n (fun i => (sq Wt.[i] + sq Wt.[i + 1]) / 2 * h p) n));
    [lia|done|].
  intros i e _ IH. cbn [KE sum_n]. by rewrite IH, half_times.
Qed.

Lemma trapezoid_double (p : Params) (Wt : list Qc) :
  trapezoid (h p) (fun i => sq Wt.[i]) (N p)
  = 2 * kinetic_energy_of_half_W_squared p Wt.
Proof.
  unfold kinetic_energy_of_half_W_squared, trapezoid.
  induction (N p) as [|n IH]; cbn [sum_n].
  - ring.
  - rewrite IH. unfold Qcdiv. change (/ 2 * 1) with (/ 2). 
    assert (H2 : 2 * / 2 = 1) by by apply Qc_is_canon.
    set (a := sq Wt.[n]). set (b := sq Wt.[n + 1]).
    transitivity (sum_n (fun i => (1 * / 2 * sq Wt.[i] + 1 * / 2 * sq Wt.[i + 1]) * / 2 * h p) n * 2
                  + (2 * / 2) * ((a + b) * / 2 * h p)); [rewrite H2; ring|ring].
Qed.

(** C1, as stated, fails: on the one-interval run the recorded kinetic energy
    of the first sample is [1/2], while the trapezoidal rule for the integral
    of [(1/2) W^2] gives [1/4]. *)
Lemma kinetic_energy_is_not_half_W_squared :
  (kineticEnergy one_interval).[0] = lit 0.5
  ∧ kinetic_energy_of_half_W_squared (no_slip 1)
      (nth 0 (WHistory (sol_history one_interval)) []) = lit 0.25
  ∧ (kineticEnergy one_interval).[0]
    ≠ kinetic_energy_of_half_W_squared (no_slip 1)
        (nth 0 (WHistory (sol_history one_interval)) []).
Proof.
  split; [by apply Qc_is_canon; vm_compute|].
  split; [by apply Qc_is_canon; vm_compute|].
  apply (bool_decide_eq_false_1 _). by vm_compute.
Qed.

(** C1, amended. At every saved sample the recorded kinetic energy is the
    trapezoidal rule over the grid applied to the integrand [W^2]: the sum
    over the intervals of [(W[i]^2 + W[i+1]^2) / 2 * h], which is twice the
    trapezoidal approximation of the integral of [(1/2) W^2]. *)
Theorem kinetic_energy_trapezoid_of_W_squared
    (p : Params) (tauFinal dtau : Qc) (saveFreq : nat) :
  kineticEnergy (solveUnsteadyMHDCouette p tauFinal dtau saveFreq)
  = map (fun Wt => trapezoid (h p) (fun i => sq Wt.[i]) (N p))
        (WHistory (sol_history (solveUnsteadyMHDCouette p tauFinal dtau saveFreq)))
  ∧ kineticEnergy (solveUnsteadyMHDCouette p tauFinal dtau saveFreq)
    = map (fun Wt => 2 * kinetic_energy_of_half_W_squared p Wt)
          (WHistory (sol_history (solveUnsteadyMHDCouette p tauFinal dtau saveFreq))).
Proof.
  assert (H1 : kineticEnergy (solveUnsteadyMHDCouette p tauFinal dtau saveFreq)
               = map (fun Wt => trapezoid (h p) (fun i => sq Wt.[i]) (N p))
                   (WHistory (sol_history
                      (solveUnsteadyMHDCouette p tauFinal dtau saveFreq)))).
  { unfold solveUnsteadyMHDCouette. cbn [kineticEnergy sol_history].
    set (hist := snd (after_steps p tauFinal dtau saveFreq (Nt tauFinal dtau))).
    unfold energy_histories. rewrite push_loop_map, map_map.
    rewrite <- (map_nth_seq _ (WHistory hist) []).
    apply map_ext. intros t. apply energy_sample_KE. }
  split; [exact H1|].
  rewrite H1. apply map_ext. intros Wt. apply trapezoid_double.
Qed.

(** ** The mixture calculator: properties of the design document *)

Lemma own_property_in_table (type : string) (particle : Particle) :
  own_property NANOPARTICLES type = Some particle →
  particle ∈ map snd NANOPARTICLES.
Proof.
  generalize NANOPARTICLES. intros table. induction table as [|[name q] table IH].
  - discriminate.
  - cbn [own_property map snd]. case_bool_decide.
    + intros [= ->]. apply list_elem_of_here.
    + intros H'. apply list_elem_of_further. by apply IH.
Qed.

(** No particle of the table makes the Maxwell denominator vanish at a zero
    volume fraction. *)
Lemma table_conductivities (particle : Particle) :
  particle ∈ map snd NANOPARTICLES → k particle + 2 * lit 0.613 ≠ 0.
Proof.
  intros Hin. apply list_elem_of_In in Hin. cbn in Hin.
  repeat (destruct Hin as [<-|Hin]; [by vm_compute|]).
  destruct Hin.
Qed.

(** C3, as stated, fails: a particle name that is not in the table gets the
    default ratios whatever the volume fraction, and they are not 1. *)
Lemma zero_fraction_unknown_particle :
  computeNanofluidProperties pow_newton "Au" 0 = default_ratios
  ∧ rA1 default_ratios ≠ Num 1.
Proof.
  split; [reflexivity|]. intros H. by injection H.
Qed.

(** C3, amended. For every particle of the table, at the volume fraction 0
    the five ratios are exactly 1 (given that the implementation's
    [Math.pow] returns 1 for the base 1). *)
Theorem zero_fraction_known_particle
    (Math_pow : Qc → Qc → Qc) (type : string) (particle : Particle) :
  Math_pow 1 (lit 2.5) = 1 →
  own_property NANOPARTICLES type = Some particle →
  computeNanofluidProperties Math_pow type 0
  = mkRatios (Num 1) (Num 1) (Num 1) (Num 1) (Num 1).
Proof.
  intros Hpow Hown.
  pose proof (table_conductivities _ (own_property_in_table _ _ Hown)) as Hk.
  unfold computeNanofluidProperties, NANOPARTICLES_get. rewrite Hown. cbv zeta.
  replace (1 - 0) with 1 by ring. rewrite Hpow.
  assert (H997 : lit 997 ≠ 0) by by vm_compute.
  assert (Hcp : lit 997 * lit 4179 ≠ 0) by by vm_compute.
  assert (HA1 : 1 / 1 = 1) by by apply Qc_is_canon.
  assert (HA2 : ∀ sr : Qc, 1 + lit 3 * 0 * (sr - 1) / (sr + 2 - 0 * (sr - 1)) = 1).
  { intros sr. unfold Qcdiv. ring. }
  rewrite HA1, HA2. do 2 f_equal.
  - replace (k particle + 2 * lit 0.613 + 2 * 0 * (k particle - lit 0.613))
      with (k particle + 2 * lit 0.613) by ring.
    replace (k particle + 2 * lit 0.613 - 0 * (k particle - lit 0.613))
      with (k particle + 2 * lit 0.613) by ring.
    unfold Qcdiv. by apply Qcmult_inv_r.
  - replace (1 * lit 997 + 0 * rho particle) with (lit 997) by ring.
    unfold Qcdiv. by apply Qcmult_inv_r.
  - replace (1 * lit 997 * lit 4179 + 0 * rho particle * Cp particle)
      with (lit 997 * lit 4179) by ring.
    unfold Qcdiv. by apply Qcmult_inv_r.
Qed.

Lemma zero_fraction_known_particle_witness :
  pow_newton 1 (lit 2.5) = 1
  ∧ own_property NANOPARTICLES "Cu"
    = Some (mkParticle (lit 8933) (lit 401) (lit 385) (lit 5.96e7))
  ∧ computeNanofluidProperties pow_newton "Cu" 0
    = mkRatios (Num 1) (Num 1) (Num 1) (Num 1) (Num 1).
Proof.
  split; [by apply Qc_is_canon|].
  split; [reflexivity|].
  apply (zero_fraction_known_particle pow_newton "Cu"
           (mkParticle (lit 8933) (lit 401) (lit 385) (lit 5.96e7))).
  - by apply Qc_is_canon.
  - reflexivity.
Defined.

(** A name that is neither in the table nor on [Object.prototype] gets the
    default ratios, whatever the volume fraction. *)
Lemma absent_name_gets_defaults (Math_pow : Qc → Qc → Qc) (type : string) (phi : Qc) :
  NANOPARTICLES_get type = Undefined →
  computeNanofluidProperties Math_pow type phi = default_ratios.
Proof. intros H. unfold computeNanofluidProperties. by rewrite H. Qed.

(** C10, at a name inherited from [Object.prototype]: the table lookup is
    truthy, the guard is passed, and the result is not the default record:
    [A1] is the Brinkman ratio and the four other ratios are NaN. *)
Theorem inherited_name_skips_defaults (Math_pow : Qc → Qc → Qc) (phi : Qc) :
  NANOPARTICLES_get "constructor" = Inherited
  ∧ computeNanofluidProperties Math_pow "constructor" phi
    = mkRatios (Num (1 / Math_pow (1 - phi) (lit 2.5))) NaN NaN NaN NaN
  ∧ computeNanofluidProperties Math_pow "constructor" phi ≠ default_ratios.
Proof.
  split; [reflexivity|]. split; [reflexivity|].
  intros H. discriminate H.
Qed.

(** ** The optimizer: selection *)

(** Comparisons of numbers, settled on the underlying rationals. *)
Ltac qc_order :=
  repeat match goal with
         | H : ¬ (_ < _) |- _ => apply Qcnot_lt_le in H
         | H : ¬ (_ <= _) |- _ => apply Qcnot_le_lt in H
         end;
  unfold Qclt, Qcle in *; lra.

Lemma floor_index_in_range (r : Qc) (n : nat) :
  0 <= r → r < 1 → (1 <= n)%nat →
  (Z.to_nat (Math_floor (r * of_nat n)) < n)%nat.
Proof.
  intros H0 H1 Hn. unfold Math_floor.
  assert (Hlt : (Qfloor (r * of_nat n)%Qc < Z.of_nat n)%Z).
  { rewrite Zlt_Qlt. eapply Qle_lt_trans; [apply Qfloor_le|].
    unfold of_nat, Qclt, Qcle in *. cbn [this Qcmult Q2Qc] in *.
    rewrite !Qred_correct in *.
    assert (Hpos : (0 < inject_Z (Z.of_nat n))%Q).
    { change 0%Q with (inject_Z 0). rewrite <- Zlt_Qlt. lia. }
    generalize dependent (inject_Z (Z.of_nat n)). intros x Hpos.
    generalize dependent (this r). intros q Hq0 Hq1. nra. }
  lia.
Qed.

Section Selection.

Variable random : nat → Qc.
Hypothesis random_unit : unit_interval random.

(** A draw from a population that is not empty never throws: it consumes one
    random number and returns the candidate at the index computed from it. *)
Lemma draw_spec (ev : list Evaluated) (c : nat) :
  ev ≠ [] →
  ∃ e, drawn random ev c = Some e ∧ draw random ev c = Some (e, S c).
Proof using random_unit.
  intros Hev. destruct (random_unit c) as [H0 H1].
  assert (Hlen : (1 <= length ev)%nat) by (destruct ev; [done|cbn; lia]).
  pose proof (floor_index_in_range (random c) (length ev) H0 H1 Hlen) as Hidx.
  destruct (lookup_lt_is_Some_2 ev _ Hidx) as [e He].
  exists e. split; [exact He|].
  unfold draw, bind, Math_random. by rewrite He.
Qed.

End Selection.





(** ** The optimizer: the best fitness never decreases *)

Lemma Fitness_le_refl (a : Fitness) : Fitness_le a a.
Proof. destruct a; [done|]. apply Qcle_refl. Qed.

Lemma Fitness_le_trans (a b c : Fitness) :
  Fitness_le a b → Fitness_le b c → Fitness_le a c.
Proof.
  destruct a, b, c; cbn; try done. apply Qcle_trans.
Qed.

Lemma exceeds_le (x : Qc) (b : Fitness) : exceeds x b = true → Fitness_le b (Fit x).
Proof.
  destruct b as [|q]; [done|]. cbn. rewrite bool_decide_eq_true.
  apply Qclt_le_weak.
Qed.

Lemma StronglySorted_snoc {A : Type} (R : A → A → Prop) (l : list A) (x : A) :
  StronglySorted R l → Forall (fun a => R a x) l → StronglySorted R (l ++ [x]).
Proof.
  intros Hs Hx. induction Hs as [|a l Hs IH Ha]; cbn.
  - repeat constructor.
  - apply Forall_cons_1 in Hx as [Hax Hx]. constructor; [by apply IH|].
    apply Forall_app. split; [done|]. by repeat constructor.
Qed.

Section BestFitness.

Variable random : nat → Qc.
Variable o : TransientOptimizer.

Lemma generation_body_reports (g : nat) (st : OptState) (cursor : nat) :
  reports_ordered st →
  reports_ordered (run_state (generation_body random o g st cursor)).
Proof.
  intros [Hsorted Hbound]. unfold generation_body.
  destruct (evaluate o (pop st) !! 0%nat) as [ev0|]; [|done].
  set (new := if exceeds (fit ev0) (bestFit st)
              then (Fit (fit ev0), Some (ind ev0)) else (bestFit st, best st)).
  assert (Hle : Fitness_le (bestFit st) (fst new)).
  { unfold new. destruct (exceeds (fit ev0) (bestFit st)) eqn:He; cbn [fst].
    - by apply exceeds_le.
    - apply Fitness_le_refl. }
  destruct new as [bestFit' best'] eqn:Hnew. cbn [fst] in Hle.
  assert (Hst : ∀ pop', reports_ordered
            (mkOptState pop' best' bestFit'
               (reported st ++ [mkProgress g (gens o) bestFit' best']))).
  { intros pop'. unfold reports_ordered. cbn [reported bestFit].
    rewrite map_app. cbn [map bestFitness]. split.
    - apply StronglySorted_snoc; [done|].
      apply Forall_forall. intros f Hf.
      exact (Fitness_le_trans _ _ _ (proj1 (Forall_forall _ _) Hbound f Hf) Hle).
    - apply Forall_app. split.
      + apply Forall_forall. intros f Hf.
        exact (Fitness_le_trans _ _ _ (proj1 (Forall_forall _ _) Hbound f Hf) Hle).
      + repeat constructor. apply Fitness_le_refl. }
  destruct (evaluate o (pop st) !! 1%nat) as [ev1|]; [|apply Hst].
  destruct (fill random o (popSize o - 2) (evaluate o (pop st))
              [ind ev0; ind ev1] cursor) as [[newPop cursor']|]; apply Hst.
Qed.

Lemma after_generations_reports (g cursor : nat) :
  reports_ordered (run_state (after_generations random o g cursor)).
Proof.
  induction g as [|g IH]; cbn [after_generations].
  - destruct (initial_population random o (popSize o) cursor) as [[pop0 c']|];
      cbn; split; constructor.
  - destruct (after_generations random o g cursor) as [st c'|st]; [|done].
    by apply generation_body_reports.
Qed.

End BestFitness.

(** The best fitness reported by the three generations of the small run:
    3.7, 4.1 and 4.1, up to rounding. *)
Example small_run_reports :
  Forall2 (fun report f => ∃ q, bestFitness report = Fit q ∧ Math_abs (q - f) <= lit 1e-12)
    (snd (optimize cycle_of_ten small_run 0))
    [lit 3.7; lit 4.1; lit 4.1].
Proof.
  vm_compute.
  repeat (constructor; [eexists; split; [reflexivity|discriminate]|]).
  constructor.
Qed.

(** C6. Whatever the fitness function, the bounds, the sizes and the random
    draws, the best fitness reported after each generation, followed by the
    fitness finally returned, never decreases (also when the run is stopped
    by a [TypeError], for what was reported before). *)
Theorem best_fitness_never_decreases
    (random : nat → Qc) (o : TransientOptimizer) (cursor : nat) :
  StronglySorted Fitness_le
    (map bestFitness (snd (optimize random o cursor))
     ++ final_fitness (fst (optimize random o cursor))).
Proof.
  unfold optimize.
  pose proof (after_generations_reports random o (gens o) cursor) as [Hs Hb].
  destruct (after_generations random o (gens o) cursor) as [st c'|st];
    cbn [fst snd final_fitness run_state] in *.
  - by apply StronglySorted_snoc.
  - by rewrite app_nil_r.
Qed.

(** ** The optimizer: the bounds of the search space *)

(** The loop rule for [for ... of]: a property of the entries handled so far
    that every iteration extends holds of all of them at the end, and the
    loop does not throw. *)
Lemma for_of_invariant {A St : Type} (P : list A → St → Prop)
    (l : list A) (body : A → St → Rand St) :
  (∀ handled e rest s c,
     l = handled ++ e :: rest → P handled s →
     ∃ s' c', body e s c = Some (s', c') ∧ P (handled ++ [e]) s') →
  ∀ s c, P [] s → ∃ s' c', for_of l body s c = Some (s', c') ∧ P l s'.
Proof.
  intros Hstep.
  cut (∀ rest handled s c,
         l = handled ++ rest → P handled s →
         ∃ s' c', for_of rest body s c = Some (s', c') ∧ P l s').
  { intros H s c H0. by apply (H l []). }
  induction rest as [|e rest IH]; intros handled s c Hl HP.
  - rewrite app_nil_r in Hl. subst handled. by exists s, c.
  - destruct (Hstep handled e rest s c Hl HP) as (s1 & c1 & Hbody & HP1).
    destruct (IH (handled ++ [e]) s1 c1) as (s' & c' & Hfor & HP'); [|done|].
    { by rewrite <- app_assoc. }
    exists s', c'. split; [|done].
    cbn [for_of]. unfold bind. by rewrite Hbody.
Qed.

Lemma NoDup_fst_unique {A B : Type} (l : list (A * B)) (a : A) (b b' : B) :
  NoDup (map fst l) → (a, b) ∈ l → (a, b') ∈ l → b = b'.
Proof.
  induction l as [|[a0 b0] l IH]; cbn [map fst]; intros Hnd Hb Hb'.
  - by apply elem_of_nil in Hb.
  - apply list.NoDup_cons in Hnd as [Hnotin Hnd].
    assert (Hkey : ∀ c, (a0, c) ∈ l → False).
    { intros c Hc. apply Hnotin. apply list_elem_of_In.
      apply list_elem_of_In in Hc. by apply (in_map fst) in Hc. }
    apply elem_of_cons in Hb as [[= -> ->]|Hb];
      apply elem_of_cons in Hb' as [[= <-]|Hb']; try done.
    + by destruct (Hkey b').
    + by destruct (Hkey b).
    + by apply IH.
Qed.

(** [Math.max(min, Math.min(max, x))] lies between the bounds, whatever
    [x] is. *)
Lemma clamp_within (min max x : Qc) :
  min <= max → min <= Math_max min (Math_min max x) ∧ Math_max min (Math_min max x) <= max.
Proof.
  intros Hle. unfold Math_max, Math_min. repeat case_bool_decide; split; qc_order.
Qed.

Section WithinBounds.

Variable random : nat → Qc.
Variable o : TransientOptimizer.
Hypothesis random_unit : unit_interval random.
Hypothesis bounds_ok : well_formed_bounds (bounds o).

(** Mutation keeps an individual within the bounds: a gene it rewrites is
    clamped. *)
Lemma mutate_within (i : Individual) (c : nat) :
  within_bounds (bounds o) i →
  ∃ m c', mutate random o i c = Some (m, c') ∧ within_bounds (bounds o) m.
Proof using bounds_ok.
  destruct bounds_ok as [Hnd Hle]. intros Hi. unfold mutate.
  apply (for_of_invariant (fun _ m => within_bounds (bounds o) m)); [|done].
  intros handled [k [min max]] rest m c0 Hl Hm.
  assert (Hin : (k, (min, max)) ∈ bounds o).
  { rewrite Hl. apply elem_of_app. right. apply list_elem_of_here. }
  unfold bind, Math_random. case_bool_decide.
  - eexists _, _. split; [reflexivity|].
    intros k' min' max' Hin'. destruct (decide (k = k')) as [<-|Hne].
    + rewrite lookup_insert_eq. eexists. split; [reflexivity|].
      pose proof (NoDup_fst_unique _ _ _ _ Hnd Hin Hin') as [= <- <-].
      apply clamp_within. by apply (Hle k).
    + rewrite lookup_insert_ne by done. by apply Hm.
  - eexists _, _. split; [reflexivity|done].
Qed.

(** The parent selected is one of the evaluated individuals. *)
Lemma sel_member (ev : list Evaluated) (c : nat) :
  ev ≠ [] →
  ∃ e c', sel random ev c = Some (ind e, c') ∧ e ∈ ev.
Proof using random_unit.
  intros Hev.
  destruct (draw_spec random random_unit ev c Hev) as (c0 & Hd0 & Hr0).
  destruct (draw_spec random random_unit ev (S c) Hev) as (c1 & Hd1 & Hr1).
  destruct (draw_spec random random_unit ev (S (S c)) Hev) as (c2 & Hd2 & Hr2).
  apply list_elem_of_lookup_2 in Hd0, Hd1, Hd2.
  eexists _, _. split.
  { unfold sel, bind. rewrite Hr0. cbn [seq for_of]. unfold bind.
    rewrite Hr1. cbn [ret]. rewrite Hr2. reflexivity. }
  by repeat case_bool_decide.
Qed.

(** Sorting rearranges the evaluated population and nothing else. *)
Lemma sort_insert_permutation (a : Evaluated) (l : list Evaluated) :
  sort_insert a l ≡ₚ a :: l.
Proof.
  induction l as [|b l IH]; cbn [sort_insert]; [done|].
  case_bool_decide; [|done]. rewrite IH. apply Permutation_swap.
Qed.

Lemma sort_permutation (l : list Evaluated) : sort l ≡ₚ l.
Proof.
  induction l as [|a l IH]; [done|]. cbn [sort foldr].
  rewrite sort_insert_permutation. by apply Permutation_skip.
Qed.

Lemma evaluate_member (population : list Individual) (e : Evaluated) :
  e ∈ evaluate o population → ind e ∈ population.
Proof.
  unfold evaluate. rewrite sort_permutation.
  intros Hin. apply list_elem_of_In, in_map_iff in Hin as (i & <- & Hi).
  by apply list_elem_of_In.
Qed.

(** Every individual is given a value for each search dimension, and for
    nothing else. *)
Lemma createInd_dimensions (c : nat) :
  ∃ i c', createInd random o c = Some (i, c') ∧ has_dimensions (bounds o) i.
Proof.
  unfold createInd.
  pose (P := fun (handled : Bounds) (i : Individual) =>
    ∀ k, is_Some (i !! k) ↔ k ∈ map fst handled).
  apply (for_of_invariant P).
  - intros handled [k [min max]] rest i c0 Hl HP.
    eexists _, _. split; [reflexivity|].
    intros k'. rewrite lookup_insert_is_Some, map_app, elem_of_app, (HP k').
    cbn [map fst]. rewrite list_elem_of_singleton.
    destruct (decide (k = k')); intuition congruence.
  - intros k. rewrite lookup_empty. cbn [map]. rewrite elem_of_nil.
    split; [by intros [? ?]|done].
Qed.

Lemma crossover_dimensions (p1 p2 : Individual) (c : nat) :
  ∃ i c', crossover random o p1 p2 c = Some (i, c') ∧ has_dimensions (bounds o) i.
Proof.
  unfold crossover.
  pose (P := fun (handled : list string) (i : Individual) =>
    ∀ k, is_Some (i !! k) ↔ k ∈ handled).
  apply (for_of_invariant P).
  - intros handled k rest i c0 Hl HP.
    eexists _, _. split; [reflexivity|].
    intros k'. rewrite lookup_insert_is_Some, elem_of_app, (HP k').
    rewrite list_elem_of_singleton.
    destruct (decide (k = k')); intuition congruence.
  - intros k. rewrite lookup_empty, elem_of_nil.
    split; [by intros [? ?]|done].
Qed.

Lemma mutate_dimensions (i : Individual) (c : nat) :
  has_dimensions (bounds o) i →
  ∃ m c', mutate random o i c = Some (m, c') ∧ has_dimensions (bounds o) m.
Proof.
  intros Hi. unfold mutate.
  apply (for_of_invariant (fun _ m => has_dimensions (bounds o) m)); [|done].
  intros handled [k [min max]] rest m c0 Hl Hm.
  assert (Hin : k ∈ map fst (bounds o)).
  { rewrite Hl, map_app, elem_of_app. right. apply list_elem_of_here. }
  unfold bind, Math_random. case_bool_decide.
  - eexists _, _. split; [reflexivity|].
    intros k'. rewrite lookup_insert_is_Some, <- (Hm k').
    destruct (decide (k = k')) as [<-|Hne]; [|intuition congruence].
    apply Hm in Hin. intuition congruence.
  - eexists _, _. split; [reflexivity|done].
Qed.

Lemma fill_dimensions (todo : nat) (ev : list Evaluated) (newPop : list Individual)
    (c : nat) :
  ev ≠ [] →
  Forall (has_dimensions (bounds o)) newPop →
  ∃ pop' c', fill random o todo ev newPop c = Some (pop', c')
             ∧ Forall (has_dimensions (bounds o)) pop'.
Proof using random_unit.
  intros Hev. revert newPop c.
  induction todo as [|todo IH]; intros newPop c Hnew.
  - by exists newPop, c.
  - destruct (sel_member ev c Hev) as (e1 & c1 & Hsel1 & He1).
    destruct (sel_member ev c1 Hev) as (e2 & c2 & Hsel2 & He2).
    destruct (crossover_dimensions (ind e1) (ind e2) c2) as (child & c3 & Hcross & Hchild).
    destruct (mutate_dimensions child c3 Hchild) as (m & c4 & Hmut & Hm).
    destruct (IH (newPop ++ [m]) c4) as (pop' & c' & Hfill & Hpop').
    { apply Forall_app. split; [done|]. constructor; [exact Hm|constructor]. }
    exists pop', c'. split; [|done].
    cbn [fill]. unfold bind. by rewrite Hsel1, Hsel2, Hcross, Hmut.
Qed.

Lemma initial_population_dimensions (n c : nat) :
  ∃ pop0 c', initial_population random o n c = Some (pop0, c')
             ∧ Forall (has_dimensions (bounds o)) pop0.
Proof.
  revert c. induction n as [|n IH]; intros c.
  - exists [], c. by split.
  - destruct (createInd_dimensions c) as (i & c1 & Hcreate & Hi).
    destruct (IH c1) as (rest & c' & Hrest & Hall).
    exists (i :: rest), c'. split; [|by constructor].
    cbn [initial_population]. unfold bind. by rewrite Hcreate, Hrest.
Qed.

Lemma generation_body_dimensions (g : nat) (st : OptState) (c : nat) :
  Forall (has_dimensions (bounds o)) (pop st) →
  Forall (has_dimensions (bounds o)) (pop (run_state (generation_body random o g st c))).
Proof using random_unit.
  intros Hpop. unfold generation_body.
  destruct (evaluate o (pop st) !! 0%nat) as [ev0|] eqn:H0; [|done].
  destruct (if exceeds (fit ev0) (bestFit st)
            then (Fit (fit ev0), Some (ind ev0)) else (bestFit st, best st))
    as [bestFit' best'].
  destruct (evaluate o (pop st) !! 1%nat) as [ev1|] eqn:H1; [|done].
  assert (Hev : ∀ e, e ∈ evaluate o (pop st) → has_dimensions (bounds o) (ind e)).
  { intros e He. apply evaluate_member in He.
    by apply (proj1 (list.Forall_forall _ _) Hpop). }
  destruct (fill_dimensions (popSize o - 2) (evaluate o (pop st)) [ind ev0; ind ev1] c)
    as (newPop & c' & -> & Hnew).
  - intros Hnil. by rewrite Hnil in H0.
  - apply list_elem_of_lookup_2 in H0, H1.
    constructor; [by apply Hev|]. constructor; [by apply Hev|constructor].
  - done.
Qed.

Lemma after_generations_dimensions (g c : nat) :
  Forall (has_dimensions (bounds o))
    (pop (run_state (after_generations random o g c))).
Proof using random_unit.
  induction g as [|g IH]; cbn [after_generations].
  - by destruct (initial_population_dimensions (popSize o) c) as (pop0 & c' & -> & H).
  - destruct (after_generations random o g c) as [st c'|st]; [|done].
    by apply generation_body_dimensions.
Qed.

End WithinBounds.

Lemma cycle_of_ten_unit : unit_interval cycle_of_ten.
Proof.
  intros n. unfold cycle_of_ten.
  assert (Hr : ((n * 7 + 3) mod 10 < 10)%nat) by (apply Nat.mod_upper_bound; lia).
  generalize dependent ((n * 7 + 3) mod 10)%nat. intros r Hr.
  do 10 (destruct r as [|r]; [split; by vm_compute|]). lia.
Qed.

Lemma zeros_then_0_4375_unit : unit_interval zeros_then_0_4375.
Proof.
  intros n. unfold zeros_then_0_4375. destruct (n <? 3)%nat; split; by vm_compute.
Qed.

Lemma escaping_run_well_formed : well_formed_bounds (bounds escaping_run).
Proof.
  split.
  - apply (bool_decide_unpack _). by vm_compute.
  - intros k min max Hin. apply list_elem_of_In in Hin. cbn in Hin.
    destruct Hin as [[= <- <- <-]|[]]. by vm_compute.
Qed.

(** C9. A child of the blend crossover can leave the bounds of the search
    space.  With one dimension [Bi] between 0.9 and 5, a population of three
    and random numbers that are 0 three times and 0.4375 from then on (each
    in [0, 1)), the three individuals created have [Bi] on the lower bound,
    the binary64 number 0.9; the blend [a * p1 + (1 - a) * p2] of two of
    them with [a = 0.4375] is rounded to the binary64 number below, and no
    mutation clamps it: the population left by the first generation holds
    an individual outside the bounds. *)
Theorem crossover_child_leaves_bounds :
  unit_interval zeros_then_0_4375 ∧ well_formed_bounds (bounds escaping_run)
  ∧ ∃ i0 i1 child : Individual,
      pop (run_state (after_generations zeros_then_0_4375 escaping_run 1 0))
      = [i0; i1; child]
      ∧ i0 !! "Bi"%string = Some (binary64 (lit 0.9))
      ∧ i1 !! "Bi"%string = Some (binary64 (lit 0.9))
      ∧ child !! "Bi"%string = Some (binary64 (lit 0.9) - Q2Qc (1 # 9007199254740992))
      ∧ ¬ within_bounds (bounds escaping_run) child.
Proof.
  split; [exact zeros_then_0_4375_unit|].
  split; [exact escaping_run_well_formed|].
  eexists _, _, _. split; [by vm_compute|].
  assert (Hvalue : ∀ (a b : Qc), Qeq a b → Some a = Some b).
  { intros a b Hab. f_equal. by apply Qc_is_canon. }
  split; [apply Hvalue; by vm_compute|].
  split; [apply Hvalue; by vm_compute|].
  split; [apply Hvalue; by vm_compute|].
  intros Hchild.
  destruct (Hchild "Bi"%string (binary64 (lit 0.9)) (lit 5)) as (v & Hv & Hlow & _).
  { apply list_elem_of_here. }
  revert Hlow. injection Hv as <-. by vm_compute.
Qed.

(** * Further properties of the code *)

(** ** The time loop: what is recorded, and when *)

Section Recording.

Variable p : Params.
Variables tauFinal dtau : Qc.
Variable saveFreq : nat.

Lemma saved_spec (n : nat) :
  saved tauFinal dtau saveFreq n
  = ((n mod saveFreq =? 0)%nat || (n =? Nt tauFinal dtau)%nat)%bool.
Proof. done. Qed.

Lemma after_steps_times (n : nat) :
  tauHistory (snd (after_steps p tauFinal dtau saveFreq n))
  = 0 :: map (fun k => of_nat k * dtau)
           (List.filter (saved tauFinal dtau saveFreq) (seq 1 n)).
Proof.
  induction n as [|n IH]; [done|].
  rewrite after_steps_S. unfold time_loop_body.
  destruct (after_steps p tauFinal dtau saveFreq n) as [s hist].
  cbn [snd] in IH. rewrite seq_S, List.filter_app. cbn [List.filter Nat.add].
  fold (saved tauFinal dtau saveFreq (S n)).
  destruct (saved tauFinal dtau saveFreq (S n)); cbn [snd tauHistory].
  - by rewrite IH, map_app.
  - by rewrite IH, app_nil_r.
Qed.

Lemma picard_sweep_sized (W_old Theta_old : list Qc) (s : Fields) :
  well_sized p s → well_sized p (fst (picard_sweep p dtau W_old Theta_old s)).
Proof.
  intros (HW & HT & HWp). unfold picard_sweep, well_sized. cbv zeta.
  cbn [fst W Theta Wp]. split; [|split].
  - by rewrite !length_insert, for_insert_length.
  - by rewrite !length_insert, for_insert_length.
  - by rewrite !deriv_length.
Qed.

Lemma picard_iterate_sized (j : nat) (W_old Theta_old : list Qc) (s : Fields) :
  well_sized p s → well_sized p (picard_iterate p dtau j W_old Theta_old s).
Proof.
  intros Hs. induction j as [|j IH]; [done|].
  cbn [picard_iterate]. by apply picard_sweep_sized.
Qed.

Lemma time_step_sized (s : Fields) :
  well_sized p s → well_sized p (fst (time_step p dtau s)).
Proof.
  intros Hs. unfold time_step.
  destruct (picard_loop_spec p dtau picard_budget (W s) (Theta s) s 0)
    as (k & -> & _).
  cbn [fst]. by apply picard_iterate_sized.
Qed.

Lemma after_steps_sizes (n : nat) :
  sizes_invariant p (after_steps p tauFinal dtau saveFreq n).
Proof.
  induction n as [|n IH].
  - rewrite after_steps_0. unfold sizes_invariant.
    cbn [fst snd history0 tauHistory WHistory ThetaHistory CfLowerHistory
         CfUpperHistory length].
    split; [apply fields0_well_sized|].
    split; [repeat constructor; apply W_init_length|].
    split; [repeat constructor; apply Theta_init_length|done].
  - rewrite after_steps_S. unfold time_loop_body.
    destruct (after_steps p tauFinal dtau saveFreq n) as [s hist].
    destruct IH as (Hs & HW & HT & HlW & HlT & HlL & HlU). cbn [fst snd] in *.
    pose proof (time_step_sized s Hs) as (HW1 & HT1 & HWp1).
    destruct ((S n mod saveFreq =? 0)%nat || (S n =? Nt tauFinal dtau)%nat)%bool;
      unfold sizes_invariant, well_sized;
      cbn [fst snd W Theta Wp tauHistory WHistory ThetaHistory CfLowerHistory
           CfUpperHistory].
    + rewrite deriv_length, !length_app. cbn [length].
      split; [done|].
      split; [apply Forall_app; split; [done|by repeat constructor]|].
      split; [apply Forall_app; split; [done|by repeat constructor]|].
      lia.
    + done.
Qed.

(** There is always a first sample. *)
Lemma history_not_empty (n : nat) :
  CfLowerHistory (snd (after_steps p tauFinal dtau saveFreq n)) ≠ [].
Proof.
  pose proof (after_steps_sizes n) as (_ & _ & _ & _ & _ & HlC & _).
  rewrite after_steps_times in HlC. intros Hnil. by rewrite Hnil in HlC.
Qed.

Lemma after_steps_full_S (n : nat) :
  after_steps_full p tauFinal dtau saveFreq (S n)
  = time_loop_body_full p tauFinal dtau saveFreq (S n)
      (after_steps_full p tauFinal dtau saveFreq n).
Proof.
  unfold after_steps_full. replace (S n + 1)%nat with (S (n + 1)) by lia.
  rewrite for_range_snoc by lia. by replace (n + 1)%nat with (S n) by lia.
Qed.

(** The loop with the heat flux runs the loop without it. *)
Lemma after_steps_full_fst (n : nat) :
  fst (after_steps_full p tauFinal dtau saveFreq n)
  = after_steps p tauFinal dtau saveFreq n.
Proof.
  induction n as [|n IH]; [done|].
  rewrite after_steps_full_S, after_steps_S. unfold time_loop_body_full.
  destruct (after_steps_full p tauFinal dtau saveFreq n) as [core fl].
  cbn [fst] in IH. subst core.
  by destruct (saved tauFinal dtau saveFreq (S n)).
Qed.

Lemma deriv_get_N (F Fp : list Qc) :
  length Fp = (N p + 1)%nat →
  (deriv p F Fp).[N p] = (F.[N p] - F.[N p - 1]) / h p.
Proof.
  intros Hlen. unfold deriv.
  rewrite get_insert_eq; [done|]. rewrite length_insert, for_insert_length. lia.
Qed.

Lemma after_steps_full_fluxes (n : nat) :
  (1 <= N p)%nat →
  flux_invariant p (after_steps_full p tauFinal dtau saveFreq n).
Proof.
  intros HN. induction n as [|n IH].
  - unfold flux_invariant, after_steps_full.
    cbn [for_range Nat.sub Nat.add seq fold_left fst snd fluxes0 history0 fields0
         Thetap NuLowerHistory NuUpperHistory WHistory ThetaHistory
         CfLowerHistory CfUpperHistory Wp].
    replace (1 + 0 - 1)%nat with 0%nat by lia.
    cbn [seq fold_left fst snd fluxes0 history0 fields0
         Thetap NuLowerHistory NuUpperHistory WHistory ThetaHistory
         CfLowerHistory CfUpperHistory Wp].
    rewrite deriv_length, length_replicate.
    rewrite !deriv_get_0, !deriv_get_N by (done || by rewrite length_replicate).
    split; [done|]. by repeat constructor.
  - pose proof (after_steps_sizes n) as (Hs & _).
    rewrite <- after_steps_full_fst in Hs.
    rewrite after_steps_full_S. unfold time_loop_body_full, time_loop_body.
    destruct (after_steps_full p tauFinal dtau saveFreq n) as [[s hist] fl].
    destruct IH as (Hlen & HL & HU & HnL & HnU). cbn [fst snd] in *.
    pose proof (time_step_sized s Hs) as (HW1 & HT1 & HWp1).
    fold (saved tauFinal dtau saveFreq (S n)).
    destruct (saved tauFinal dtau saveFreq (S n)); unfold flux_invariant;
      cbn [fst snd W Theta Wp tauHistory WHistory ThetaHistory CfLowerHistory
           CfUpperHistory Thetap NuLowerHistory NuUpperHistory].
    + rewrite deriv_length.
      rewrite !deriv_get_0, !deriv_get_N by done.
      split; [done|].
      repeat split; (apply Forall2_app; [done|by repeat constructor]).
    + done.
Qed.

Lemma time_loop_body_fields (n : nat) (st : Fields * History) :
  W (fst (time_loop_body p tauFinal dtau saveFreq n st))
  = W (fst (time_step p dtau (fst st)))
  ∧ Theta (fst (time_loop_body p tauFinal dtau saveFreq n st))
    = Theta (fst (time_step p dtau (fst st))).
Proof.
  unfold time_loop_body. destruct st as [s hist].
  by destruct (_ || _)%bool.
Qed.

(** The first sample is never overwritten. *)
Lemma after_steps_full_first (n : nat) :
  let st := after_steps_full p tauFinal dtau saveFreq n in
  (∃ rest, WHistory (snd (fst st)) = W_init p :: rest)
  ∧ (∃ rest, ThetaHistory (snd (fst st)) = Theta_init p :: rest)
  ∧ (∃ rest, CfLowerHistory (snd (fst st)) = A1 p * (Wp (fields0 p)).[0] :: rest)
  ∧ (∃ rest, CfUpperHistory (snd (fst st)) = A1 p * (Wp (fields0 p)).[N p] :: rest)
  ∧ (∃ rest, NuLowerHistory (snd st)
             = - A3 p * (Thetap (fluxes0 p)).[0] :: rest)
  ∧ (∃ rest, NuUpperHistory (snd st)
             = - A3 p * (Thetap (fluxes0 p)).[N p] :: rest).
Proof.
  cbv zeta. induction n as [|n IH].
  - repeat split; by exists [].
  - rewrite after_steps_full_S. unfold time_loop_body_full, time_loop_body.
    destruct (after_steps_full p tauFinal dtau saveFreq n) as [[s hist] fl].
    cbn [fst snd] in *. fold (saved tauFinal dtau saveFreq (S n)).
    destruct (saved tauFinal dtau saveFreq (S n)); [|done].
    cbn [fst snd WHistory ThetaHistory CfLowerHistory CfUpperHistory
         NuLowerHistory NuUpperHistory].
    destruct IH as ((r1 & ->) & (r2 & ->) & (r3 & ->) & (r4 & ->) & (r5 & ->) & (r6 & ->)).
    repeat split; eexists; apply eq_sym, app_comm_cons.
Qed.


End Recording.

Lemma get_last_snoc (l : list Qc) (x : Qc) : (l ++ [x]).[length (l ++ [x]) - 1] = x.
Proof.
  rewrite length_app. cbn [length].
  replace (length l + 1 - 1)%nat with (length l) by lia. apply get_snoc_r.
Qed.

(** The number of steps as the source counts it: four steps of 0.25 to 1,
    fifty steps of 0.04 to 2 ([solveQuick]), and 114 steps of 0.02 to 2.3,
    where the exact quotient is 115; a step of zero never ends. *)
Example steps_counted :
  Nt_binary64 1 (lit 0.25) = Some 4%nat ∧ Nt 1 (lit 0.25) = 4%nat
  ∧ Nt_binary64 2 (lit 0.04) = Some 50%nat ∧ Nt 2 (lit 0.04) = 50%nat
  ∧ Nt_binary64 (lit 2.3) (lit 0.02) = Some 114%nat ∧ Nt (lit 2.3) (lit 0.02) = 115%nat
  ∧ Nt_binary64 1 0 = None.
Proof. repeat split; by vm_compute. Qed.

(** X1. When the source counts as many steps as the exact quotient gives
    (and so the time loop ends), the samples are taken at time 0 and after
    every step whose number is a multiple of [saveFreq], and after the last
    step; the last recorded time is [Nt * dtau]. *)
Theorem sample_times (p : Params) (tauFinal dtau : Qc) (saveFreq : nat) :
  Nt_binary64 tauFinal dtau = Some (Nt tauFinal dtau) →
  let hist := sol_history (solveUnsteadyMHDCouette p tauFinal dtau saveFreq) in
  tauHistory hist
  = 0 :: map (fun n => of_nat n * dtau)
           (List.filter
              (fun n => (n mod saveFreq =? 0)%nat || (n =? Nt tauFinal dtau)%nat)
              (seq 1 (Nt tauFinal dtau)))
  ∧ (tauHistory hist).[length (tauHistory hist) - 1] = of_nat (Nt tauFinal dtau) * dtau.
Proof.
  intros _. cbv zeta. unfold solveUnsteadyMHDCouette. cbn [sol_history].
  rewrite after_steps_times.
  split; [done|].
  destruct (Nt tauFinal dtau) as [|m] eqn:HNt.
  - cbn. change (of_nat 0) with 0. ring.
  - assert (Hlist : List.filter (saved tauFinal dtau saveFreq) (seq 1 (S m))
                    = List.filter (saved tauFinal dtau saveFreq) (seq 1 m) ++ [S m]).
    { rewrite seq_S, List.filter_app. cbn [List.filter Nat.add].
      unfold saved at 2. by rewrite HNt, Nat.eqb_refl, orb_true_r. }
    rewrite Hlist, map_app. cbn [map]. rewrite app_comm_cons.
    apply get_last_snoc.
Qed.

Lemma sample_times_witness :
  Nt_binary64 1 (lit 0.25) = Some (Nt 1 (lit 0.25))
  ∧ tauHistory (sol_history (solveUnsteadyMHDCouette driven 1 (lit 0.25) 2))
    = 0 :: map (fun n => of_nat n * lit 0.25)
             (List.filter (fun n => (n mod 2 =? 0)%nat || (n =? Nt 1 (lit 0.25))%nat)
                (seq 1 (Nt 1 (lit 0.25)))).
Proof.
  assert (Hsteps : Nt_binary64 1 (lit 0.25) = Some (Nt 1 (lit 0.25))) by by vm_compute.
  split; [exact Hsteps|].
  exact (proj1 (sample_times driven 1 (lit 0.25) 2 Hsteps)).
Defined.


(** X3. The recorded wall fluxes are one-sided differences of the recorded
    profiles: at every sample the skin friction is [A1] times the
    difference of the velocity over the first (lower plate) or last (upper
    plate) interval divided by [h], and the Nusselt number is [-A3] times
    that difference of the temperature. *)
Theorem wall_fluxes_from_profiles (p : Params) (tauFinal dtau : Qc) (saveFreq : nat) :
  (1 <= N p)%nat →
  let full := after_steps_full p tauFinal dtau saveFreq (Nt tauFinal dtau) in
  let hist := sol_history (solveUnsteadyMHDCouette p tauFinal dtau saveFreq) in
  Forall2 (fun Wt cf => cf = A1 p * ((Wt.[1] - Wt.[0]) / h p))
    (WHistory hist) (CfLowerHistory hist)
  ∧ Forall2 (fun Wt cf => cf = A1 p * ((Wt.[N p] - Wt.[N p - 1]) / h p))
      (WHistory hist) (CfUpperHistory hist)
  ∧ Forall2 (fun Thetat nu => nu = - A3 p * ((Thetat.[1] - Thetat.[0]) / h p))
      (ThetaHistory hist) (NuLowerHistory (snd full))
  ∧ Forall2 (fun Thetat nu => nu = - A3 p * ((Thetat.[N p] - Thetat.[N p - 1]) / h p))
      (ThetaHistory hist) (NuUpperHistory (snd full)).
Proof.
  intros HN. cbv zeta. unfold solveUnsteadyMHDCouette. cbn [sol_history].
  pose proof (after_steps_full_fluxes p tauFinal dtau saveFreq (Nt tauFinal dtau) HN)
    as (_ & H). unfold flux_invariant in H. cbv zeta in H.
  by rewrite after_steps_full_fst in H.
Qed.

Lemma wall_fluxes_from_profiles_witness :
  (1 <= N (baseline 4))%nat
  ∧ Forall2 (fun Wt cf => cf = A1 (baseline 4) * ((Wt.[1] - Wt.[0]) / h (baseline 4)))
      (WHistory (sol_history (solveUnsteadyMHDCouette (baseline 4) (lit 0.08) (lit 0.04) 1)))
      (CfLowerHistory (sol_history (solveUnsteadyMHDCouette (baseline 4) (lit 0.08) (lit 0.04) 1))).
Proof.
  assert (HN : (1 <= N (baseline 4))%nat) by (vm_compute; lia).
  split; [exact HN|].
  exact (proj1 (wall_fluxes_from_profiles (baseline 4) (lit 0.08) (lit 0.04) 1 HN)).
Defined.

Lemma Qc_pos_ne (x : Qc) : 0 < x → x ≠ 0.
Proof. intros Hx ->. by apply (Qclt_not_eq 0 0). Qed.

Lemma of_nat_S (n : nat) : of_nat (S n) = of_nat n + 1.
Proof.
  apply Qc_is_canon. unfold of_nat. cbn [this Q2Qc Qcplus].
  rewrite !Qred_correct. rewrite Nat2Z.inj_succ. unfold Z.succ.
  rewrite inject_Z_plus. reflexivity.
Qed.

(** The two assignments at the upper plate, as conditions on the values
    they leave. *)
Lemma slip_condition (re lam wN wN1 hh : Qc) :
  0 < hh → 0 <= lam →
  wN = (re + lam * wN1 / hh) / (1 + lam / hh) →
  wN + lam * ((wN - wN1) / hh) = re.
Proof.
  intros Hh Hl ->.
  assert (hh ≠ 0) by by apply Qc_pos_ne.
  assert (hh + lam ≠ 0).
  { apply Qc_pos_ne. generalize dependent hh. generalize dependent lam. intros. qc_positive. }
  field. by split.
Qed.

Lemma robin_condition (bi tN tN1 hh : Qc) :
  0 < hh → 0 <= bi →
  tN = tN1 / (1 + hh * bi) →
  (tN - tN1) / hh + bi * tN = 0.
Proof.
  intros Hh Hb ->.
  assert (hh ≠ 0) by by apply Qc_pos_ne.
  assert (1 + hh * bi ≠ 0).
  { apply Qc_pos_ne. generalize dependent hh. generalize dependent bi. intros. qc_positive. }
  field. by split.
Qed.

(** X4. With valid parameters and a positive time step, after every time
    step the fields satisfy the discrete conditions of the upper plate: the
    Navier slip condition [W_N + lambda (W_N - W_(N-1)) / h = Re] and the
    convective condition [(Theta_N - Theta_(N-1)) / h + Bi Theta_N = 0]. *)
Theorem upper_plate_conditions
    (p : Params) (tauFinal dtau : Qc) (saveFreq : nat) (n : nat) :
  valid_params p → 0 < dtau → (1 <= n)%nat →
  let s := fst (after_steps p tauFinal dtau saveFreq n) in
  (W s).[N p] + lambda p * (((W s).[N p] - (W s).[N p - 1]) / h p) = Re p
  ∧ ((Theta s).[N p] - (Theta s).[N p - 1]) / h p + Bi p * (Theta s).[N p] = 0.
Proof.
  intros Hvalid Hdtau Hn. cbv zeta.
  destruct (denominators_positive p dtau Hvalid Hdtau) as (Hh & _).
  assert (HN : (1 <= N p)%nat) by (unfold valid_params in Hvalid; tauto).
  assert (Hl : 0 <= lambda p) by (unfold valid_params in Hvalid; tauto).
  assert (HBi : 0 <= Bi p) by (unfold valid_params in Hvalid; tauto).
  destruct n as [|m]; [lia|].
  rewrite after_steps_S.
  destruct (time_loop_body_fields p tauFinal dtau saveFreq (S m)
              (after_steps p tauFinal dtau saveFreq m)) as [-> ->].
  pose proof (after_steps_sizes p tauFinal dtau saveFreq m) as (Hs & _).
  destruct (time_step_boundary p dtau _ HN Hs) as (_ & _ & _ & Hslip & Hrobin).
  split; [by apply slip_condition|by apply robin_condition].
Qed.

Lemma upper_plate_conditions_witness :
  valid_params (baseline 4) ∧ 0 < lit 0.04 ∧ (1 <= 2)%nat
  ∧ (W (fst (after_steps (baseline 4) (lit 0.08) (lit 0.04) 1 2))).[4]
    + lambda (baseline 4)
      * (((W (fst (after_steps (baseline 4) (lit 0.08) (lit 0.04) 1 2))).[4]
          - (W (fst (after_steps (baseline 4) (lit 0.08) (lit 0.04) 1 2))).[3])
         / h (baseline 4))
    = Re (baseline 4).
Proof.
  assert (Hvalid : valid_params (baseline 4)) by (apply baseline_valid; lia).
  assert (Hdtau : 0 < lit 0.04) by by vm_compute.
  split; [exact Hvalid|]. split; [exact Hdtau|]. split; [lia|].
  exact (proj1 (upper_plate_conditions (baseline 4) (lit 0.08) (lit 0.04) 1 2
                  Hvalid Hdtau ltac:(lia))).
Defined.

Lemma h_times_N (p : Params) : (1 <= N p)%nat → of_nat (N p) * h p = 1.
Proof.
  intros HN. unfold h. field. apply Qc_pos_ne. by apply of_nat_pos.
Qed.

(** X5. The grid has [N + 1] nodes from 0 to 1, [h] apart. *)
Theorem grid_nodes (p : Params) (tauFinal dtau : Qc) (saveFreq : nat) :
  (1 <= N p)%nat →
  let grid := sol_eta (solveUnsteadyMHDCouette p tauFinal dtau saveFreq) in
  length grid = (N p + 1)%nat
  ∧ grid.[0] = 0
  ∧ grid.[N p] = 1
  ∧ ∀ i, (i < N p)%nat → grid.[i + 1] = grid.[i] + h p.
Proof.
  intros HN. cbv zeta. unfold solveUnsteadyMHDCouette. cbn [sol_eta].
  split; [unfold eta; by rewrite length_map, length_seq|].
  split; [rewrite eta_get by lia; change (of_nat 0) with 0; ring|].
  split; [rewrite eta_get by lia; by apply h_times_N|].
  intros i Hi. rewrite !eta_get by lia.
  replace (i + 1)%nat with (S i) by lia. rewrite of_nat_S. ring.
Qed.

Lemma grid_nodes_witness :
  (1 <= N (baseline 4))%nat
  ∧ (sol_eta (solveUnsteadyMHDCouette (baseline 4) (lit 0.08) (lit 0.04) 1)).[N (baseline 4)] = 1.
Proof.
  assert (HN : (1 <= N (baseline 4))%nat) by (vm_compute; lia).
  split; [exact HN|].
  exact (proj1 (proj2 (proj2 (grid_nodes (baseline 4) (lit 0.08) (lit 0.04) 1 HN)))).
Defined.

(** X6. With valid parameters the first sample has the same skin friction
    [A1 Re / (1 + lambda)] at both plates, and the same Nusselt number
    [A3 Bi / (1 + Bi)] at both plates. *)
Theorem initial_wall_fluxes (p : Params) (tauFinal dtau : Qc) (saveFreq : nat) :
  valid_params p →
  let full := after_steps_full p tauFinal dtau saveFreq (Nt tauFinal dtau) in
  let hist := sol_history (solveUnsteadyMHDCouette p tauFinal dtau saveFreq) in
  (CfLowerHistory hist).[0] = A1 p * Re p / (1 + lambda p)
  ∧ (CfUpperHistory hist).[0] = A1 p * Re p / (1 + lambda p)
  ∧ (NuLowerHistory (snd full)).[0] = A3 p * Bi p / (1 + Bi p)
  ∧ (NuUpperHistory (snd full)).[0] = A3 p * Bi p / (1 + Bi p).
Proof.
  intros Hvalid. cbv zeta.
  assert (HN : (1 <= N p)%nat) by (unfold valid_params in Hvalid; tauto).
  assert (Hh : 0 < h p).
  { unfold h. apply Qcdiv_pos; [by vm_compute|by apply of_nat_pos]. }
  assert (Hl : 1 + lambda p ≠ 0).
  { apply Qc_pos_ne. destruct Hvalid as (_ & _ & _ & _ & _ & _ & _ & _ & _ & _ & Hl & _).
    generalize dependent (lambda p). intros. qc_positive. }
  assert (HBi : 1 + Bi p ≠ 0).
  { apply Qc_pos_ne. destruct Hvalid as (_ & _ & _ & _ & _ & _ & _ & _ & _ & HBi & _).
    generalize dependent (Bi p). intros. qc_positive. }
  apply Qc_pos_ne in Hh.
  unfold solveUnsteadyMHDCouette. cbn [sol_history].
  destruct (after_steps_full_first p tauFinal dtau saveFreq (Nt tauFinal dtau))
    as (_ & _ & (r3 & H3) & (r4 & H4) & (r5 & H5) & (r6 & H6)).
  cbv zeta in *. rewrite after_steps_full_fst in H3, H4.
  rewrite H3, H4, H5, H6. unfold get at 1 3 5 7. cbn [nth].
  unfold fields0, fluxes0. cbn [Wp Thetap].
  rewrite !deriv_get_0, !deriv_get_N by (done || by rewrite length_replicate).
  rewrite !W_init_get, !Theta_init_get by lia.
  assert (HNN : of_nat (N p) = of_nat (N p - 1) + 1).
  { rewrite <- of_nat_S. f_equal. lia. }
  rewrite HNN. change (of_nat 1) with 1. change (of_nat 0) with 0.
  repeat split; by field.
Qed.

Lemma initial_wall_fluxes_witness :
  valid_params (baseline 4)
  ∧ (CfLowerHistory (sol_history
       (solveUnsteadyMHDCouette (baseline 4) (lit 0.08) (lit 0.04) 1))).[0]
    = A1 (baseline 4) * Re (baseline 4) / (1 + lambda (baseline 4)).
Proof.
  assert (Hvalid : valid_params (baseline 4)) by (apply baseline_valid; lia).
  split; [exact Hvalid|].
  exact (proj1 (initial_wall_fluxes (baseline 4) (lit 0.08) (lit 0.04) 1 Hvalid)).
Defined.

(** ** The energy integrals *)

Lemma Qcmult_nonneg (a b : Qc) : 0 <= a → 0 <= b → 0 <= a * b.
Proof. intros. qc_positive. Qed.

Lemma Qcplus_nonneg (a b : Qc) : 0 <= a → 0 <= b → 0 <= a + b.
Proof. intros. qc_positive. Qed.

Lemma sq_nonneg (x : Qc) : 0 <= sq x.
Proof. unfold sq. qc_positive. Qed.

Lemma energy_sample_TE (p : Params) (Wt Thetat : list Qc) :
  TE (energy_sample p Wt Thetat) = trapezoid (h p) (fun i => Thetat.[i]) (N p).
Proof.
  unfold energy_sample, trapezoid.
  apply (for_range_invariant
           (fun n e => TE e = sum_n (fun i => (Thetat.[i] + Thetat.[i + 1]) / 2 * h p) n));
    [lia|done|].
  intros i e _ IH. cbn [TE sum_n]. by rewrite IH, half_times.
Qed.

Lemma energy_sample_nonneg (p : Params) (Wt Thetat : list Qc) :
  valid_params p →
  0 <= KE (energy_sample p Wt Thetat)
  ∧ 0 <= VD (energy_sample p Wt Thetat)
  ∧ 0 <= JH (energy_sample p Wt Thetat).
Proof.
  intros (HA1 & HA2 & _ & _ & _ & HHa & _ & HPr & HEc & _ & _ & _ & HN).
  assert (Hh : 0 <= h p).
  { apply Qclt_le_weak. unfold h. apply Qcdiv_pos; [by vm_compute|by apply of_nat_pos]. }
  apply Qclt_le_weak in HA1, HA2, HPr.
  unfold energy_sample.
  apply (for_range_invariant (fun _ e => 0 <= KE e ∧ 0 <= VD e ∧ 0 <= JH e));
    [lia|by vm_compute|].
  intros i e _ (HK & HV & HJ). cbn [KE VD JH].
  split; [|split]; (apply Qcplus_nonneg; [done|]).
  - apply Qcmult_nonneg; [|done]. apply Qcmult_nonneg; [by vm_compute|].
    apply Qcplus_nonneg; apply sq_nonneg.
  - apply Qcmult_nonneg; [|done]. apply Qcmult_nonneg; [|apply sq_nonneg].
    repeat apply Qcmult_nonneg; done.
  - apply Qcmult_nonneg; [|done]. apply Qcmult_nonneg; [|apply sq_nonneg].
    repeat apply Qcmult_nonneg; done.
Qed.

Lemma energy_sample_no_dissipation (p : Params) (Wt Thetat : list Qc) :
  Ec p = 0 →
  VD (energy_sample p Wt Thetat) = 0 ∧ JH (energy_sample p Wt Thetat) = 0.
Proof.
  intros HEc. unfold energy_sample.
  apply (for_range_invariant (fun _ e => VD e = 0 ∧ JH e = 0)); [lia|done|].
  intros i e _ (HV & HJ). cbn [VD JH]. rewrite HV, HJ, HEc. split; ring.
Qed.

Lemma energy_sample_no_field (p : Params) (Wt Thetat : list Qc) :
  Ha p = 0 → JH (energy_sample p Wt Thetat) = 0.
Proof.
  intros HHa. unfold energy_sample.
  apply (for_range_invariant (fun _ e => JH e = 0)); [lia|done|].
  intros i e _ HJ. cbn [JH]. rewrite HJ, HHa. ring.
Qed.

Lemma energy_histories_Forall (p : Params) (P : Energies → Prop)
    (WHist ThetaHist : list (list Qc)) :
  (∀ Wt Thetat, P (energy_sample p Wt Thetat)) →
  Forall P (energy_histories p WHist ThetaHist).
Proof.
  intros HP. unfold energy_histories. rewrite push_loop_map.
  apply list.Forall_forall. intros e He.
  apply list_elem_of_In, in_map_iff in He. destruct He as (t & <- & _). apply HP.
Qed.

Lemma energy_histories_Forall_nth (p : Params) (P : Energies → Prop)
    (WHist ThetaHist : list (list Qc)) :
  (∀ t, P (energy_sample p (nth t WHist []) (nth t ThetaHist []))) →
  Forall P (energy_histories p WHist ThetaHist).
Proof.
  intros HP. unfold energy_histories. rewrite push_loop_map.
  apply list.Forall_forall. intros e He.
  apply list_elem_of_In, in_map_iff in He. destruct He as (t & <- & _). apply HP.
Qed.

(** X7. At every sample the recorded thermal energy is the trapezoidal rule
    over the grid applied to the recorded temperature profile. *)
Theorem thermal_energy_trapezoid (p : Params) (tauFinal dtau : Qc) (saveFreq : nat) :
  let sol := solveUnsteadyMHDCouette p tauFinal dtau saveFreq in
  thermalEnergy sol
  = map (fun Thetat => trapezoid (h p) (fun i => Thetat.[i]) (N p))
        (ThetaHistory (sol_history sol)).
Proof.
  cbv zeta. unfold solveUnsteadyMHDCouette. cbn [thermalEnergy sol_history].
  pose proof (after_steps_sizes p tauFinal dtau saveFreq (Nt tauFinal dtau))
    as (_ & _ & _ & HlW & HlT & _).
  set (hist := snd (after_steps p tauFinal dtau saveFreq (Nt tauFinal dtau))) in *.
  unfold energy_histories. rewrite push_loop_map, map_map.
  replace (length (WHistory hist)) with (length (ThetaHistory hist)) by congruence.
  rewrite <- (map_nth_seq _ (ThetaHistory hist) []).
  apply map_ext. intros t. apply energy_sample_TE.
Qed.

(** X8. With valid parameters, the recorded kinetic energy, viscous
    dissipation and Joule heating are never negative; without viscous
    heating ([Ec = 0]) the last two are zero at every sample, and without
    magnetic field ([Ha = 0]) the Joule heating is. *)
Theorem energies_nonnegative (p : Params) (tauFinal dtau : Qc) (saveFreq : nat) :
  valid_params p → 0 < dtau →
  let sol := solveUnsteadyMHDCouette p tauFinal dtau saveFreq in
  Forall (fun e => 0 <= e) (kineticEnergy sol)
  ∧ Forall (fun e => 0 <= e) (viscousDissipation sol)
  ∧ Forall (fun e => 0 <= e) (jouleHeating sol)
  ∧ (Ec p = 0 → Forall (fun e => e = 0) (viscousDissipation sol)
                ∧ Forall (fun e => e = 0) (jouleHeating sol))
  ∧ (Ha p = 0 → Forall (fun e => e = 0) (jouleHeating sol)).
Proof.
  intros Hvalid _. cbv zeta. unfold solveUnsteadyMHDCouette.
  cbn [kineticEnergy viscousDissipation jouleHeating].
  set (hist := snd (after_steps p tauFinal dtau saveFreq (Nt tauFinal dtau))).
  rewrite !Forall_map.
  split; [|split; [|split; [|split]]].
  - apply energy_histories_Forall. intros. by apply energy_sample_nonneg.
  - apply energy_histories_Forall. intros. by apply energy_sample_nonneg.
  - apply energy_histories_Forall. intros. by apply energy_sample_nonneg.
  - intros HEc.
    split; apply energy_histories_Forall; intros; by apply energy_sample_no_dissipation.
  - intros HHa. apply energy_histories_Forall. intros. by apply energy_sample_no_field.
Qed.

Lemma energies_nonnegative_witness :
  valid_params (baseline 4) ∧ 0 < lit 0.04
  ∧ Forall (fun e => 0 <= e)
      (kineticEnergy (solveUnsteadyMHDCouette (baseline 4) (lit 0.08) (lit 0.04) 1)).
Proof.
  assert (Hvalid : valid_params (baseline 4)) by (apply baseline_valid; lia).
  assert (Hdtau : 0 < lit 0.04) by by vm_compute.
  split; [exact Hvalid|]. split; [exact Hdtau|].
  exact (proj1 (energies_nonnegative (baseline 4) (lit 0.08) (lit 0.04) 1 Hvalid Hdtau)).
Defined.

(** ** The rise times *)

Section RiseSearch.

Variable tauFinal : Qc.
Variables tauHist CfHist : list Qc.
Variable CfFinal : Qc.

(** The search stops at the first sample that reaches the 95% level. *)
Lemma rise_loop_first_95 (d lo : nat) (t63 t95 : Qc) :
  (∃ i, (lo <= i < lo + d)%nat ∧ lit 0.95 * Math_abs CfFinal <= Math_abs CfHist.[i]) →
  ∃ i, (lo <= i < lo + d)%nat
       ∧ lit 0.95 * Math_abs CfFinal <= Math_abs CfHist.[i]
       ∧ (∀ j, (lo <= j < i)%nat → Math_abs CfHist.[j] < lit 0.95 * Math_abs CfFinal)
       ∧ snd (rise_loop tauFinal tauHist CfHist CfFinal (seq lo d) t63 t95) = tauHist.[i].
Proof.
  revert lo t63 t95. induction d as [|d IH]; intros lo t63 t95 (i & Hi & Hreach).
  - lia.
  - cbn [seq rise_loop]. case_bool_decide as Hc95.
    + exists lo. split; [lia|]. split; [done|]. split; [intros j Hj; lia|done].
    + destruct (decide (i = lo)) as [->|Hne]; [done|].
      destruct (IH (S lo) (if (bool_decide (lit 0.63 * Math_abs CfFinal <= Math_abs CfHist.[lo])
                              && bool_decide (t63 = tauFinal))%bool
                       then tauHist.[lo] else t63) t95) as (k & Hk & Hrk & Hfirst & Heq).
      { exists i. split; [lia|done]. }
      exists k. split; [lia|]. split; [done|]. split; [|done].
      intros j Hj. destruct (decide (j = lo)) as [->|Hjne].
      * by apply Qcnot_le_lt.
      * apply Hfirst. lia.
Qed.

(** When no sample but the last is taken at [tauFinal], the 63% time is the
    time of the first sample that reaches the 63% level. *)
Lemma rise_loop_first_63 (d lo : nat) (t63 t95 : Qc) :
  (∀ i, (S i < length CfHist)%nat → tauHist.[i] ≠ tauFinal) →
  (lo + d)%nat = length CfHist →
  (∃ i, (lo <= i < lo + d)%nat ∧ lit 0.95 * Math_abs CfFinal <= Math_abs CfHist.[i]) →
  (t63 = tauFinal
   ∧ ∀ j, (j < lo)%nat → Math_abs CfHist.[j] < lit 0.63 * Math_abs CfFinal)
  ∨ (∃ j, (j < lo)%nat
          ∧ lit 0.63 * Math_abs CfFinal <= Math_abs CfHist.[j]
          ∧ (∀ k, (k < j)%nat → Math_abs CfHist.[k] < lit 0.63 * Math_abs CfFinal)
          ∧ t63 = tauHist.[j]) →
  ∃ j, (j < length CfHist)%nat
       ∧ lit 0.63 * Math_abs CfFinal <= Math_abs CfHist.[j]
       ∧ (∀ k, (k < j)%nat → Math_abs CfHist.[k] < lit 0.63 * Math_abs CfFinal)
       ∧ fst (rise_loop tauFinal tauHist CfHist CfFinal (seq lo d) t63 t95) = tauHist.[j].
Proof.
  intros before_tauFinal. revert lo t63 t95.
  induction d as [|d IH]; intros lo t63 t95 Hd (i & Hi & Hreach) Hstate.
  - lia.
  - cbn [seq rise_loop].
    (* the 63% time after this sample, and what is known of it *)
    set (t63' := if (bool_decide (lit 0.63 * Math_abs CfFinal <= Math_abs CfHist.[lo])
                     && bool_decide (t63 = tauFinal))%bool
                 then tauHist.[lo] else t63).
    assert (Hstate' :
      (t63' = tauFinal
       ∧ (∀ j, (j < S lo)%nat → Math_abs CfHist.[j] < lit 0.63 * Math_abs CfFinal)
       ∧ Math_abs CfHist.[lo] < lit 0.63 * Math_abs CfFinal)
      ∨ (∃ j, (j < S lo)%nat
              ∧ lit 0.63 * Math_abs CfFinal <= Math_abs CfHist.[j]
              ∧ (∀ k, (k < j)%nat → Math_abs CfHist.[k] < lit 0.63 * Math_abs CfFinal)
              ∧ t63' = tauHist.[j])).
    { subst t63'. destruct Hstate as [[-> Hnone]|(j & Hj & Hrj & Hfirst & ->)].
      - rewrite (bool_decide_eq_true_2 (tauFinal = tauFinal)) by done.
        rewrite andb_true_r. case_bool_decide as Hc63.
        + right. exists lo. split; [lia|]. by split.
        + left. apply Qcnot_le_lt in Hc63. split; [done|]. split; [|done].
          intros j Hj. destruct (decide (j = lo)) as [->|Hne]; [done|].
          apply Hnone. lia.
      - rewrite (bool_decide_eq_false_2 (tauHist.[j] = tauFinal))
          by (apply before_tauFinal; lia).
        rewrite andb_false_r.
        right. exists j. split; [lia|]. by split. }
    clearbody t63'.
    case_bool_decide as Hc95.
    + cbn [fst].
      destruct Hstate' as [(_ & _ & Hlow)|(j & Hj & Hrj & Hfirst & ->)].
      * exfalso. apply (Qclt_not_le _ _ Hlow).
        eapply Qcle_trans; [apply rise_threshold_le|done].
      * exists j. split; [lia|]. by split.
    + destruct (decide (i = lo)) as [->|Hne]; [done|].
      apply IH; [lia| |].
      * exists i. split; [lia|done].
      * destruct Hstate' as [(Heq & Hnone & _)|Hfound]; [left|right]; done.
Qed.

End RiseSearch.

(** *** The times of the samples *)

Lemma of_nat_lt (n m : nat) : (n < m)%nat → of_nat n < of_nat m.
Proof.
  intros Hlt. unfold of_nat, Qclt. cbn [this Q2Qc]. rewrite !Qred_correct.
  rewrite <- Zlt_Qlt. lia.
Qed.

Lemma Qcmult_lt_r (a b c : Qc) : 0 < c → a < b → a * c < b * c.
Proof. intros Hc Hab. by apply Qcmult_lt_compat_r. Qed.

(** The last step is not later than [tauFinal]. *)
Lemma last_step_le_tauFinal (tauFinal dtau : Qc) :
  0 < dtau → (1 <= Nt tauFinal dtau)%nat →
  of_nat (Nt tauFinal dtau) * dtau <= tauFinal.
Proof.
  intros Hdtau HNt. unfold Nt, Math_floor in *.
  set (x := tauFinal / dtau) in *.
  assert (Hx : of_nat (Z.to_nat (Qfloor x)) <= x).
  { unfold of_nat, Qcle. cbn [this Q2Qc]. rewrite Qred_correct.
    rewrite Z2Nat.id by lia. apply Qfloor_le. }
  replace tauFinal with (x * dtau).
  - by apply Qcmult_le_compat_r; [|apply Qclt_le_weak].
  - subst x. field. by apply Qc_pos_ne.
Qed.

Lemma filter_seq_bound (f : nat → bool) (lo n k : nat) :
  k ∈ List.filter f (seq lo n) → (lo <= k < lo + n)%nat.
Proof.
  intros Hk. apply list_elem_of_In, List.filter_In in Hk. destruct Hk as [Hk _].
  by apply in_seq in Hk.
Qed.

(** With a positive time step, every sample but the last is taken before
    [tauFinal]. *)
Lemma samples_before_tauFinal (p : Params) (tauFinal dtau : Qc) (saveFreq : nat) (i : nat) :
  0 < dtau →
  let hist := snd (after_steps p tauFinal dtau saveFreq (Nt tauFinal dtau)) in
  (S i < length (tauHistory hist))%nat → (tauHistory hist).[i] < tauFinal.
Proof.
  intros Hdtau. cbv zeta. rewrite after_steps_times.
  destruct (Nt tauFinal dtau) as [|m] eqn:HNt; [cbn [seq List.filter map length]; lia|].
  assert (Hlist : List.filter (saved tauFinal dtau saveFreq) (seq 1 (S m))
                  = List.filter (saved tauFinal dtau saveFreq) (seq 1 m) ++ [S m]).
  { rewrite seq_S, List.filter_app. cbn [List.filter Nat.add].
    unfold saved at 2. by rewrite HNt, Nat.eqb_refl, orb_true_r. }
  rewrite Hlist, map_app. cbn [map]. rewrite app_comm_cons.
  set (early := 0 :: map (fun k => of_nat k * dtau)
                       (List.filter (saved tauFinal dtau saveFreq) (seq 1 m))).
  rewrite length_app. cbn [length]. intros Hi.
  rewrite get_snoc_l by lia.
  assert (Hearly : Forall (fun t => t < of_nat (S m) * dtau) early).
  { subst early. constructor.
    - replace 0 with (of_nat 0 * dtau) by (change (of_nat 0) with 0; ring).
      apply Qcmult_lt_r; [done|]. apply of_nat_lt. lia.
    - apply Forall_map, list.Forall_forall. intros k Hk.
      apply filter_seq_bound in Hk.
      apply Qcmult_lt_r; [done|]. apply of_nat_lt. lia. }
  eapply Qclt_le_trans.
  - rewrite list.Forall_forall in Hearly. apply Hearly.
    apply list_elem_of_In. unfold get. apply nth_In. lia.
  - rewrite <- HNt. apply last_step_le_tauFinal; [done|lia].
Qed.

(** The two rise times of a history that is not empty and has no sample
    but the last at [tauFinal]: the times of the first samples that reach
    the two levels. *)
Lemma rise_times_spec (tauFinal : Qc) (tauHist CfHist : list Qc) :
  (1 <= length CfHist)%nat →
  (∀ i, (S i < length CfHist)%nat → tauHist.[i] ≠ tauFinal) →
  let F := CfHist.[length CfHist - 1] in
  ∃ i63 i95 : nat,
    (i63 <= i95 < length CfHist)%nat
    ∧ fst (rise_times tauFinal tauHist CfHist) = tauHist.[i63]
    ∧ snd (rise_times tauFinal tauHist CfHist) = tauHist.[i95]
    ∧ lit 0.63 * Math_abs F <= Math_abs CfHist.[i63]
    ∧ (∀ j, (j < i63)%nat → Math_abs CfHist.[j] < lit 0.63 * Math_abs F)
    ∧ lit 0.95 * Math_abs F <= Math_abs CfHist.[i95]
    ∧ (∀ j, (j < i95)%nat → Math_abs CfHist.[j] < lit 0.95 * Math_abs F).
Proof.
  intros Hlen Hbefore. cbv zeta.
  set (F := CfHist.[length CfHist - 1]).
  assert (Hlast : ∃ i, (0 <= i < 0 + length CfHist)%nat
                       ∧ lit 0.95 * Math_abs F <= Math_abs CfHist.[i]).
  { exists (length CfHist - 1)%nat. split; [lia|]. apply final_reaches_95. }
  unfold rise_times. fold F.
  destruct (rise_loop_first_95 tauFinal tauHist CfHist F
              (length CfHist) 0 tauFinal tauFinal Hlast)
    as (i95 & Hi95 & Hr95 & Hf95 & ->).
  destruct (rise_loop_first_63 tauFinal tauHist CfHist F
              (length CfHist) 0 tauFinal tauFinal)
    as (i63 & Hi63 & Hr63 & Hf63 & ->); [done|lia|done| |].
  { left. split; [done|]. intros j Hj. lia. }
  exists i63, i95. split; [|repeat split; try done; intros j Hj; apply Hf95; lia].
  split; [|lia].
  destruct (le_lt_dec i63 i95) as [Hle|Hgt]; [done|]. exfalso.
  apply (Qclt_not_le _ _ (Hf63 i95 Hgt)).
  eapply Qcle_trans; [apply rise_threshold_le|done].
Qed.

Lemma rise_times_of_the_solution (p : Params) (tauFinal dtau : Qc) (saveFreq : nat) :
  0 < dtau →
  let hist := snd (after_steps p tauFinal dtau saveFreq (Nt tauFinal dtau)) in
  (1 <= length (CfLowerHistory hist))%nat
  ∧ length (CfLowerHistory hist) = length (tauHistory hist)
  ∧ ∀ i, (S i < length (CfLowerHistory hist))%nat → (tauHistory hist).[i] ≠ tauFinal.
Proof.
  intros Hdtau. cbv zeta.
  pose proof (after_steps_sizes p tauFinal dtau saveFreq (Nt tauFinal dtau))
    as (_ & _ & _ & _ & _ & HlC & _).
  pose proof (after_steps_times p tauFinal dtau saveFreq (Nt tauFinal dtau)) as Htau.
  assert (Hlen : (1 <= length (tauHistory
             (snd (after_steps p tauFinal dtau saveFreq (Nt tauFinal dtau)))))%nat).
  { rewrite Htau. cbn [length]. lia. }
  split; [lia|]. split; [done|].
  intros i Hi. apply Qclt_not_eq.
  apply (samples_before_tauFinal p tauFinal dtau saveFreq i Hdtau). lia.
Qed.

(** X9. With valid parameters and a positive time step, [tau95] is the time
    of the first sample whose skin friction reaches 95% of the final
    magnitude, and [tau63] the time of the first sample that reaches 63% of
    it, which is not a later sample: neither is ever left at [tauFinal] for
    want of such a sample. *)
Theorem rise_times_first_reach (p : Params) (tauFinal dtau : Qc) (saveFreq : nat) :
  valid_params p → 0 < dtau →
  let sol := solveUnsteadyMHDCouette p tauFinal dtau saveFreq in
  let hist := sol_history sol in
  ∃ i63 i95 : nat,
    (i63 <= i95 < length (tauHistory hist))%nat
    ∧ tau63 sol = (tauHistory hist).[i63]
    ∧ tau95 sol = (tauHistory hist).[i95]
    ∧ lit 0.63 * Math_abs (CfFinal sol) <= Math_abs (CfLowerHistory hist).[i63]
    ∧ (∀ j, (j < i63)%nat →
            Math_abs (CfLowerHistory hist).[j] < lit 0.63 * Math_abs (CfFinal sol))
    ∧ lit 0.95 * Math_abs (CfFinal sol) <= Math_abs (CfLowerHistory hist).[i95]
    ∧ (∀ j, (j < i95)%nat →
            Math_abs (CfLowerHistory hist).[j] < lit 0.95 * Math_abs (CfFinal sol)).
Proof.
  intros _ Hdtau. cbv zeta. unfold solveUnsteadyMHDCouette.
  cbn [tau63 tau95 sol_history CfFinal].
  destruct (rise_times_of_the_solution p tauFinal dtau saveFreq Hdtau)
    as (Hlen & Heq & Hbefore).
  cbv zeta in *. rewrite <- Heq.
  by apply rise_times_spec.
Qed.

Lemma rise_times_first_reach_witness :
  valid_params driven ∧ 0 < lit 0.25
  ∧ ∃ i63 i95 : nat,
      (i63 <= i95 < length (tauHistory (sol_history
                       (solveUnsteadyMHDCouette driven 1 (lit 0.25) 1))))%nat
      ∧ tau63 (solveUnsteadyMHDCouette driven 1 (lit 0.25) 1)
        = (tauHistory (sol_history (solveUnsteadyMHDCouette driven 1 (lit 0.25) 1))).[i63]
      ∧ tau95 (solveUnsteadyMHDCouette driven 1 (lit 0.25) 1)
        = (tauHistory (sol_history (solveUnsteadyMHDCouette driven 1 (lit 0.25) 1))).[i95].
Proof.
  assert (Hdtau : 0 < lit 0.25) by by vm_compute.
  split; [exact driven_valid|]. split; [exact Hdtau|].
  destruct (rise_times_first_reach driven 1 (lit 0.25) 1 driven_valid Hdtau)
    as (i63 & i95 & Hi & H63 & H95 & _).
  exists i63, i95. split; [exact Hi|]. split; [exact H63|exact H95].
Defined.

(** ** The response metrics *)

Section Metrics.

Variable p : Params.
Variables tauFinal dtau : Qc.
Variable saveFreq : nat.

(** The metrics are computed on the trajectory of the solve. *)
Lemma solution_metrics_history :
  snd (fst (after_steps_full p tauFinal dtau saveFreq (Nt tauFinal dtau)))
  = sol_history (solveUnsteadyMHDCouette p tauFinal dtau saveFreq).
Proof. by rewrite after_steps_full_fst. Qed.

Lemma solution_metrics_rise :
  m_tau63 (solution_metrics p tauFinal dtau saveFreq)
  = tau63 (solveUnsteadyMHDCouette p tauFinal dtau saveFreq)
  ∧ m_tau95 (solution_metrics p tauFinal dtau saveFreq)
    = tau95 (solveUnsteadyMHDCouette p tauFinal dtau saveFreq)
  ∧ m_CfFinal (solution_metrics p tauFinal dtau saveFreq)
    = CfFinal (solveUnsteadyMHDCouette p tauFinal dtau saveFreq).
Proof.
  unfold solution_metrics, solveUnsteadyMHDCouette.
  cbn [m_tau63 m_tau95 m_CfFinal tau63 tau95 CfFinal].
  by rewrite after_steps_full_fst.
Qed.

End Metrics.

(** *** The largest magnitude and the overshoot *)

Lemma Math_max_cases (x y : Qc) :
  (Math_max x y = x ∨ Math_max x y = y) ∧ x <= Math_max x y ∧ y <= Math_max x y.
Proof.
  unfold Math_max. case_bool_decide as Hlt.
  - split; [by right|]. split; [by apply Qclt_le_weak|apply Qcle_refl].
  - split; [by left|]. split; [apply Qcle_refl|by apply Qcnot_lt_le].
Qed.

Lemma fold_max_spec (l : list Qc) (x : Qc) :
  (fold_left Math_max l x = x ∨ fold_left Math_max l x ∈ l)
  ∧ x <= fold_left Math_max l x
  ∧ Forall (fun y => y <= fold_left Math_max l x) l.
Proof.
  revert x. induction l as [|y l IH]; intros x; cbn [fold_left].
  - split; [by left|]. split; [apply Qcle_refl|constructor].
  - destruct (IH (Math_max x y)) as (Hin & Hge & Hall).
    destruct (Math_max_cases x y) as (Hxy & Hx & Hy).
    split; [|split].
    + destruct Hin as [->|Hin]; [|right; by right].
      destruct Hxy as [->| ->]; [by left|right; by left].
    + by eapply Qcle_trans.
    + constructor; [by eapply Qcle_trans|done].
Qed.

(** [Math.max(...l)] on a list that is not empty: an entry of the list that
    no entry exceeds. *)
Lemma Math_max_spread_spec (l : list Qc) :
  l ≠ [] →
  ∃ M, Math_max_spread l = Finite M ∧ M ∈ l ∧ Forall (fun y => y <= M) l.
Proof.
  destruct l as [|x l]; [done|]. intros _. cbn [Math_max_spread].
  destruct (fold_max_spec l x) as (Hin & Hge & Hall).
  eexists. split; [done|]. split.
  - destruct Hin as [->|Hin]; [by left|by right].
  - by constructor.
Qed.

Lemma get_elem_of (l : list Qc) (i : nat) : (i < length l)%nat → l.[i] ∈ l.
Proof. intros Hi. apply list_elem_of_In. unfold get. by apply nth_In. Qed.

Lemma elem_of_get (l : list Qc) (x : Qc) : x ∈ l → ∃ i, (i < length l)%nat ∧ l.[i] = x.
Proof.
  intros Hx. apply list_elem_of_In in Hx.
  destruct (In_nth l x 0 Hx) as (i & Hi & Heq). by exists i.
Qed.

Lemma get_map_abs (l : list Qc) (i : nat) :
  (map Math_abs l).[i] = Math_abs l.[i].
Proof.
  unfold get. revert i. induction l as [|x l IH]; intros [|i]; cbn [map nth]; try done.
  all: symmetry; by apply Qcabs_pos.
Qed.

Lemma Qcabs_zero_iff (x : Qc) : Math_abs x = 0 ↔ x = 0.
Proof.
  unfold Math_abs. split; [apply Qcabs_null|intros ->; by apply Qcabs_pos].
Qed.

(** The overshoot of a history that is not empty: with a final value other
    than zero it is a number, not negative, and zero exactly when no sample
    exceeds the final magnitude; with a final value of zero it is NaN when
    every sample is zero and infinite otherwise. *)
Lemma overshoot_of_spec (CfHist : list Qc) :
  CfHist ≠ [] →
  let F := CfHist.[length CfHist - 1] in
  (F ≠ 0
   ∧ ∃ o, overshoot_of CfHist = Finite o
          ∧ 0 <= o
          ∧ (∃ i, (i < length CfHist)%nat
                  ∧ o = (Math_abs CfHist.[i] - Math_abs F) / Math_abs F * lit 100
                  ∧ ∀ j, (j < length CfHist)%nat → Math_abs CfHist.[j] <= Math_abs CfHist.[i])
          ∧ (o = 0 ↔ ∀ j, (j < length CfHist)%nat → Math_abs CfHist.[j] <= Math_abs F))
  ∨ (F = 0
     ∧ ((overshoot_of CfHist = NotANumber
         ∧ ∀ j, (j < length CfHist)%nat → CfHist.[j] = 0)
        ∨ (overshoot_of CfHist = PlusInfinity
           ∧ ∃ j, (j < length CfHist)%nat ∧ CfHist.[j] ≠ 0))).
Proof.
  intros Hne. cbv zeta. unfold overshoot_of.
  destruct (Math_max_spread_spec (map Math_abs CfHist)) as (M & -> & HM & Hall).
  { by destruct CfHist. }
  apply elem_of_get in HM. destruct HM as (i & Hi & HMi).
  rewrite length_map in Hi. rewrite get_map_abs in HMi.
  assert (Hle : ∀ j, (j < length CfHist)%nat → Math_abs CfHist.[j] <= M).
  { intros j Hj. rewrite list.Forall_forall in Hall. apply Hall.
    rewrite <- get_map_abs. apply get_elem_of. by rewrite length_map. }
  assert (Hlast : (length CfHist - 1 < length CfHist)%nat).
  { destruct CfHist; [done|]. cbn [length]. lia. }
  set (F := CfHist.[length CfHist - 1]) in *.
  pose proof (Hle _ Hlast) as HFM. fold F in HFM.
  unfold js_div.
  destruct (decide (F = 0)) as [HF|HF].
  - right. split; [done|].
    assert (HabsF : Math_abs F = 0) by by apply Qcabs_zero_iff.
    rewrite HabsF, (bool_decide_eq_true_2 (0 = 0)) by done.
    replace (M - 0) with M by ring.
    case_bool_decide as HM.
    + right. split; [done|]. exists i. split; [done|].
      intros H0. rewrite <- HMi, H0 in HM. by apply (Qclt_not_eq 0 0).
    + left. assert (HM0 : M = 0).
      { apply Qcle_antisym; [by apply Qcnot_lt_le|]. by rewrite <- HabsF. }
      rewrite (bool_decide_eq_false_2 (M < 0)) by (rewrite HM0; intros H0; by apply (Qclt_not_eq 0 0)).
      split; [done|]. intros j Hj. apply Qcabs_zero_iff.
      apply Qcle_antisym; [rewrite <- HM0; by apply Hle|apply Qcabs_nonneg].
  - left. split; [done|].
    assert (HabsF : 0 < Math_abs F).
    { destruct (Qcle_lt_or_eq _ _ (Qcabs_nonneg F)) as [Hlt|Heq]; [done|].
      exfalso. apply HF. by apply Qcabs_zero_iff. }
    rewrite (bool_decide_eq_false_2 (Math_abs F = 0))
      by (intros H0; rewrite H0 in HabsF; by apply (Qclt_not_eq 0 0)).
    cbn [js_scale js_max0].
    assert (Hnonneg : 0 <= (M - Math_abs F) / Math_abs F * lit 100).
    { apply Qcmult_nonneg; [|by vm_compute]. apply Qcdiv_nonneg; [|done].
      by apply Qcle_minus_iff in HFM. }
    assert (Hmax : Math_max 0 ((M - Math_abs F) / Math_abs F * lit 100)
                   = (M - Math_abs F) / Math_abs F * lit 100).
    { unfold Math_max. case_bool_decide as Hlt; [done|].
      apply Qcle_antisym; [done|by apply Qcnot_lt_le]. }
    rewrite Hmax. eexists. split; [done|]. split; [done|]. split.
    + exists i. rewrite HMi. split; [done|]. split; [done|].
      intros j Hj. by apply Hle.
    + split.
      * intros H0. assert (HMF : M = Math_abs F).
        { assert (Hd : (M - Math_abs F) / Math_abs F * lit 100 * (Math_abs F / lit 100)
                       = M - Math_abs F).
          { field. split; [by vm_compute|]. by apply Qc_pos_ne. }
          rewrite H0 in Hd. replace (0 * (Math_abs F / lit 100)) with 0 in Hd by ring.
          rewrite <- (Qcplus_0_l (Math_abs F)), Hd. ring. }
        intros j Hj. rewrite <- HMF. by apply Hle.
      * intros Hall'. assert (HMF : M = Math_abs F).
        { apply Qcle_antisym; [|done]. rewrite <- HMi. by apply Hall'. }
        rewrite HMF. unfold Qcdiv. ring.
Qed.

(** X10. The overshoot of a solve.  When the final skin friction is not
    zero it is a number, never negative, the relative excess in percent of
    the largest recorded magnitude over the final one, and zero exactly when
    no sample exceeds the final magnitude.  When the final skin friction is
    zero it is NaN if every sample is zero, and infinite otherwise. *)
Theorem overshoot_of_the_solution (p : Params) (tauFinal dtau : Qc) (saveFreq : nat) :
  let m := solution_metrics p tauFinal dtau saveFreq in
  let Cf := CfLowerHistory (sol_history (solveUnsteadyMHDCouette p tauFinal dtau saveFreq)) in
  (m_CfFinal m ≠ 0
   ∧ ∃ o, m_overshoot m = Finite o
          ∧ 0 <= o
          ∧ (∃ i, (i < length Cf)%nat
                  ∧ o = (Math_abs Cf.[i] - Math_abs (m_CfFinal m))
                        / Math_abs (m_CfFinal m) * lit 100
                  ∧ ∀ j, (j < length Cf)%nat → Math_abs Cf.[j] <= Math_abs Cf.[i])
          ∧ (o = 0 ↔ ∀ j, (j < length Cf)%nat → Math_abs Cf.[j] <= Math_abs (m_CfFinal m)))
  ∨ (m_CfFinal m = 0
     ∧ ((m_overshoot m = NotANumber ∧ ∀ j, (j < length Cf)%nat → Cf.[j] = 0)
        ∨ (m_overshoot m = PlusInfinity ∧ ∃ j, (j < length Cf)%nat ∧ Cf.[j] ≠ 0))).
Proof.
  cbv zeta. unfold solution_metrics. cbn [m_CfFinal m_overshoot].
  rewrite solution_metrics_history.
  apply overshoot_of_spec. apply history_not_empty.
Qed.

(** *** The settling time *)

Lemma out_of_band_false (c F : Qc) :
  out_of_band c F = false ↔ Math_abs (c - F) <= lit 0.02 * Math_abs F.
Proof.
  unfold out_of_band, js_div.
  pose proof (Qcabs_nonneg (c - F)) as Ha. pose proof (Qcabs_nonneg F) as HF.
  unfold Math_abs.
  generalize dependent (Qcabs (c - F)). generalize dependent (Qcabs F).
  intros f Hf a Ha.
  case_bool_decide as Hf0.
  - subst f. replace (lit 0.02 * 0) with 0 by ring.
    case_bool_decide as Ha0; cbn [js_gt].
    + split; [done|]. intros Hle. exfalso. by apply (Qclt_not_le _ _ Ha0).
    + split; [|by destruct (bool_decide (a < 0))]. intros _. by apply Qcnot_lt_le.
  - cbn [js_gt]. rewrite bool_decide_eq_false.
    assert (Hfpos : 0 < f).
    { destruct (Qcle_lt_or_eq _ _ Hf) as [Hlt|Heq]; [done|]. by rewrite <- Heq in Hf0. }
    assert (Heq : a = a / f * f) by (field; by apply Qc_pos_ne).
    split.
    + intros Hn. apply Qcnot_lt_le in Hn. rewrite Heq.
      by apply Qcmult_le_compat_r; [|apply Qclt_le_weak].
    + intros Hle Hlt. apply (Qclt_not_le _ _ (Qcmult_lt_r _ _ f Hfpos Hlt)).
      by rewrite <- Heq.
Qed.

Lemma out_of_band_true (c F : Qc) :
  out_of_band c F = true ↔ lit 0.02 * Math_abs F < Math_abs (c - F).
Proof.
  split.
  - intros Ht. apply Qcnot_le_lt. intros Hle. apply out_of_band_false in Hle. congruence.
  - intros Hlt. destruct (out_of_band c F) eqn:Hb; [done|].
    apply out_of_band_false in Hb. exfalso. by apply (Qclt_not_le _ _ Hlt).
Qed.

Lemma rev_seq_S (n : nat) : rev (seq 0 (S n)) = n :: rev (seq 0 n).
Proof. by rewrite seq_S, rev_app_distr. Qed.

(** The backward search returns the time of the sample after the last one
    outside the band, or the time it was given when no sample is outside. *)
Lemma settling_loop_spec (tauHist CfHist : list Qc) (F : Qc) (n : nat) (d : Qc) :
  (settling_loop tauHist CfHist F (rev (seq 0 n)) d = d
   ∧ ∀ i, (i < n)%nat → Math_abs (CfHist.[i] - F) <= lit 0.02 * Math_abs F)
  ∨ (∃ i, (i < n)%nat
          ∧ lit 0.02 * Math_abs F < Math_abs (CfHist.[i] - F)
          ∧ (∀ j, (i < j < n)%nat → Math_abs (CfHist.[j] - F) <= lit 0.02 * Math_abs F)
          ∧ settling_loop tauHist CfHist F (rev (seq 0 n)) d
            = tauHist.[Nat.min (i + 1) (length CfHist - 1)]).
Proof.
  induction n as [|n IH].
  - left. split; [done|]. intros i Hi. lia.
  - rewrite rev_seq_S. cbn [settling_loop].
    destruct (out_of_band CfHist.[n] F) eqn:Hband.
    + right. exists n. split; [lia|]. split; [by apply out_of_band_true|].
      split; [intros j Hj; lia|done].
    + apply out_of_band_false in Hband.
      destruct IH as [[Heq Hall]|(i & Hi & Hout & Hafter & Heq)].
      * left. split; [done|]. intros i Hi.
        destruct (decide (i = n)) as [->|Hne]; [done|]. apply Hall. lia.
      * right. exists i. split; [lia|]. split; [done|]. split; [|done].
        intros j Hj. destruct (decide (j = n)) as [->|Hne]; [done|]. apply Hafter. lia.
Qed.

(** X11. The settling time of a solve.  Either every sample lies within 2%
    of the final skin friction (relative to its magnitude) and the settling
    time is [tauFinal], or it is the time of the sample that follows the
    last sample outside that band. *)
Theorem settling_time_of_the_solution (p : Params) (tauFinal dtau : Qc) (saveFreq : nat) :
  let m := solution_metrics p tauFinal dtau saveFreq in
  let hist := sol_history (solveUnsteadyMHDCouette p tauFinal dtau saveFreq) in
  let Cf := CfLowerHistory hist in
  let band := lit 0.02 * Math_abs (m_CfFinal m) in
  (m_settlingTime m = tauFinal
   ∧ ∀ i, (i < length Cf)%nat → Math_abs (Cf.[i] - m_CfFinal m) <= band)
  ∨ (∃ i, (S i < length Cf)%nat
          ∧ band < Math_abs (Cf.[i] - m_CfFinal m)
          ∧ (∀ j, (i < j < length Cf)%nat → Math_abs (Cf.[j] - m_CfFinal m) <= band)
          ∧ m_settlingTime m = (tauHistory hist).[S i]).
Proof.
  cbv zeta. unfold solution_metrics. cbn [m_CfFinal m_settlingTime].
  rewrite solution_metrics_history.
  set (hist := sol_history (solveUnsteadyMHDCouette p tauFinal dtau saveFreq)).
  unfold settlingTime_of.
  set (F := (CfLowerHistory hist).[length (CfLowerHistory hist) - 1]).
  destruct (settling_loop_spec (tauHistory hist) (CfLowerHistory hist) F
              (length (CfLowerHistory hist)) tauFinal)
    as [[Heq Hall]|(i & Hi & Hout & Hafter & Heq)].
  - left. by split.
  - right. exists i.
    assert (Hnotlast : i ≠ (length (CfLowerHistory hist) - 1)%nat).
    { intros ->. apply (Qclt_not_le _ _ Hout). fold F.
      replace (F - F) with 0 by ring. unfold Math_abs.
      rewrite (Qcabs_pos 0) by apply Qcle_refl.
      apply Qcmult_nonneg; [by vm_compute|apply Qcabs_nonneg]. }
    split; [lia|]. split; [done|]. split; [done|].
    rewrite Heq. f_equal. lia.
Qed.

(** The run driven by a pressure gradient rises without overshoot: it is
    classified as overdamped, and its last sample outside the band of 2% is
    the last but one. *)
Example driven_metrics :
  m_overshoot (solution_metrics driven 1 (lit 0.25) 1) = Finite 0
  ∧ m_dampingType (solution_metrics driven 1 (lit 0.25) 1) = Overdamped
  ∧ m_tau95 (solution_metrics driven 1 (lit 0.25) 1) = lit 0.75
  ∧ m_settlingTime (solution_metrics driven 1 (lit 0.25) 1) = 1.
Proof.
  split; [f_equal; apply Qc_is_canon; by vm_compute|].
  split; [by vm_compute|].
  split; apply Qc_is_canon; by vm_compute.
Qed.

(** *** A fluid at rest *)

Section AtRest.

Variable p : Params.
Variables tauFinal dtau : Qc.
Variable saveFreq : nat.
Hypothesis no_drive : Re p = 0 ∧ G p = 0.

Lemma W_init_rest (i : nat) : (W_init p).[i] = 0.
Proof using no_drive.
  destruct no_drive as [HRe _].
  unfold W_init. rewrite for_insert_get, length_replicate.
  case_decide.
  - rewrite HRe. unfold Qcdiv. ring.
  - unfold get. destruct (decide (i < N p + 1)%nat).
    + rewrite nth_lookup, lookup_replicate_2; [done|lia].
    + rewrite nth_overflow; [done|]. rewrite length_replicate. lia.
Qed.

Lemma picard_sweep_rest (W_old Theta_old : list Qc) (s : Fields) :
  (∀ i, W_old.[i] = 0) → (∀ i, (W s).[i] = 0) →
  ∀ i, (W (fst (picard_sweep p dtau W_old Theta_old s))).[i] = 0.
Proof using no_drive.
  destruct no_drive as [HRe HG].
  intros Hold Hs i. unfold picard_sweep. cbv zeta. cbn [fst W].
  rewrite !get_insert, !for_insert_get, !Hs, !Hold, HRe, HG.
  unfold Qcdiv. repeat case_decide; ring.
Qed.

Lemma picard_iterate_rest (j : nat) (W_old Theta_old : list Qc) (s : Fields) :
  (∀ i, W_old.[i] = 0) → (∀ i, (W s).[i] = 0) →
  ∀ i, (W (picard_iterate p dtau j W_old Theta_old s)).[i] = 0.
Proof using no_drive.
  intros Hold Hs. induction j as [|j IH]; [done|].
  cbn [picard_iterate]. by apply picard_sweep_rest.
Qed.

Lemma time_step_rest (s : Fields) :
  (∀ i, (W s).[i] = 0) → ∀ i, (W (fst (time_step p dtau s))).[i] = 0.
Proof using no_drive.
  intros Hs. unfold time_step.
  destruct (picard_loop_spec p dtau picard_budget (W s) (Theta s) s 0) as (k & -> & _).
  cbn [fst]. by apply picard_iterate_rest.
Qed.

Lemma after_steps_rest (n : nat) :
  (1 <= N p)%nat →
  let st := after_steps p tauFinal dtau saveFreq n in
  (∀ i, (W (fst st)).[i] = 0)
  ∧ Forall (fun Wt => ∀ i, Wt.[i] = 0) (WHistory (snd st))
  ∧ Forall (fun cf => cf = 0) (CfLowerHistory (snd st)).
Proof using no_drive.
  intros HN. cbv zeta. induction n as [|n IH].
  - rewrite after_steps_0. cbn [fst snd fields0 history0 W Wp WHistory CfLowerHistory].
    split; [apply W_init_rest|]. split; [repeat constructor; apply W_init_rest|].
    repeat constructor.
    rewrite deriv_get_0 by (done || by rewrite length_replicate).
    rewrite !W_init_rest. unfold Qcdiv. ring.
  - rewrite after_steps_S. unfold time_loop_body.
    pose proof (after_steps_sizes p tauFinal dtau saveFreq n) as (Hs & _).
    destruct (after_steps p tauFinal dtau saveFreq n) as [s hist].
    destruct IH as (HW & HH & HC). cbn [fst snd] in *.
    pose proof (time_step_rest s HW) as HW1.
    pose proof (time_step_sized p dtau s Hs) as (_ & _ & HWp1).
    destruct (_ || _)%bool; cbn [fst snd W WHistory CfLowerHistory]; [|done].
    split; [done|]. split; [apply Forall_app; split; [done|by repeat constructor]|].
    apply Forall_app. split; [done|]. repeat constructor.
    rewrite deriv_get_0 by done. rewrite !HW1. unfold Qcdiv. ring.
Qed.

Lemma energy_sample_rest (Wt Thetat : list Qc) :
  (∀ i, Wt.[i] = 0) → KE (energy_sample p Wt Thetat) = 0.
Proof.
  intros HW. unfold energy_sample.
  apply (for_range_invariant (fun _ e => KE e = 0)); [lia|done|].
  intros i e _ HK. cbn [KE]. rewrite HK, !HW. unfold sq. ring.
Qed.

End AtRest.

Lemma Forall_zero_get (l : list Qc) (i : nat) :
  Forall (fun x => x = 0) l → l.[i] = 0.
Proof.
  intros Hl. destruct (decide (i < length l)%nat) as [Hi|Hi].
  - rewrite list.Forall_forall in Hl. apply Hl. by apply get_elem_of.
  - unfold get. rewrite nth_overflow; [done|lia].
Qed.

(** X12. A fluid at rest stays at rest: with valid parameters, no plate
    velocity ([Re = 0]) and no pressure gradient ([G = 0]), every recorded
    velocity, skin friction and kinetic energy is zero; the overshoot of
    such a run is NaN, it is classified as overdamped, its 95% rise time is
    0 and its settling time is [tauFinal]. *)
Theorem fluid_at_rest (p : Params) (tauFinal dtau : Qc) (saveFreq : nat) :
  valid_params p → 0 < dtau → Re p = 0 → G p = 0 →
  let sol := solveUnsteadyMHDCouette p tauFinal dtau saveFreq in
  let m := solution_metrics p tauFinal dtau saveFreq in
  Forall (fun Wt => ∀ i, Wt.[i] = 0) (WHistory (sol_history sol))
  ∧ Forall (fun cf => cf = 0) (CfLowerHistory (sol_history sol))
  ∧ Forall (fun e => e = 0) (kineticEnergy sol)
  ∧ m_overshoot m = NotANumber
  ∧ m_dampingType m = Overdamped
  ∧ m_tau95 m = 0
  ∧ m_settlingTime m = tauFinal.
Proof.
  intros Hvalid Hdtau HRe HG. cbv zeta.
  assert (HN : (1 <= N p)%nat) by (unfold valid_params in Hvalid; tauto).
  destruct (after_steps_rest p tauFinal dtau saveFreq (conj HRe HG) (Nt tauFinal dtau) HN)
    as (_ & HW & HC).
  destruct (rise_times_of_the_solution p tauFinal dtau saveFreq Hdtau)
    as (Hlen & Heq & Hbefore).
  pose proof (after_steps_times p tauFinal dtau saveFreq (Nt tauFinal dtau)) as Htau.
  cbv zeta in *.
  unfold solution_metrics, solveUnsteadyMHDCouette.
  cbn [sol_history kineticEnergy m_overshoot m_dampingType m_tau95 m_settlingTime].
  rewrite after_steps_full_fst.
  set (hist := snd (after_steps p tauFinal dtau saveFreq (Nt tauFinal dtau))) in *.
  assert (Hzero : ∀ i, (CfLowerHistory hist).[i] = 0)
    by (intros i; by apply Forall_zero_get).
  assert (Hover : overshoot_of (CfLowerHistory hist) = NotANumber).
  { destruct (overshoot_of_spec (CfLowerHistory hist)) as [[HF _]|[_ [[Hnan _]|[_ Hex]]]].
    - intros Hnil. rewrite Hnil in Hlen. cbn [length] in Hlen. lia.
    - by rewrite Hzero in HF.
    - done.
    - destruct Hex as (j & _ & Hj). by rewrite Hzero in Hj. }
  split; [done|]. split; [done|].
  split.
  { rewrite Forall_map. apply energy_histories_Forall_nth.
    intros t. apply energy_sample_rest.
    destruct (decide (t < length (WHistory hist))%nat) as [Ht|Ht].
    - rewrite list.Forall_forall in HW. apply HW. apply list_elem_of_In. by apply nth_In.
    - rewrite nth_overflow by lia. intros i. unfold get. by destruct i. }
  split; [done|]. split; [by rewrite Hover|].
  split.
  - destruct (rise_times_spec tauFinal (tauHistory hist) (CfLowerHistory hist) Hlen Hbefore)
      as (i63 & i95 & _ & _ & -> & _ & _ & _ & Hfirst).
    destruct i95 as [|i95].
    + rewrite Htau. done.
    + exfalso. specialize (Hfirst 0%nat ltac:(lia)). rewrite !Hzero in Hfirst.
      revert Hfirst. by vm_compute.
  - unfold settlingTime_of.
    destruct (settling_loop_spec (tauHistory hist) (CfLowerHistory hist)
                (CfLowerHistory hist).[length (CfLowerHistory hist) - 1]
                (length (CfLowerHistory hist)) tauFinal)
      as [[-> _]|(i & _ & Hout & _)]; [done|].
    exfalso. rewrite !Hzero in Hout. revert Hout. by vm_compute.
Qed.

Lemma at_rest_valid (n : nat) : (1 <= n)%nat → valid_params (at_rest n).
Proof. intros Hn. unfold valid_params. cbn. repeat split; done. Qed.

Lemma fluid_at_rest_witness :
  valid_params (at_rest 4) ∧ 0 < lit 0.04 ∧ Re (at_rest 4) = 0 ∧ G (at_rest 4) = 0
  ∧ m_overshoot (solution_metrics (at_rest 4) (lit 0.08) (lit 0.04) 1) = NotANumber
  ∧ m_dampingType (solution_metrics (at_rest 4) (lit 0.08) (lit 0.04) 1) = Overdamped.
Proof.
  assert (Hvalid : valid_params (at_rest 4)) by (apply at_rest_valid; lia).
  assert (Hdtau : 0 < lit 0.04) by by vm_compute.
  split; [exact Hvalid|]. split; [exact Hdtau|]. split; [reflexivity|]. split; [reflexivity|].
  destruct (fluid_at_rest (at_rest 4) (lit 0.08) (lit 0.04) 1 Hvalid Hdtau eq_refl eq_refl)
    as (_ & _ & _ & Hover & Hdamp & _).
  split; [exact Hover|exact Hdamp].
Defined.

(** *** The quick solve and the sensitivities *)

Lemma peakTime_of_spec (tauHist CfHist : list Qc) :
  peakTime_of tauHist CfHist = 0
  ∨ ∃ i, (i < length CfHist)%nat ∧ peakTime_of tauHist CfHist = tauHist.[i].
Proof.
  unfold peakTime_of. destruct (Math_max_spread (map Math_abs CfHist)); try by left.
  apply (for_range_invariant
           (fun n pt => pt = 0 ∨ ∃ i, (i < n)%nat ∧ pt = tauHist.[i])); [lia|by left|].
  intros i pt Hi [->|(j & Hj & ->)]; case_bool_decide.
  - right. exists i. split; [lia|done].
  - by left.
  - right. exists i. split; [lia|done].
  - right. exists j. split; [lia|done].
Qed.

Lemma quick_times :
  0 :: map (fun k => of_nat k * lit 0.04)
         (List.filter (saved 2 (lit 0.04) 10) (seq 1 (Nt 2 (lit 0.04))))
  = [0; lit 0.4; lit 0.8; lit 1.2; lit 1.6; 2].
Proof. apply (bool_decide_unpack _). by vm_compute. Qed.

(** X13. The quick solve takes 50 steps and keeps six samples, so that
    whatever the parameters each of the four times among its metrics (the
    two rise times, the peak time and the settling time) is one of 0, 0.4,
    0.8, 1.2, 1.6 and 2. *)
Theorem solveQuick_times (p : Params) :
  let m := solveQuick p in
  let times := [0; lit 0.4; lit 0.8; lit 1.2; lit 1.6; 2] in
  tauHistory (sol_history (solveUnsteadyMHDCouette p 2 (lit 0.04) 10)) = times
  ∧ m_tau63 m ∈ times ∧ m_tau95 m ∈ times
  ∧ m_peakTime m ∈ times ∧ m_settlingTime m ∈ times.
Proof.
  cbv zeta.
  assert (Hdtau : 0 < lit 0.04) by by vm_compute.
  destruct (rise_times_of_the_solution p 2 (lit 0.04) 10 Hdtau) as (Hlen & Heq & Hbefore).
  pose proof (after_steps_times p 2 (lit 0.04) 10 (Nt 2 (lit 0.04))) as Htau.
  rewrite quick_times in Htau. cbv zeta in *.
  unfold solveQuick, solution_metrics, solveUnsteadyMHDCouette.
  cbn [sol_history m_tau63 m_tau95 m_peakTime m_settlingTime].
  rewrite after_steps_full_fst.
  set (hist := snd (after_steps p 2 (lit 0.04) 10 (Nt 2 (lit 0.04)))) in *.
  destruct (rise_times_spec 2 (tauHistory hist) (CfLowerHistory hist) Hlen Hbefore)
    as (i63 & i95 & Hi & -> & -> & _).
  split; [done|]. rewrite <- Htau.
  split; [apply get_elem_of; lia|]. split; [apply get_elem_of; lia|].
  split.
  - destruct (peakTime_of_spec (tauHistory hist) (CfLowerHistory hist))
      as [->|(i & Hi' & ->)].
    + rewrite Htau. by left.
    + apply get_elem_of. lia.
  - unfold settlingTime_of.
    destruct (settling_loop_spec (tauHistory hist) (CfLowerHistory hist)
                (CfLowerHistory hist).[length (CfLowerHistory hist) - 1]
                (length (CfLowerHistory hist)) 2)
      as [[-> _]|(i & Hi' & _ & _ & ->)].
    + rewrite Htau. do 5 right. left.
    + apply get_elem_of. lia.
Qed.

Lemma set_get_param (params : Params) (name : ParamName) :
  set_param params name (get_param params name) = params.
Proof. by destruct params, name. Qed.

Lemma no_change (x d e : Qc) : (x - x) / d / e = 0.
Proof. unfold Qcdiv. ring. Qed.

(** X14. The perturbation of [sensitivity] is relative, so for valid
    parameters a parameter whose base value is zero is not perturbed at
    all: its three sensitivities are reported as zero. *)
Theorem sensitivity_of_zero_parameter (baseParams : Params) (name : ParamName) :
  valid_params baseParams → get_param baseParams name = 0 →
  (name, mkSensitivity 0 0 0) ∈ sensitivity baseParams.
Proof.
  intros _ Hzero. unfold sensitivity. cbv zeta.
  apply list_elem_of_In, in_map_iff. exists name. split.
  - rewrite Hzero. replace (0 * (1 + lit 0.1)) with 0 by ring.
    assert (Hset : set_param baseParams name 0 = baseParams)
      by (rewrite <- Hzero; apply set_get_param).
    rewrite Hset. generalize (solveQuick baseParams). intros m.
    by rewrite !no_change.
  - destruct name; cbn [In]; tauto.
Qed.

Lemma sensitivity_of_zero_parameter_witness :
  valid_params (no_slip 4) ∧ get_param (no_slip 4) name_lambda = 0
  ∧ (name_lambda, mkSensitivity 0 0 0) ∈ sensitivity (no_slip 4).
Proof.
  assert (Hvalid : valid_params (no_slip 4)) by (apply no_slip_valid; lia).
  split; [exact Hvalid|]. split; [reflexivity|].
  exact (sensitivity_of_zero_parameter (no_slip 4) name_lambda Hvalid eq_refl).
Defined.

(** ** Entropy generation *)

Lemma Math_max_floor (x c : Qc) : 0 < c → 0 < Math_max x c.
Proof.
  intros Hc. destruct (Math_max_cases x c) as (_ & _ & Hge).
  by eapply Qclt_le_trans.
Qed.

(** The operations of binary64 on numbers that are not negative. *)
Lemma add64_nonneg (a b : Qc) : 0 <= a → 0 <= b → 0 <= a ⊕ b.
Proof. intros Ha Hb. apply binary64_nonneg. by apply Qcplus_nonneg. Qed.

Lemma mul64_nonneg (a b : Qc) : 0 <= a → 0 <= b → 0 <= a ⊗ b.
Proof. intros Ha Hb. apply binary64_nonneg. by apply Qcmult_nonneg. Qed.

Lemma mul64_square (x : Qc) : 0 <= x ⊗ x.
Proof. apply binary64_nonneg. apply sq_nonneg. Qed.

Lemma div64_nonneg (a b : Qc) : 0 <= a → 0 < b → 0 <= a ⊘ b.
Proof. intros Ha Hb. apply binary64_nonneg. by apply Qcdiv_nonneg. Qed.

(** Adding a number that is not negative to a binary64 number does not
    give less. *)
Lemma add64_ge_l (a b : Qc) : binary64 a = a → 0 <= b → a <= a ⊕ b.
Proof.
  intros Ha Hb. rewrite <- Ha at 1. apply binary64_le. qc_positive.
Qed.

Lemma add64_ge_r (a b : Qc) : binary64 b = b → 0 <= a → b <= a ⊕ b.
Proof.
  intros Hb Ha. rewrite <- Hb at 1. apply binary64_le. qc_positive.
Qed.

Lemma binary64_1 : binary64 1 = 1.
Proof. apply Qc_is_canon. by vm_compute. Qed.

Lemma Qcdiv_le_1 (a b : Qc) : a <= b → 0 < b → a / b <= 1.
Proof.
  intros Hab Hb.
  replace 1 with (b / b) by (field; by apply Qc_pos_ne).
  unfold Qcdiv. apply Qcmult_le_compat_r; [done|].
  apply Qclt_le_weak. unfold Qclt in *. cbn [this Qcinv Q2Qc] in *.
  rewrite !Qred_correct in *. by apply Qinv_lt_0_compat.
Qed.

(** The share of [a] in the rounded sum [a + f + m + eps] lies between 0
    and 1: each addition gives at least its first term, and the quotient of
    two binary64 numbers in that order is rounded to 1 at most. *)
Lemma share64_bounds (a f m eps : Qc) :
  0 <= a → 0 <= f → 0 <= m → 0 < eps → binary64 a = a → binary64 eps = eps →
  0 <= a ⊘ (a ⊕ f ⊕ m ⊕ eps) ∧ a ⊘ (a ⊕ f ⊕ m ⊕ eps) <= 1.
Proof.
  intros Ha Hf Hm He Hfa Hfe.
  assert (H1 : a <= a ⊕ f) by by apply add64_ge_l.
  assert (H2 : a ⊕ f <= a ⊕ f ⊕ m) by (apply add64_ge_l; [apply binary64_fixed|done]).
  assert (H3 : a ⊕ f ⊕ m <= a ⊕ f ⊕ m ⊕ eps).
  { apply add64_ge_l; [apply binary64_fixed|by apply Qclt_le_weak]. }
  assert (H4 : eps <= a ⊕ f ⊕ m ⊕ eps).
  { apply add64_ge_r; [done|]. apply add64_nonneg; [|done]. by apply add64_nonneg. }
  set (s := a ⊕ f ⊕ m ⊕ eps) in *.
  assert (Hs : 0 < s) by by eapply Qclt_le_trans.
  assert (Has : a <= s).
  { eapply Qcle_trans; [exact H1|]. eapply Qcle_trans; [exact H2|exact H3]. }
  split; [by apply div64_nonneg|].
  rewrite <- binary64_1. apply binary64_le. by apply Qcdiv_le_1.
Qed.

(** The square of the temperature that divides is positive: the
    temperature is at least 0.01. *)
Lemma safe_square_pos (theta : Qc) :
  0 < Math_max theta (binary64 (lit 0.01)) ⊗ Math_max theta (binary64 (lit 0.01)).
Proof.
  destruct (Math_max_cases theta (binary64 (lit 0.01))) as (_ & _ & Hge).
  set (ts := Math_max theta (binary64 (lit 0.01))) in *.
  apply Qclt_le_trans with (binary64 (lit 0.01) ⊗ binary64 (lit 0.01)); [by vm_compute|].
  apply binary64_le.
  assert (H0 : 0 <= binary64 (lit 0.01)) by by vm_compute.
  generalize dependent (binary64 (lit 0.01)). intros c Hge H0. qc_positive.
Qed.

Lemma get_snoc_at (l : list Qc) (x : Qc) (n : nat) :
  length l = n → (l ++ [x]).[n] = x.
Proof. intros <-. apply get_snoc_r. Qed.

(** What the entropy loop has pushed after its first [n] nodes. *)

Lemma entropy_profile_nodes (p : Params) (W_final Theta_final : list Qc) :
  valid_params p →
  entropy_sized (entropy_profile p W_final Theta_final) (N p + 1)
  ∧ ∀ i, (i < N p + 1)%nat → entropy_node (entropy_profile p W_final Theta_final) i.
Proof.
  intros (HA1 & HA2 & HA3 & _ & _ & HHa & _ & HPr & HEc & _).
  apply Qclt_le_weak in HA1, HA2, HA3, HPr.
  unfold entropy_profile.
  apply (for_range_invariant
           (fun n e => entropy_sized e n ∧ ∀ i, (i < n)%nat → entropy_node e i)); [lia| |].
  { split; [done|]. intros i Hi. lia. }
  intros n e _ ((H1 & H2 & H3 & H4 & H5) & Hnodes).
  cbv zeta. unfold entropy_sized, entropy_node.
  cbn [Ns Be Ns_heat Ns_fluid Ns_magnetic]. rewrite !length_app. cbn [length].
  split; [lia|]. intros i Hi.
  destruct (decide (i = n)) as [->|Hne].
  - rewrite !(get_snoc_at _ _ n) by done.
    pose proof (Math_max_floor Theta_final.[n] (binary64 (lit 0.01))
                  ltac:(by vm_compute)) as Hsafe.
    pose proof (safe_square_pos Theta_final.[n]) as Hsafe2.
    set (theta_safe := Math_max Theta_final.[n] (binary64 (lit 0.01))) in *.
    split; [|split; [|split; [|split; [apply binary64_fixed|done]]]].
    + apply div64_nonneg; [|done]. apply mul64_nonneg; [done|]. apply mul64_square.
    + apply div64_nonneg; [|done]. apply mul64_nonneg; [|apply mul64_square].
      repeat apply mul64_nonneg; done.
    + apply div64_nonneg; [|done]. apply mul64_nonneg; [|apply mul64_square].
      repeat apply mul64_nonneg; done.
  - rewrite !get_snoc_l by lia. apply Hnodes. lia.
Qed.

Lemma entropy_node_Bejan (e : Entropy) (i : nat) :
  entropy_node e i → 0 <= (Be e).[i] ∧ (Be e).[i] <= 1.
Proof.
  intros (Hh & Hf & Hm & Hfixed & Hsum & ->). rewrite Hsum.
  apply share64_bounds; [done..| |done|].
  - by vm_compute.
  - apply binary64_fixed.
Qed.

(** X15. For valid parameters the entropy loop gives one value per node;
    at every node the three contributions (heat transfer, fluid friction,
    magnetic) are never negative, the local entropy generation is their
    sum, and the Bejan number, the share of heat transfer in that sum
    increased by [1e-12], lies between 0 and 1, both included (the sums and
    the quotient being those of binary64). *)
Theorem entropy_generation_bounds (p : Params) (W_final Theta_final : list Qc) :
  valid_params p →
  let e := entropy_profile p W_final Theta_final in
  length (Ns e) = (N p + 1)%nat ∧ length (Be e) = (N p + 1)%nat
  ∧ length (Ns_heat e) = (N p + 1)%nat ∧ length (Ns_fluid e) = (N p + 1)%nat
  ∧ length (Ns_magnetic e) = (N p + 1)%nat
  ∧ ∀ i, (i <= N p)%nat →
      0 <= (Ns_heat e).[i] ∧ 0 <= (Ns_fluid e).[i] ∧ 0 <= (Ns_magnetic e).[i]
      ∧ (Ns e).[i] = (Ns_heat e).[i] ⊕ (Ns_fluid e).[i] ⊕ (Ns_magnetic e).[i]
      ∧ (Be e).[i] = (Ns_heat e).[i] ⊘ ((Ns e).[i] ⊕ binary64 (lit 1e-12))
      ∧ 0 <= (Be e).[i] ∧ (Be e).[i] <= 1.
Proof.
  intros Hvalid. cbv zeta.
  destruct (entropy_profile_nodes p W_final Theta_final Hvalid)
    as ((H1 & H2 & H3 & H4 & H5) & Hnodes).
  repeat (split; [done|]).
  intros i Hi. pose proof (Hnodes i ltac:(lia)) as Hnode.
  pose proof (entropy_node_Bejan _ _ Hnode) as HBe.
  destruct Hnode as (Hh & Hf & Hm & _ & Hsum & HBe').
  by repeat (split; [done|]).
Qed.

Lemma entropy_generation_bounds_witness :
  valid_params (baseline 2)
  ∧ length (Be (entropy_profile (baseline 2) [0; lit 0.5; 1] [1; 1; lit 0.9])) = 3%nat.
Proof.
  assert (Hvalid : valid_params (baseline 2)) by (apply baseline_valid; lia).
  split; [exact Hvalid|].
  exact (proj1 (proj2 (entropy_generation_bounds (baseline 2)
                         [0; lit 0.5; 1] [1; 1; lit 0.9] Hvalid))).
Defined.

(** The bound 1 is reached: with [A3 = 1e6], no dissipation ([Ec = 0]) and a
    temperature gradient of 0.5 at a wall where the temperature is 1, the
    heat-transfer term is 250000 and absorbs the [1e-12] of the
    denominator. *)
Example Bejan_number_of_one :
  valid_params (mkParams 1 1 (lit 1e6) 1 1 1 1 1 0 1 0 0 (Some 2%nat))
  ∧ (Be (entropy_profile (mkParams 1 1 (lit 1e6) 1 1 1 1 1 0 1 0 0 (Some 2%nat))
           [0; lit 0.5; 1] [1; lit 1.25; lit 1.5])).[0] = 1.
Proof.
  split.
  - repeat split; try by vm_compute. cbn. lia.
  - apply Qc_is_canon. by vm_compute.
Qed.

(** *** The averages *)

Lemma fold_sum_bounds (l : list Qc) (a : Qc) :
  Forall (fun x => 0 <= x ∧ x <= 1) l →
  a <= fold_left Qcplus l a ∧ fold_left Qcplus l a <= a + of_nat (length l).
Proof.
  revert a. induction l as [|x l IH]; intros a Hl.
  - cbn [fold_left length]. change (of_nat 0) with 0.
    split; [apply Qcle_refl|]. rewrite Qcplus_0_r. apply Qcle_refl.
  - apply Forall_cons_1 in Hl. destruct Hl as [[Hx0 Hx1] Hl].
    destruct (IH (a + x) Hl) as (Hlow & Hup).
    cbn [fold_left length]. rewrite of_nat_S.
    generalize dependent (fold_left Qcplus l (a + x)).
    generalize dependent (of_nat (length l)). intros n s Hlow Hup.
    split; qc_positive.
Qed.

Lemma average_bounds (l : list Qc) :
  l ≠ [] → Forall (fun x => 0 <= x ∧ x <= 1) l →
  0 <= average l ∧ average l <= 1.
Proof.
  intros Hne Hl. unfold average.
  destruct (fold_sum_bounds l 0 Hl) as (Hlow & Hup).
  rewrite Qcplus_0_l in Hup.
  assert (Hn : 0 < of_nat (length l)).
  { apply of_nat_pos. destruct l; [done|]. cbn [length]. lia. }
  split; [by apply Qcdiv_nonneg|by apply Qcdiv_le_1].
Qed.

Lemma Forall_get (P : Qc → Prop) (l : list Qc) :
  (∀ i, (i < length l)%nat → P l.[i]) → Forall P l.
Proof.
  intros H. apply list.Forall_forall. intros x Hx.
  apply elem_of_get in Hx. destruct Hx as (i & Hi & <-). by apply H.
Qed.

(** X16. For valid parameters the average Bejan number among the metrics
    lies between 0 and 1, both included. *)
Theorem average_Bejan_bounds (p : Params) (tauFinal dtau : Qc) (saveFreq : nat) :
  valid_params p → 0 < dtau →
  0 <= m_avgBe (solution_metrics p tauFinal dtau saveFreq)
  ∧ m_avgBe (solution_metrics p tauFinal dtau saveFreq) <= 1.
Proof.
  intros Hvalid _. unfold solution_metrics. cbn [m_avgBe].
  set (en := entropy_profile p _ _).
  destruct (entropy_profile_nodes p _ _ Hvalid : _ ∧ ∀ i, _ → entropy_node en i)
    as ((_ & HlB & _) & Hnodes).
  fold en in HlB.
  apply average_bounds.
  - intros Hnil. rewrite Hnil in HlB. cbn [length] in HlB. lia.
  - apply Forall_get. intros i Hi.
    apply entropy_node_Bejan, Hnodes. lia.
Qed.

Lemma average_Bejan_bounds_witness :
  valid_params (baseline 4) ∧ 0 < lit 0.04
  ∧ 0 <= m_avgBe (solution_metrics (baseline 4) (lit 0.08) (lit 0.04) 1)
  ∧ m_avgBe (solution_metrics (baseline 4) (lit 0.08) (lit 0.04) 1) <= 1.
Proof.
  assert (Hvalid : valid_params (baseline 4)) by (apply baseline_valid; lia).
  assert (Hdtau : 0 < lit 0.04) by by vm_compute.
  split; [exact Hvalid|]. split; [exact Hdtau|].
  exact (average_Bejan_bounds (baseline 4) (lit 0.08) (lit 0.04) 1 Hvalid Hdtau).
Defined.

(** ** The surrogate model *)

Lemma Qcinv_pos (x : Qc) : 0 < x → 0 < / x.
Proof.
  intros Hx. unfold Qclt in *. cbn [this Qcinv Q2Qc] in *.
  rewrite !Qred_correct in *. by apply Qinv_lt_0_compat.
Qed.

Lemma Qcinv_antitone (x y : Qc) : 0 < x → x <= y → 1 / y <= 1 / x.
Proof.
  intros Hx Hxy.
  assert (Hy : 0 < y) by by eapply Qclt_le_trans.
  pose proof (Qcinv_pos x Hx) as Hix. pose proof (Qcinv_pos y Hy) as Hiy.
  replace (1 / y) with (x * (/ x * / y)) by (field; split; by apply Qc_pos_ne).
  replace (1 / x) with (y * (/ x * / y)) by (field; split; by apply Qc_pos_ne).
  apply Qcmult_le_compat_r; [done|].
  apply Qclt_le_weak. generalize dependent (/ x). generalize dependent (/ y).
  intros. qc_positive.
Qed.

(** Orders and equations of numbers, as statements on their fractions. *)
Ltac qc_fractions :=
  repeat match goal with H : @eq Qc _ _ |- _ => apply (f_equal this) in H end;
  unfold Qclt, Qcle, Qcminus in *;
  cbn [this Qcplus Qcmult Qcopp Q2Qc lit] in *;
  repeat match goal with H : Qred _ = Qred _ |- _ => apply Qred_eq_iff in H end;
  rewrite ?Qred_correct in *.

Lemma overshoot_below_1 (ha md : Qc) :
  0 <= ha → ha < 1 → md * (1 + lit 0.3 * ha * ha) = 1 →
  lit 5 < lit 15 * md - ha * 2.
Proof. intros H0 H1 Hprod. qc_fractions. nra. Qed.

Lemma overshoot_from_3 (ha md : Qc) :
  lit 3 <= ha → md * (1 + lit 0.3 * ha * ha) = 1 →
  lit 15 * md - ha * 2 <= 0.
Proof. intros H3 Hprod. qc_fractions. nra. Qed.

Lemma overshoot_antitone (ha1 ha2 md1 md2 : Qc) :
  ha1 <= ha2 → md2 <= md1 →
  lit 15 * md2 - ha2 * 2 <= lit 15 * md1 - ha1 * 2.
Proof. intros. qc_fractions. lra. Qed.

Lemma confidence_range (r : Qc) :
  0 <= r → r < 1 → lit 0.78 <= lit 0.78 + r * lit 0.15 ∧ lit 0.78 + r * lit 0.15 < lit 0.93.
Proof. intros. split; qc_fractions; lra. Qed.

(** The damping factor [md] of the surrogate. *)
Lemma damping_factor (ha : Qc) :
  0 < 1 + lit 0.3 * ha * ha ∧ 0 < 1 / (1 + lit 0.3 * ha * ha).
Proof.
  assert (Hd : 0 < 1 + lit 0.3 * ha * ha).
  { assert (H3 : 0 <= lit 0.3 * (ha * ha)).
    { apply Qcmult_nonneg; [by vm_compute|apply sq_nonneg]. }
    rewrite <- Qcmult_assoc. generalize dependent (lit 0.3 * (ha * ha)).
    intros. qc_positive. }
  split; [done|]. apply Qcdiv_pos; [by vm_compute|done].
Qed.

Lemma damping_factor_antitone (ha1 ha2 : Qc) :
  0 <= ha1 → ha1 <= ha2 →
  1 / (1 + lit 0.3 * ha2 * ha2) <= 1 / (1 + lit 0.3 * ha1 * ha1).
Proof.
  intros H1 H12. apply Qcinv_antitone; [apply damping_factor|].
  assert (Hsq : ha1 * ha1 <= ha2 * ha2) by qc_positive.
  rewrite <- !Qcmult_assoc.
  generalize dependent (ha1 * ha1). generalize dependent (ha2 * ha2).
  intros. unfold lit. qc_positive.
Qed.

Lemma Math_max_monotone (c x y : Qc) : x <= y → Math_max c x <= Math_max c y.
Proof.
  intros Hxy. destruct (Math_max_cases c y) as (_ & Hc & Hy).
  unfold Math_max at 1. case_bool_decide; [by eapply Qcle_trans|done].
Qed.

Lemma set_param_Ha (p : Params) (ha : Qc) :
  let q := set_param p name_Ha ha in
  Ha q = ha ∧ A1 q = A1 p ∧ A3 q = A3 p ∧ A4 q = A4 p ∧ Re q = Re p
  ∧ Pr q = Pr p ∧ Ec q = Ec p ∧ Bi q = Bi p ∧ lambda q = lambda p.
Proof. by destruct p. Qed.

(** X17. For valid parameters, the surrogate predicts that a stronger
    magnetic field gives a response that is not slower, a skin friction and
    an overshoot that are not larger, and the same Nusselt number. *)
Theorem surrogate_monotone_in_Ha (p : Params) (ha1 ha2 r : Qc) :
  valid_params p → 0 <= ha1 → ha1 <= ha2 →
  let weak := predict (set_param p name_Ha ha1) r in
  let strong := predict (set_param p name_Ha ha2) r in
  pr_tau95 strong <= pr_tau95 weak
  ∧ pr_settlingTime strong <= pr_settlingTime weak
  ∧ pr_Cf_final strong <= pr_Cf_final weak
  ∧ pr_overshoot strong <= pr_overshoot weak
  ∧ pr_Nu_final strong = pr_Nu_final weak.
Proof.
  intros (HA1 & _ & _ & HA4 & _ & _ & HRe & _ & _ & _ & Hl & _) H1 H12. cbv zeta.
  destruct (set_param_Ha p ha1) as (E1 & E2 & E3 & E4 & E5 & E6 & E7 & E8 & E9).
  destruct (set_param_Ha p ha2) as (F1 & F2 & F3 & F4 & F5 & F6 & F7 & F8 & F9).
  cbv zeta in *. unfold predict. cbv zeta.
  cbn [pr_tau95 pr_settlingTime pr_Cf_final pr_overshoot pr_Nu_final].
  rewrite E1, E2, E3, E4, E5, E6, E7, E8, E9, F1, F2, F3, F4, F5, F6, F7, F8, F9.
  pose proof (damping_factor_antitone ha1 ha2 H1 H12) as Hmd.
  set (md1 := 1 / (1 + lit 0.3 * ha1 * ha1)) in *.
  set (md2 := 1 / (1 + lit 0.3 * ha2 * ha2)) in *.
  assert (Hk1 : 0 <= lit 0.5 * A4 p / A1 p).
  { apply Qcdiv_nonneg; [|done]. apply Qcmult_nonneg; [by vm_compute|by apply Qclt_le_weak]. }
  assert (Hk2 : 0 <= 1 + lit 0.1 * lambda p).
  { apply Qcplus_nonneg; [by vm_compute|]. apply Qcmult_nonneg; [by vm_compute|done]. }
  assert (Hk3 : 0 <= A1 p * Re p / (1 + lambda p)).
  { apply Qcdiv_nonneg; [apply Qcmult_nonneg; [by apply Qclt_le_weak|done]|].
    generalize dependent (lambda p). intros. qc_positive. }
  assert (Htau : lit 0.5 * A4 p / A1 p * md2 * (1 + lit 0.1 * lambda p)
                 <= lit 0.5 * A4 p / A1 p * md1 * (1 + lit 0.1 * lambda p)).
  { apply Qcmult_le_compat_r; [|done].
    rewrite !(Qcmult_comm (lit 0.5 * A4 p / A1 p)). by apply Qcmult_le_compat_r. }
  split; [done|].
  split; [apply Qcmult_le_compat_r; [done|by vm_compute]|].
  split; [rewrite !(Qcmult_comm (A1 p * Re p / (1 + lambda p)));
          by apply Qcmult_le_compat_r|].
  split; [|done].
  apply Math_max_monotone. by apply overshoot_antitone.
Qed.

Lemma surrogate_monotone_in_Ha_witness :
  valid_params (baseline 4) ∧ 0 <= 1 ∧ 1 <= 2
  ∧ pr_tau95 (predict (set_param (baseline 4) name_Ha 2) (lit 0.5))
    <= pr_tau95 (predict (set_param (baseline 4) name_Ha 1) (lit 0.5)).
Proof.
  assert (Hvalid : valid_params (baseline 4)) by (apply baseline_valid; lia).
  assert (H1 : 0 <= 1) by by vm_compute.
  assert (H12 : 1 <= 2) by by vm_compute.
  split; [exact Hvalid|]. split; [exact H1|]. split; [exact H12|].
  exact (proj1 (surrogate_monotone_in_Ha (baseline 4) 1 2 (lit 0.5) Hvalid H1 H12)).
Defined.

(** X18. The label of the surrogate agrees with the rule by which the
    solver classifies an overshoot at both ends of the range of [Ha]: below
    1 the predicted overshoot exceeds 5 (underdamped), from 3 on it is zero
    (overdamped); and the confidence lies in [0.78, 0.93). *)
Theorem surrogate_labels (p : Params) (r : Qc) :
  0 <= Ha p → 0 <= r → r < 1 →
  let pred := predict p r in
  (Ha p < 1 →
   pr_dampingType pred = Underdamped ∧ lit 5 < pr_overshoot pred
   ∧ dampingType_of (Finite (pr_overshoot pred)) = Underdamped)
  ∧ (lit 3 <= Ha p →
     pr_dampingType pred = Overdamped ∧ pr_overshoot pred = 0
     ∧ dampingType_of (Finite (pr_overshoot pred)) = Overdamped)
  ∧ lit 0.78 <= pr_confidence pred ∧ pr_confidence pred < lit 0.93.
Proof.
  intros HHa Hr0 Hr1. cbv zeta. unfold predict. cbv zeta.
  cbn [pr_dampingType pr_overshoot pr_confidence].
  destruct (damping_factor (Ha p)) as [HD Hmd].
  assert (Hprod : 1 / (1 + lit 0.3 * Ha p * Ha p) * (1 + lit 0.3 * Ha p * Ha p) = 1).
  { field. by apply Qc_pos_ne. }
  set (md := 1 / (1 + lit 0.3 * Ha p * Ha p)) in *.
  split; [|split; [|split]].
  - intros Hlow. rewrite (bool_decide_eq_true_2 _ Hlow).
    assert (Hover : lit 5 < lit 15 * md - Ha p * 2) by by apply overshoot_below_1.
    assert (Hmax : Math_max 0 (lit 15 * md - Ha p * 2) = lit 15 * md - Ha p * 2).
    { unfold Math_max. rewrite bool_decide_eq_true_2; [done|].
      eapply Qclt_trans; [|exact Hover]. by vm_compute. }
    rewrite Hmax. split; [done|]. split; [done|].
    unfold dampingType_of. cbn [js_gt]. by rewrite (bool_decide_eq_true_2 _ Hover).
  - intros Hhigh.
    rewrite (bool_decide_eq_false_2 (Ha p < 1))
      by (apply Qcle_not_lt; eapply Qcle_trans; [|exact Hhigh]; by vm_compute).
    rewrite (bool_decide_eq_false_2 (Ha p < lit 3)) by by apply Qcle_not_lt.
    assert (Hneg : lit 15 * md - Ha p * 2 <= 0) by by apply overshoot_from_3.
    assert (Hmax : Math_max 0 (lit 15 * md - Ha p * 2) = 0).
    { unfold Math_max. rewrite bool_decide_eq_false_2; [done|]. by apply Qcle_not_lt. }
    rewrite Hmax. split; [done|]. split; [done|]. by vm_compute.
  - by apply confidence_range.
  - by apply confidence_range.
Qed.

Lemma surrogate_labels_witness :
  0 <= Ha (baseline 4) ∧ 0 <= lit 0.5 ∧ lit 0.5 < 1
  ∧ lit 0.78 <= pr_confidence (predict (baseline 4) (lit 0.5))
  ∧ pr_confidence (predict (baseline 4) (lit 0.5)) < lit 0.93.
Proof.
  assert (H1 : 0 <= Ha (baseline 4)) by by vm_compute.
  assert (H2 : 0 <= lit 0.5) by by vm_compute.
  assert (H3 : lit 0.5 < 1) by by vm_compute.
  split; [exact H1|]. split; [exact H2|]. split; [exact H3|].
  exact (proj2 (proj2 (surrogate_labels (baseline 4) (lit 0.5) H1 H2 H3))).
Defined.

(** ** The validator *)

Lemma own_validity_in (table : list (string * Validity)) (key : string) (spec : Validity) :
  own_validity table key = Some spec → (key, spec) ∈ table.
Proof.
  induction table as [|[name s] table IH]; [done|].
  cbn [own_validity]. case_bool_decide as Hname.
  - intros [= ->]. subst. by left.
  - intros H. right. by apply IH.
Qed.

Lemma own_validity_None (table : list (string * Validity)) (key : string) :
  key ∉ map fst table → own_validity table key = None.
Proof.
  induction table as [|[name s] table IH]; [done|].
  cbn [own_validity map fst]. intros Hnot.
  apply not_elem_of_cons in Hnot. destruct Hnot as [Hne Hnot].
  rewrite bool_decide_eq_false_2 by done. by apply IH.
Qed.

(** The table bounds every parameter from below and from above,
    consistently, and none of its keys is a member of [Object.prototype]. *)
Lemma table_facts (key : string) (spec : Validity) :
  own_validity PARAMETER_VALIDITY key = Some spec →
  v_min spec <= v_max spec ∧ key ∉ Object_prototype_names.
Proof.
  intros H. apply own_validity_in in H. unfold PARAMETER_VALIDITY in H.
  repeat (apply elem_of_cons in H; destruct H as [[= -> ->]|H]);
    [..|by apply elem_of_nil in H];
    (split; [by vm_compute|apply (bool_decide_unpack _); by vm_compute]).
Qed.

Lemma PARAMETER_VALIDITY_get_inherited (key : string) :
  PARAMETER_VALIDITY_get key = InheritedMember ↔ key ∈ Object_prototype_names.
Proof.
  unfold PARAMETER_VALIDITY_get.
  destruct (own_validity PARAMETER_VALIDITY key) as [spec|] eqn:Hown.
  - apply table_facts in Hown. destruct Hown as [_ Hnot]. split; [done|]. intros. done.
  - case_bool_decide; split; done.
Qed.

Lemma push_warnings (name : string) (value : Qc) (ws : list Warning) (warnings : list string) :
  ∃ more,
    fold_left
      (fun warnings w =>
         if condition w value
         then warnings ++ [(name +:+ ": " +:+ message w)%string]
         else warnings)
      ws warnings
    = warnings ++ more.
Proof.
  revert warnings. induction ws as [|w ws IH]; intros warnings; cbn [fold_left].
  - exists []. by rewrite app_nil_r.
  - destruct (condition w value).
    + destruct (IH (warnings ++ [(name +:+ ": " +:+ message w)%string])) as (more & ->).
      eexists. by rewrite <- app_assoc.
    + apply IH.
Qed.

(** What the body of the loop does with one entry. *)
Lemma check_entry_spec (entry : string * Qc) (warnings : list string) (errors : list Problem) :
  (check_entry entry (warnings, errors) = None ∧ fst entry ∈ Object_prototype_names)
  ∨ ((∃ more new,
         check_entry entry (warnings, errors) = Some (warnings ++ more, errors ++ new)
         ∧ (new = [] ↔ within_validity entry)
         ∧ (length new <= 1)%nat
         ∧ (own_validity PARAMETER_VALIDITY (fst entry) = None → more = [] ∧ new = []))
     ∧ fst entry ∉ Object_prototype_names).
Proof.
  destruct entry as [key value]. unfold check_entry, within_validity. cbn [fst snd].
  pose proof (PARAMETER_VALIDITY_get_inherited key) as Hinh.
  unfold PARAMETER_VALIDITY_get in *.
  destruct (own_validity PARAMETER_VALIDITY key) as [spec|] eqn:Hown.
  - right. destruct (table_facts key spec Hown) as [Hord Hnot].
    split; [|done].
    destruct (push_warnings (v_name spec) value (v_warnings spec) warnings) as (more & ->).
    exists more.
    case_bool_decide as Hhigh; case_bool_decide as Hlow.
    + exfalso. apply (Qclt_not_le _ _ Hlow).
      eapply Qcle_trans; [exact Hord|by apply Qclt_le_weak].
    + eexists. split; [done|]. split; [|split; [done|done]].
      split; [done|]. intros Hin. destruct (Hin spec eq_refl) as [_ Hle].
      exfalso. by apply (Qclt_not_le _ _ Hhigh).
    + eexists. split; [done|]. split; [|split; [done|done]].
      split; [done|]. intros Hin. destruct (Hin spec eq_refl) as [Hge _].
      exfalso. by apply (Qclt_not_le _ _ Hlow).
    + exists []. rewrite app_nil_r. split; [done|]. split; [|split; [cbn; lia|done]].
      split; [|done]. intros _ spec' [= <-]. split; by apply Qcnot_lt_le.
  - case_bool_decide as Hproto.
    + left. by split.
    + right. split; [|done]. exists [], []. rewrite !app_nil_r.
      split; [done|]. split; [|split; [cbn; lia|done]].
      split; [|done]. intros _ spec' [=].
Qed.

Lemma check_step_None (params : list (string * Qc)) :
  fold_left check_step params None = None.
Proof. by induction params. Qed.

(** The loop over the entries, from any result so far. *)
Lemma check_loop_spec (params : list (string * Qc)) (warnings : list string)
    (errors : list Problem) :
  (fold_left check_step params (Some (warnings, errors)) = None
   ∧ Exists (fun entry => fst entry ∈ Object_prototype_names) params)
  ∨ ((∃ more new,
         fold_left check_step params (Some (warnings, errors))
         = Some (warnings ++ more, errors ++ new)
         ∧ (new = [] ↔ Forall within_validity params)
         ∧ (length new <= length params)%nat)
     ∧ Forall (fun entry => fst entry ∉ Object_prototype_names) params).
Proof.
  revert warnings errors. induction params as [|entry params IH]; intros warnings errors.
  - right. split; [|constructor]. exists [], []. rewrite !app_nil_r.
    split; [done|]. split; [|done]. split; [constructor|done].
  - cbn [fold_left check_step].
    destruct (check_entry_spec entry warnings errors)
      as [[-> Hproto]|((more & new & -> & Hnew & Hlen & _) & Hnot)].
    + left. split; [apply check_step_None|by left].
    + destruct (IH (warnings ++ more) (errors ++ new))
        as [[-> Hex]|((more' & new' & -> & Hnew' & Hlen') & Hall)].
      * left. split; [done|by right].
      * right. split; [|by constructor].
        exists (more ++ more'), (new ++ new'). rewrite !app_assoc.
        split; [done|]. split.
        -- split.
           ++ intros Hnil. apply app_eq_nil in Hnil. destruct Hnil as [H1 H2].
              constructor; [by apply Hnew|by apply Hnew'].
           ++ intros Hall'. apply Forall_cons_1 in Hall'. destruct Hall' as [H1 H2].
              apply Hnew in H1. apply Hnew' in H2. by subst.
        -- rewrite length_app. cbn [length]. lia.
Qed.

(** The baseline preset passes without warning; a record out of range is
    rejected, with a warning for each value near or beyond the end of its
    range; a key named like a member of [Object.prototype] makes the
    validator throw. *)
Example validation_examples :
  validateParameters (entries_of (baseline 50)) = Some (mkValidation [] [] true)
  ∧ option_map warnings
      (validateParameters [("Ha"%string, lit 12); ("Re"%string, lit 4.5)])
    = Some [ "Hartmann Number: Very high magnetic damping - flow may be suppressed";
             "Reynolds Number: High inertia - ensure numerical stability" ]%string
  ∧ option_map (fun result => (length (errors result), isValid result))
      (validateParameters [("Ha"%string, lit 12); ("Re"%string, lit 4.5)])
    = Some (1%nat, false)
  ∧ validateParameters [("toString"%string, 1)] = None.
Proof. repeat split; by vm_compute. Qed.

(** X19. On a record none of whose keys is the name of a member of
    [Object.prototype], the validator returns; it declares the record valid
    exactly when every value whose key is in the table lies between the
    bounds of its entry, and it reports at most one error for each entry of
    the record. *)
Theorem validation_verdict (params : list (string * Qc)) :
  Forall (fun entry => fst entry ∉ Object_prototype_names) params →
  ∃ result,
    validateParameters params = Some result
    ∧ (isValid result = true ↔ Forall within_validity params)
    ∧ (length (errors result) <= length params)%nat.
Proof.
  intros Hkeys. unfold validateParameters, check_entries.
  destruct (check_loop_spec params [] [])
    as [[_ Hex]|((more & new & -> & Hnew & Hlen) & _)].
  - exfalso. apply list.Exists_exists in Hex. destruct Hex as (entry & Hin & Hproto).
    rewrite list.Forall_forall in Hkeys. by apply (Hkeys entry).
  - cbn [app]. eexists. split; [done|]. cbn [isValid errors].
    split; [|done]. rewrite <- Hnew, Nat.eqb_eq. by destruct new.
Qed.

Lemma validation_verdict_witness :
  Forall (fun entry => fst entry ∉ Object_prototype_names) (entries_of (baseline 50))
  ∧ ∃ result,
      validateParameters (entries_of (baseline 50)) = Some result
      ∧ (isValid result = true ↔ Forall within_validity (entries_of (baseline 50)))
      ∧ (length (errors result) <= length (entries_of (baseline 50)))%nat.
Proof.
  assert (Hkeys : Forall (fun entry => fst entry ∉ Object_prototype_names)
                    (entries_of (baseline 50))).
  { unfold entries_of.
    repeat (constructor; [apply (bool_decide_unpack _); by vm_compute|]). constructor. }
  split; [exact Hkeys|].
  exact (validation_verdict (entries_of (baseline 50)) Hkeys).
Defined.

(** X20. The validator throws exactly on a record one of whose keys is the
    name of a member of [Object.prototype]. *)
Theorem validation_throws (params : list (string * Qc)) :
  validateParameters params = None
  ↔ Exists (fun entry => fst entry ∈ Object_prototype_names) params.
Proof.
  unfold validateParameters, check_entries.
  destruct (check_loop_spec params [] [])
    as [[-> Hex]|((more & new & -> & _) & Hall)].
  - done.
  - split; [done|]. intros Hex. exfalso.
    apply list.Exists_exists in Hex. destruct Hex as (entry & Hin & Hproto).
    rewrite list.Forall_forall in Hall. by apply (Hall entry).
Qed.

Lemma field_skip (ps1 ps2 : list (string * Qc)) (k key : string) (v : Qc) :
  key ≠ k → field (ps1 ++ (k, v) :: ps2) key = field (ps1 ++ ps2) key.
Proof.
  intros Hne. induction ps1 as [|[name value] ps1 IH]; cbn [app field].
  - by rewrite bool_decide_eq_false_2 by done.
  - by rewrite IH.
Qed.

(** X21. An entry whose key is neither in the table nor the name of a
    member of [Object.prototype] (a ratio [A1] to [A5], the grid size [N],
    a misspelt name) is ignored: the result is the same with and without
    it, whatever its value. *)
Theorem validation_ignores_other_keys
    (ps1 ps2 : list (string * Qc)) (k : string) (v : Qc) :
  k ∉ map fst PARAMETER_VALIDITY → k ∉ Object_prototype_names →
  validateParameters (ps1 ++ (k, v) :: ps2) = validateParameters (ps1 ++ ps2).
Proof.
  intros Htable Hproto.
  assert (Hskip : ∀ acc, check_step acc (k, v) = acc).
  { intros [[warnings errors]|]; [|done]. cbn [check_step].
    unfold check_entry, PARAMETER_VALIDITY_get.
    rewrite (own_validity_None _ _ Htable). by rewrite bool_decide_eq_false_2. }
  assert (Hkey : ∀ key, key ∈ map fst PARAMETER_VALIDITY → key ≠ k).
  { intros key Hin ->. done. }
  unfold validateParameters, field_gt, field_lt, check_entries.
  rewrite !fold_left_app. cbn [fold_left]. rewrite Hskip.
  rewrite !(field_skip ps1 ps2 k) by (apply Hkey, (bool_decide_unpack _); by vm_compute).
  done.
Qed.

Lemma validation_ignores_other_keys_witness :
  ("A1"%string ∉ map fst PARAMETER_VALIDITY) ∧ ("A1"%string ∉ Object_prototype_names)
  ∧ validateParameters ([] ++ ("A1"%string, - (1)) :: [("Ha"%string, 2)])
    = validateParameters ([] ++ [("Ha"%string, 2)]).
Proof.
  assert (H1 : "A1"%string ∉ map fst PARAMETER_VALIDITY)
    by (apply (bool_decide_unpack _); by vm_compute).
  assert (H2 : "A1"%string ∉ Object_prototype_names)
    by (apply (bool_decide_unpack _); by vm_compute).
  split; [exact H1|]. split; [exact H2|].
  exact (validation_ignores_other_keys [] [("Ha"%string, 2)] "A1" (- (1)) H1 H2).
Defined.

(** ** The optimizer: sorting, elitism and the course of a run *)

Lemma sort_insert_sorted (a : Evaluated) (l : list Evaluated) :
  StronglySorted fitter_first l → StronglySorted fitter_first (sort_insert a l).
Proof.
  intros Hl. induction Hl as [|b l Hl IH Hb]; cbn [sort_insert].
  - repeat constructor.
  - unfold compareFn. case_bool_decide as Hcmp.
    + constructor; [done|].
      apply list.Forall_forall. intros e He.
      rewrite sort_insert_permutation in He. apply elem_of_cons in He as [->|He].
      * unfold fitter_first. qc_fractions. lra.
      * rewrite list.Forall_forall in Hb. by apply Hb.
    + assert (Hba : fitter_first a b) by (unfold fitter_first; qc_fractions; lra).
      constructor; [by constructor|]. constructor; [done|].
      eapply list.Forall_impl; [exact Hb|].
      intros e He. unfold fitter_first in *. by eapply Qcle_trans.
Qed.

Lemma sort_sorted (l : list Evaluated) : StronglySorted fitter_first (sort l).
Proof.
  induction l as [|a l IH]; [constructor|]. cbn [sort foldr].
  by apply sort_insert_sorted.
Qed.

Lemma sort_insert_stable (q : Qc) (a : Evaluated) (l : list Evaluated) :
  List.filter (fun e => bool_decide (fit e = q)) (sort_insert a l)
  = List.filter (fun e => bool_decide (fit e = q)) (a :: l).
Proof.
  induction l as [|b l IH]; [done|]. cbn [sort_insert].
  unfold compareFn. case_bool_decide as Hcmp; [|done].
  cbn [List.filter] in *. rewrite IH.
  case_bool_decide as Ha; [|done].
  rewrite bool_decide_eq_false_2; [done|].
  intros Hb. rewrite Ha, Hb in Hcmp. qc_fractions. lra.
Qed.

Lemma sort_stable (q : Qc) (l : list Evaluated) :
  List.filter (fun e => bool_decide (fit e = q)) (sort l)
  = List.filter (fun e => bool_decide (fit e = q)) l.
Proof.
  induction l as [|a l IH]; [done|]. cbn [sort foldr].
  rewrite sort_insert_stable. cbn [List.filter]. fold (sort l). by rewrite IH.
Qed.

(** X22. The evaluated population is the population with the fitness of
    each individual, sorted by decreasing fitness, individuals of equal
    fitness keeping their order. *)
Theorem evaluate_sorted_stable (o : TransientOptimizer) (population : list Individual) :
  let ev := evaluate o population in
  let scored := map (fun i => mkEvaluated i (fn o i)) population in
  StronglySorted (fun a b => fit b <= fit a) ev
  ∧ ev ≡ₚ scored
  ∧ ∀ q, List.filter (fun e => bool_decide (fit e = q)) ev
         = List.filter (fun e => bool_decide (fit e = q)) scored.
Proof.
  cbv zeta. unfold evaluate.
  split; [apply sort_sorted|]. split; [apply sort_permutation|].
  intros q. apply sort_stable.
Qed.

Lemma for_of_total {A St : Type} (l : list A) (body : A → St → Rand St) :
  (∀ e s c, ∃ s' c', body e s c = Some (s', c')) →
  ∀ s c, ∃ s' c', for_of l body s c = Some (s', c').
Proof.
  intros Hbody s c.
  destruct (for_of_invariant (fun _ _ => True) l body) with (s := s) (c := c)
    as (s' & c' & Hfor & _); [|done|by exists s', c'].
  intros handled e rest s0 c0 _ _.
  destruct (Hbody e s0 c0) as (s1 & c1 & H1). by exists s1, c1.
Qed.

Section Run.

Variable random : nat → Qc.
Variable o : TransientOptimizer.

(** The three operators never throw. *)
Lemma createInd_total (c : nat) : ∃ i c', createInd random o c = Some (i, c').
Proof.
  unfold createInd. apply for_of_total.
  intros [k [min max]] s c0. by eexists _, _.
Qed.

Lemma crossover_total (p1 p2 : Individual) (c : nat) :
  ∃ i c', crossover random o p1 p2 c = Some (i, c').
Proof.
  unfold crossover. apply for_of_total.
  intros k s c0. by eexists _, _.
Qed.

Lemma mutate_total (i : Individual) (c : nat) :
  ∃ m c', mutate random o i c = Some (m, c').
Proof.
  unfold mutate. apply for_of_total.
  intros [k [min max]] s c0. unfold bind, Math_random.
  case_bool_decide; by eexists _, _.
Qed.

Lemma initial_population_length (n c : nat) :
  ∃ pop0 c', initial_population random o n c = Some (pop0, c') ∧ length pop0 = n.
Proof.
  revert c. induction n as [|n IH]; intros c.
  - by exists [], c.
  - destruct (createInd_total c) as (i & c1 & Hcreate).
    destruct (IH c1) as (rest & c' & Hrest & Hlen).
    exists (i :: rest), c'. split; [|by cbn [length]; rewrite Hlen].
    cbn [initial_population]. unfold bind. by rewrite Hcreate, Hrest.
Qed.

Lemma evaluate_length (population : list Individual) :
  length (evaluate o population) = length population.
Proof.
  unfold evaluate. by rewrite (Permutation_length (sort_permutation _)), length_map.
Qed.

Lemma evaluate_fit (population : list Individual) (e : Evaluated) :
  e ∈ evaluate o population → fit e = fn o (ind e) ∧ ind e ∈ population.
Proof.
  unfold evaluate. rewrite sort_permutation.
  intros Hin. apply list_elem_of_In, in_map_iff in Hin as (i & <- & Hi).
  split; [done|]. by apply list_elem_of_In.
Qed.

(** The first entry of the evaluated population is a fittest one. *)
Lemma evaluate_head (population : list Individual) (ev0 : Evaluated) :
  evaluate o population !! 0%nat = Some ev0 →
  fit ev0 = fn o (ind ev0) ∧ ind ev0 ∈ population
  ∧ ∀ i, i ∈ population → fn o i <= fit ev0.
Proof.
  intros H0.
  pose proof (list_elem_of_lookup_2 _ _ _ H0) as Hin.
  destruct (evaluate_fit _ _ Hin) as [Hfit Hmem].
  split; [done|]. split; [done|]. intros i Hi.
  assert (Hscored : mkEvaluated i (fn o i) ∈ evaluate o population).
  { unfold evaluate. rewrite sort_permutation.
    apply list_elem_of_In, (in_map (fun i => mkEvaluated i (fn o i))).
    by apply list_elem_of_In. }
  pose proof (sort_sorted (map (fun i => mkEvaluated i (fn o i)) population)) as Hsorted.
  fold (evaluate o population) in Hsorted.
  destruct (evaluate o population) as [|e ev]; [done|].
  injection H0 as ->.
  apply StronglySorted_inv in Hsorted as [_ Hall].
  apply elem_of_cons in Hscored as [<-|Hscored]; [apply Qcle_refl|].
  rewrite list.Forall_forall in Hall. exact (Hall _ Hscored).
Qed.

Hypothesis random_unit : unit_interval random.

(** Filling the next population never throws on an evaluated population
    that is not empty: it appends one child for each place left. *)
Lemma fill_appends (todo : nat) (ev : list Evaluated) (newPop : list Individual) (c : nat) :
  ev ≠ [] →
  ∃ children c',
    fill random o todo ev newPop c = Some (newPop ++ children, c')
    ∧ length children = todo.
Proof using random_unit.
  intros Hev. revert newPop c.
  induction todo as [|todo IH]; intros newPop c.
  - exists [], c. by rewrite app_nil_r.
  - destruct (sel_member random random_unit ev c Hev) as (e1 & c1 & Hsel1 & _).
    destruct (sel_member random random_unit ev c1 Hev) as (e2 & c2 & Hsel2 & _).
    destruct (crossover_total (ind e1) (ind e2) c2) as (child & c3 & Hcross).
    destruct (mutate_total child c3) as (m & c4 & Hmut).
    destruct (IH (newPop ++ [m]) c4) as (children & c' & Hfill & Hlen).
    exists (m :: children), c'. split; [|by cbn [length]; rewrite Hlen].
    cbn [fill]. unfold bind. rewrite Hsel1, Hsel2, Hcross, Hmut, Hfill.
    by rewrite <- app_assoc.
Qed.

(** One generation on a population of at least two. *)
Lemma generation_body_runs (g : nat) (st : OptState) (c : nat) :
  (2 <= length (pop st))%nat →
  ∃ ev0 ev1 children c',
    evaluate o (pop st) !! 0%nat = Some ev0
    ∧ evaluate o (pop st) !! 1%nat = Some ev1
    ∧ length children = (popSize o - 2)%nat
    ∧ generation_body random o g st c
      = Running
          (mkOptState (ind ev0 :: ind ev1 :: children)
             (if exceeds (fit ev0) (bestFit st) then Some (ind ev0) else best st)
             (if exceeds (fit ev0) (bestFit st) then Fit (fit ev0) else bestFit st)
             (reported st
              ++ [mkProgress g (gens o)
                    (if exceeds (fit ev0) (bestFit st) then Fit (fit ev0) else bestFit st)
                    (if exceeds (fit ev0) (bestFit st) then Some (ind ev0) else best st)]))
          c'.
Proof using random_unit.
  intros Hlen. rewrite <- evaluate_length in Hlen.
  destruct (lookup_lt_is_Some_2 (evaluate o (pop st)) 0) as [ev0 H0]; [lia|].
  destruct (lookup_lt_is_Some_2 (evaluate o (pop st)) 1) as [ev1 H1]; [lia|].
  destruct (fill_appends (popSize o - 2) (evaluate o (pop st)) [ind ev0; ind ev1] c)
    as (children & c' & Hfill & Hchildren).
  { intros Hnil. by rewrite Hnil in H0. }
  exists ev0, ev1, children, c'. split; [done|]. split; [done|]. split; [done|].
  unfold generation_body. rewrite H0, H1.
  destruct (exceeds (fit ev0) (bestFit st)); by rewrite Hfill.
Qed.

Lemma after_generations_runs (g c : nat) :
  (2 <= popSize o)%nat →
  ∃ st c', after_generations random o g c = Running st c' ∧ run_invariant o g st.
Proof using random_unit.
  intros Hsize. induction g as [|g IH]; cbn [after_generations].
  - destruct (initial_population_length (popSize o) c) as (pop0 & c' & -> & Hlen).
    eexists _, _. split; [done|]. unfold run_invariant. cbn [pop reported].
    split; [done|]. split; [done|]. split; [constructor|]. split; [done|]. intros Hg. lia.
  - destruct IH as (st & c1 & -> & Hpop & Hgen & Htotal & Hfirst & Hbest).
    destruct (generation_body_runs g st c1) as (ev0 & ev1 & children & c' & H0 & H1 & Hlen & ->);
      [lia|].
    eexists _, _. split; [done|]. unfold run_invariant. cbn [pop reported best bestFit].
    split; [cbn [length]; lia|].
    split; [by rewrite map_app, Hgen, seq_S|].
    split; [apply Forall_app; split; [done|by repeat constructor]|].
    split; [done|].
    intros _. rewrite last_snoc. replace (S g - 1)%nat with g by lia.
    destruct (evaluate_head _ _ H0) as (Hfit & _).
    destruct (exceeds (fit ev0) (bestFit st)) eqn:Hex.
    + exists (ind ev0). by rewrite Hfit.
    + destruct g as [|g].
      * destruct (Hfirst eq_refl) as [_ Hneg]. by rewrite Hneg in Hex.
      * destruct Hbest as (b & Hb & Hfitb & _); [lia|]. by exists b.
Qed.

(** A generation never lowers the best fitness, which after it is at least
    the fitness of every individual of the population it evaluated. *)
Lemma generation_body_dominates (g : nat) (st st1 : OptState) (c c1 : nat) :
  generation_body random o g st c = Running st1 c1 →
  Fitness_le (bestFit st) (bestFit st1)
  ∧ ∀ i, i ∈ pop st → Fitness_le (Fit (fn o i)) (bestFit st1).
Proof.
  unfold generation_body.
  destruct (evaluate o (pop st) !! 0%nat) as [ev0|] eqn:H0; [|done].
  destruct (evaluate_head _ _ H0) as (_ & _ & Hmax).
  destruct (evaluate o (pop st) !! 1%nat) as [ev1|];
    [|by destruct (exceeds (fit ev0) (bestFit st))].
  destruct (exceeds (fit ev0) (bestFit st)) eqn:Hex;
    (destruct (fill random o (popSize o - 2) (evaluate o (pop st))
               [ind ev0; ind ev1] c) as [[newPop c']|]; [|done]);
    intros [= <- <-]; cbn [bestFit].
  - split; [by apply exceeds_le|]. intros i Hi. by apply Hmax.
  - split; [apply Fitness_le_refl|]. intros i Hi.
    destruct (bestFit st) as [|q]; [done|]. cbn [exceeds] in Hex.
    apply bool_decide_eq_false in Hex. apply Qcnot_lt_le in Hex.
    cbn [Fitness_le]. eapply Qcle_trans; [by apply Hmax|done].
Qed.

Lemma after_generations_dominates (g g' : nat) (c : nat) (st st' : OptState) (c1 c2 : nat) :
  after_generations random o g c = Running st c1 →
  after_generations random o g' c = Running st' c2 →
  (g' < g)%nat →
  Fitness_le (bestFit st') (bestFit st)
  ∧ ∀ i, i ∈ pop st' → Fitness_le (Fit (fn o i)) (bestFit st).
Proof.
  revert st c1. induction g as [|g IH]; intros st c1 Hg Hg' Hlt; [lia|].
  cbn [after_generations] in Hg.
  destruct (after_generations random o g c) as [st0 c0|st0] eqn:Hprev; [|done].
  destruct (generation_body_dominates _ _ _ _ _ Hg) as [Hmono Hdom].
  destruct (decide (g' = g)) as [->|Hne].
  - rewrite Hprev in Hg'. injection Hg' as <- <-. by split.
  - destruct (IH st0 c0 eq_refl Hg' ltac:(lia)) as [Hle Hall].
    split; [by eapply Fitness_le_trans|].
    intros i Hi. eapply Fitness_le_trans; [by apply Hall|done].
Qed.


End Run.





(** X25. With random numbers in [0, 1) and a population of at least two,
    the fitness returned is at least the fitness of every individual of
    every population that was evaluated (the initial population and the
    one left by each generation but the last). *)
Theorem returned_fitness_dominates
    (random : nat → Qc) (o : TransientOptimizer) (cursor : nat) :
  unit_interval random → (2 <= popSize o)%nat →
  ∃ b f,
    fst (optimize random o cursor) = Returned b f
    ∧ ∀ g i, (g < gens o)%nat →
        i ∈ pop (run_state (after_generations random o g cursor)) →
        Fitness_le (Fit (fn o i)) f.
Proof.
  intros Hunit Hsize. unfold optimize.
  destruct (after_generations_runs random o Hunit (gens o) cursor Hsize)
    as (st & c & Hrun & _).
  rewrite Hrun. exists (best st), (bestFit st). split; [done|].
  intros g i Hg Hi.
  destruct (after_generations_runs random o Hunit g cursor Hsize)
    as (st' & c' & Hrun' & _).
  rewrite Hrun' in Hi. cbn [run_state] in Hi.
  by apply (after_generations_dominates random o (gens o) g cursor st st' c c').
Qed.

Lemma returned_fitness_dominates_witness :
  unit_interval cycle_of_ten ∧ (2 <= popSize small_run)%nat
  ∧ ∃ b f,
      fst (optimize cycle_of_ten small_run 0) = Returned b f
      ∧ ∀ g i, (g < gens small_run)%nat →
          i ∈ pop (run_state (after_generations cycle_of_ten small_run g 0)) →
          Fitness_le (Fit (fn small_run i)) f.
Proof.
  assert (Hsize : (2 <= popSize small_run)%nat) by (vm_compute; lia).
  split; [exact cycle_of_ten_unit|]. split; [exact Hsize|].
  exact (returned_fitness_dominates cycle_of_ten small_run 0 cycle_of_ten_unit Hsize).
Defined.

(** X26. Elitism.  With random numbers in [0, 1) and a population of at
    least two, each generation opens the next population with the two
    individuals it ranked first, unchanged, the first of which is a fittest
    individual of the population evaluated, and completes it with
    [popSize - 2] children. *)
Theorem elites_carried_over
    (random : nat → Qc) (o : TransientOptimizer) (cursor g : nat) :
  unit_interval random → (2 <= popSize o)%nat →
  let before := pop (run_state (after_generations random o g cursor)) in
  let after := pop (run_state (after_generations random o (S g) cursor)) in
  ∃ ev0 ev1 ranked children,
    evaluate o before = ev0 :: ev1 :: ranked
    ∧ after = ind ev0 :: ind ev1 :: children
    ∧ length children = (popSize o - 2)%nat
    ∧ ind ev0 ∈ before ∧ ind ev1 ∈ before
    ∧ ∀ i, i ∈ before → fn o i <= fn o (ind ev0).
Proof.
  intros Hunit Hsize. cbv zeta. cbn [after_generations].
  destruct (after_generations_runs random o Hunit g cursor Hsize)
    as (st & c & -> & Hlen & _).
  cbn [run_state].
  destruct (generation_body_runs random o Hunit g st c)
    as (ev0 & ev1 & children & c' & H0 & H1 & Hchildren & ->); [lia|].
  cbn [run_state pop].
  destruct (evaluate_head o _ _ H0) as (Hfit & Hmem0 & Hmax).
  destruct (evaluate_fit o _ _ (list_elem_of_lookup_2 _ _ _ H1)) as (_ & Hmem1).
  destruct (evaluate o (pop st)) as [|e0 [|e1 ranked]] eqn:Heval; try done.
  injection H0 as ->. injection H1 as ->.
  exists ev0, ev1, ranked, children.
  split; [done|]. split; [done|]. split; [done|]. split; [done|]. split; [done|].
  intros i Hi. rewrite <- Hfit. by apply Hmax.
Qed.

Lemma elites_carried_over_witness :
  unit_interval cycle_of_ten ∧ (2 <= popSize small_run)%nat
  ∧ ∃ ev0 ev1 ranked children,
      evaluate small_run (pop (run_state (after_generations cycle_of_ten small_run 1 0)))
      = ev0 :: ev1 :: ranked
      ∧ pop (run_state (after_generations cycle_of_ten small_run 2 0))
        = ind ev0 :: ind ev1 :: children.
Proof.
  assert (Hsize : (2 <= popSize small_run)%nat) by (vm_compute; lia).
  split; [exact cycle_of_ten_unit|]. split; [exact Hsize|].
  destruct (elites_carried_over cycle_of_ten small_run 0 1 cycle_of_ten_unit Hsize)
    as (ev0 & ev1 & ranked & children & Hev & Hpop & _).
  exists ev0, ev1, ranked, children. split; [exact Hev|exact Hpop].
Defined.

(** ** The mixture calculator: the ratios of the particles of the table *)

(** Every particle of the table is denser and conducts heat better than
    water, and its constants are positive. *)
Lemma table_particles (particle : Particle) :
  particle ∈ map snd NANOPARTICLES →
  lit 997 <= rho particle ∧ lit 0.613 <= k particle
  ∧ 0 < Cp particle ∧ 0 < sigma particle.
Proof.
  intros Hin. apply list_elem_of_In in Hin. cbn in Hin.
  repeat (destruct Hin as [<-|Hin]; [repeat split; by vm_compute|]).
  destruct Hin.
Qed.

Lemma density_ratio (phi rho_p : Qc) :
  0 <= phi → lit 997 <= rho_p →
  1 <= ((1 - phi) * lit 997 + phi * rho_p) / lit 997.
Proof.
  intros Hphi Hrho.
  replace 1 with (lit 997 / lit 997) at 1 by (field; by vm_compute).
  unfold Qcdiv. apply Qcmult_le_compat_r; [|by vm_compute].
  qc_fractions. nra.
Qed.

Lemma heat_capacity_ratio (phi rho_p cp_p : Qc) :
  0 <= phi → phi < 1 → 0 < rho_p → 0 < cp_p →
  0 < ((1 - phi) * lit 997 * lit 4179 + phi * rho_p * cp_p) / (lit 997 * lit 4179).
Proof.
  intros H0 H1 Hrho Hcp. apply Qcdiv_pos; [|by vm_compute].
  assert (Hprod : 0 < rho_p * cp_p) by qc_positive.
  rewrite <- (Qcmult_assoc phi). generalize dependent (rho_p * cp_p). intros.
  qc_fractions. nra.
Qed.

Lemma conductivity_ratio (phi k_p : Qc) :
  0 <= phi → phi < 1 → lit 0.613 <= k_p →
  1 <= (k_p + 2 * lit 0.613 + 2 * phi * (k_p - lit 0.613))
       / (k_p + 2 * lit 0.613 - phi * (k_p - lit 0.613)).
Proof.
  intros H0 H1 Hk.
  assert (Hd : 0 < k_p + 2 * lit 0.613 - phi * (k_p - lit 0.613)) by (qc_fractions; nra).
  replace 1 with ((k_p + 2 * lit 0.613 - phi * (k_p - lit 0.613))
                  / (k_p + 2 * lit 0.613 - phi * (k_p - lit 0.613))) at 1
    by (field; by apply Qc_pos_ne).
  unfold Qcdiv. apply Qcmult_le_compat_r; [|by apply Qclt_le_weak, Qcinv_pos].
  qc_fractions. nra.
Qed.

Lemma electrical_ratio (phi sr : Qc) :
  0 <= phi → phi < 1 → 0 < sr →
  0 < 1 + lit 3 * phi * (sr - 1) / (sr + 2 - phi * (sr - 1))
  ∧ (1 <= sr → 1 <= 1 + lit 3 * phi * (sr - 1) / (sr + 2 - phi * (sr - 1)))
  ∧ (sr <= 1 → 1 + lit 3 * phi * (sr - 1) / (sr + 2 - phi * (sr - 1)) <= 1).
Proof.
  intros H0 H1 Hsr.
  assert (Hd : 0 < sr + 2 - phi * (sr - 1)) by (qc_fractions; nra).
  assert (Hsum : 1 + lit 3 * phi * (sr - 1) / (sr + 2 - phi * (sr - 1))
                 = (sr + 2 + 2 * phi * (sr - 1)) / (sr + 2 - phi * (sr - 1))).
  { replace (lit 3) with (1 + 2) by by apply Qc_is_canon.
    field. by apply Qc_pos_ne. }
  pose proof (Qcinv_pos _ Hd) as Hinv.
  split; [|split].
  - rewrite Hsum. apply Qcdiv_pos; [|done]. qc_fractions. nra.
  - intros Hge.
    assert (Hnum : 0 <= lit 3 * phi * (sr - 1)) by (qc_fractions; nra).
    pose proof (Qcdiv_nonneg _ _ Hnum Hd) as Hq.
    generalize dependent (lit 3 * phi * (sr - 1) / (sr + 2 - phi * (sr - 1))).
    intros. qc_fractions. lra.
  - intros Hle.
    assert (Hnum : 0 <= - (lit 3 * phi * (sr - 1))) by (qc_fractions; nra).
    pose proof (Qcdiv_nonneg _ _ Hnum Hd) as Hq.
    replace (- (lit 3 * phi * (sr - 1)) / (sr + 2 - phi * (sr - 1)))
      with (- (lit 3 * phi * (sr - 1) / (sr + 2 - phi * (sr - 1)))) in Hq
      by (unfold Qcdiv; ring).
    generalize dependent (lit 3 * phi * (sr - 1) / (sr + 2 - phi * (sr - 1))).
    intros. qc_fractions. lra.
Qed.

(** X27. For every particle of the table and every volume fraction in
    [0, 1), the four ratios computed from the constants of the particle are
    numbers with [A3 >= 1] (conductivity), [A4 >= 1] (density), [A5 > 0]
    (heat capacity) and [A2 > 0] (electrical conductivity), where [A2] is at
    least 1 for a particle that conducts better than water and at most 1
    otherwise; [A1] is the inverse of [Math.pow(1 - phi, 2.5)]. *)
Theorem table_particle_ratios
    (Math_pow : Qc → Qc → Qc) (type : string) (particle : Particle) (phi : Qc) :
  own_property NANOPARTICLES type = Some particle → 0 <= phi → phi < 1 →
  ∃ a2 a3 a4 a5 : Qc,
    computeNanofluidProperties Math_pow type phi
    = mkRatios (Num (1 / Math_pow (1 - phi) (lit 2.5))) (Num a2) (Num a3) (Num a4) (Num a5)
    ∧ 0 < a2
    ∧ (lit 0.05 <= sigma particle → 1 <= a2)
    ∧ (sigma particle <= lit 0.05 → a2 <= 1)
    ∧ 1 <= a3 ∧ 1 <= a4 ∧ 0 < a5.
Proof.
  intros Hown H0 H1.
  destruct (table_particles _ (own_property_in_table _ _ Hown)) as (Hrho & Hk & Hcp & Hsigma).
  unfold computeNanofluidProperties, NANOPARTICLES_get. rewrite Hown. cbv zeta.
  eexists _, _, _, _. split; [reflexivity|].
  assert (Hsr : 0 < sigma particle / lit 0.05) by (apply Qcdiv_pos; [done|by vm_compute]).
  destruct (electrical_ratio phi _ H0 H1 Hsr) as (Hpos & Hge & Hle).
  split; [done|]. split; [|split].
  - intros Hs. apply Hge.
    replace 1 with (lit 0.05 / lit 0.05) by (field; by vm_compute).
    unfold Qcdiv. by apply Qcmult_le_compat_r; [|by vm_compute].
  - intros Hs. apply Hle.
    replace 1 with (lit 0.05 / lit 0.05) by (field; by vm_compute).
    unfold Qcdiv. by apply Qcmult_le_compat_r; [|by vm_compute].
  - split; [by apply conductivity_ratio|]. split; [by apply density_ratio|].
    apply heat_capacity_ratio; try done.
    eapply Qclt_le_trans; [|exact Hrho]. by vm_compute.
Qed.

Lemma table_particle_ratios_witness :
  own_property NANOPARTICLES "Cu"
  = Some (mkParticle (lit 8933) (lit 401) (lit 385) (lit 5.96e7))
  ∧ 0 <= lit 0.03 ∧ lit 0.03 < 1
  ∧ ∃ a2 a3 a4 a5 : Qc,
      computeNanofluidProperties pow_newton "Cu" (lit 0.03)
      = mkRatios (Num (1 / pow_newton (1 - lit 0.03) (lit 2.5)))
                 (Num a2) (Num a3) (Num a4) (Num a5)
      ∧ 0 < a2.
Proof.
  assert (H0 : 0 <= lit 0.03) by by vm_compute.
  assert (H1 : lit 0.03 < 1) by by vm_compute.
  split; [reflexivity|]. split; [exact H0|]. split; [exact H1|].
  destruct (table_particle_ratios pow_newton "Cu"
              (mkParticle (lit 8933) (lit 401) (lit 385) (lit 5.96e7)) (lit 0.03)
              eq_refl H0 H1) as (a2 & a3 & a4 & a5 & Heq & Hpos & _).
  exists a2, a3, a4, a5. split; [exact Heq|exact Hpos].
Defined.

(** ** The optimizer as it is constructed and as the application runs it *)






(** Options that are not counts: [generations: -1] is kept and runs no
    generation; [populationSize: 2.5] is kept and is no array length. *)
Example constructed_with_other_numbers :
  (∃ o, as_optimizer (new_TransientOptimizer (fun i => prop i "Ha") two_dimensions
                        (mkOptions (Some (lit 4)) (Some (-1)) None)) = Some o
        ∧ popSize o = 4%nat ∧ gens o = 0%nat
        ∧ optimize cycle_of_ten o 0 = (Returned None NegInfinity, []))
  ∧ this_popSize (new_TransientOptimizer (fun i => prop i "Ha") two_dimensions
                    (mkOptions (Some (lit 2.5)) None None)) = lit 2.5
  ∧ as_optimizer (new_TransientOptimizer (fun i => prop i "Ha") two_dimensions
                    (mkOptions (Some (lit 2.5)) None None)) = None.
Proof.
  split; [|split; [by apply Qc_is_canon|by vm_compute]].
  eexists. split; [by vm_compute|]. split; [done|]. split; [done|].
  by vm_compute.
Qed.

(** The search space of the application lies inside the bounds of the
    validator. *)
Lemma runOptimizer_bounds_valid (k : string) (min max v : Qc) :
  (k, (min, max)) ∈ runOptimizer_bounds → min <= v → v <= max →
  within_validity (k, v).
Proof.
  intros Hin Hlo Hhi spec Hspec. cbn [fst snd] in *.
  apply list_elem_of_In in Hin. cbn in Hin.
  destruct Hin as [[= <- <- <-]|[[= <- <- <-]|[[= <- <- <-]|[[= <- <- <-]|[]]]]];
    injection Hspec as <-; cbn [v_min v_max]; split;
    (eapply Qcle_trans; [|exact Hlo]) || (eapply Qcle_trans; [exact Hhi|]);
    by vm_compute.
Qed.

(** X29. The optimizer of the application (population 20, 30 generations,
    the four dimensions [Ha], [Re], [Bi] and [lambda]), whatever the goal:
    on random numbers of [0, 1) it makes 30 reports and returns; every
    population has 20 individuals, each with a value for each of the four
    dimensions and for nothing else; and each search interval lies inside
    the range that the validator accepts for its dimension. *)
Theorem runOptimizer_search_space
    (random : nat → Qc) (fn : Individual → Qc) (cursor : nat) :
  unit_interval random →
  as_optimizer (runOptimizer_constructed fn) = Some (runOptimizer fn)
  ∧ (∃ b f reports,
       optimize random (runOptimizer fn) cursor = (Returned b f, reports)
       ∧ length reports = 30%nat)
  ∧ (∀ g,
       length (pop (run_state (after_generations random (runOptimizer fn) g cursor))) = 20%nat
       ∧ Forall
           (fun i => ∀ key, is_Some (i !! key) ↔ key ∈ ["Ha"; "Re"; "Bi"; "lambda"]%string)
           (pop (run_state (after_generations random (runOptimizer fn) g cursor))))
  ∧ ∀ key min max v,
      (key, (min, max)) ∈ runOptimizer_bounds → min <= v → v <= max →
      within_validity (key, v).
Proof.
  intros Hunit.
  assert (Hsize : (2 <= popSize (runOptimizer fn))%nat) by (cbn; lia).
  split; [by vm_compute|]. split; [|split].
  - unfold optimize.
    destruct (after_generations_runs random (runOptimizer fn) Hunit
                (gens (runOptimizer fn)) cursor Hsize)
      as (st & c & -> & _ & Hgen & _).
    exists (best st), (bestFit st), (reported st). split; [done|].
    rewrite <- (length_map generation), Hgen. apply length_seq.
  - intros g. split.
    + destruct (after_generations_runs random (runOptimizer fn) Hunit g cursor Hsize)
        as (st & c & -> & Hlen & _).
      exact Hlen.
    + exact (after_generations_dimensions random (runOptimizer fn) Hunit g cursor).
  - exact runOptimizer_bounds_valid.
Qed.

Lemma runOptimizer_search_space_witness :
  unit_interval cycle_of_ten
  ∧ ∃ b f reports,
      optimize cycle_of_ten (runOptimizer (fun i => prop i "Ha")) 0 = (Returned b f, reports)
      ∧ length reports = 30%nat.
Proof.
  split; [exact cycle_of_ten_unit|].
  exact (proj1 (proj2 (runOptimizer_search_space cycle_of_ten
                         (fun i => prop i "Ha") 0 cycle_of_ten_unit))).
Defined.
